(** * Zen Drive: the procedural world streaming core

    A shallow embedding of the noise field ([NoiseGenerator], [BiomeNoise]),
    the terrain streamer ([TerrainSystem]), the road generator
    ([RoadSystem]) and the [CatmullRomSpline] of the JavaScript sources,
    followed by the properties stated for them.

    Numbers.  A JavaScript Number is an IEEE double.  The embedding reads
    every Number that carries a quantity (coordinates, heights, noise values,
    distances, angles) as a real number: rounding, NaN and the infinities are
    outside the model, and where the source starts a running minimum or
    maximum at [Infinity] or [-Infinity] the model has an [option R] with
    [None] for the infinite start.  Numbers
    that the source uses as integers (array indices, hashes, loop counters,
    the level of detail, vertex counts) are [Z] or [nat].  [Math.floor] is
    [Int_part], [Math.sqrt] is [sqrt], [Math.sin] and [Math.cos] are [sin]
    and [cos]. *)

From Stdlib Require Import Reals ZArith List Lia Lra Psatz Bool Permutation.
Import ListNotations.

Local Open Scope R_scope.

(** ** JavaScript primitives *)

Module JS.

Definition floor (r : R) : Z := Int_part r.

Definition ltb (a b : R) : bool := if Rlt_dec a b then true else false.
Definition leb (a b : R) : bool := if Rle_dec a b then true else false.
Definition gtb (a b : R) : bool := ltb b a.
Definition geb (a b : R) : bool := leb b a.

(** A running minimum or maximum that starts at [Infinity] or
    [-Infinity]: [None] is the infinite start value. *)
Definition ext := option R.

(** [d < c] where [c] may be [Infinity]. *)
Definition lt_ext (d : R) (c : ext) : bool :=
  match c with
  | None => true
  | Some c' => ltb d c'
  end.

(** [c <= d] where [c] may be [Infinity]. *)
Definition ext_leb (c : ext) (d : R) : bool :=
  match c with
  | None => false
  | Some c' => leb c' d
  end.

(** [Math.min(m, v)] with [m] possibly [Infinity]. *)
Definition min_ext (m : ext) (v : R) : ext :=
  match m with
  | None => Some v
  | Some m' => Some (Rmin m' v)
  end.

(** [Math.max(m, v)] with [m] possibly [-Infinity]. *)
Definition max_ext (m : ext) (v : R) : ext :=
  match m with
  | None => Some v
  | Some m' => Some (Rmax m' v)
  end.

(** [ToInt32]: the operand of a bitwise operator, wrapped to a signed
    32-bit integer. *)
Definition toInt32 (v : Z) : Z :=
  ((v + 2147483648) mod 4294967296 - 2147483648)%Z.

(** [a[i]] on an array: [None] is [undefined]. *)
Definition get {A : Type} (a : list A) (i : Z) : option A :=
  if (i <? 0)%Z then None else nth_error a (Z.to_nat i).

(** [a[i] = v] on an index the array already has. *)
Fixpoint set {A : Type} (a : list A) (i : nat) (v : A) : list A :=
  match a, i with
  | [], _ => []
  | _ :: rest, O => v :: rest
  | h :: rest, S i' => h :: set rest i' v
  end.

(** The values of [k] in [for (let k = lo; k <= hi; k++)] on integers. *)
Definition range (lo hi : Z) : list Z :=
  map (fun k => (lo + Z.of_nat k)%Z) (seq 0 (Z.to_nat (hi - lo + 1))).

(** The values of [x] in [for (let x = lo; x <= hi; x++)] when the bounds
    are arbitrary numbers: [lo], [lo + 1], ... as long as they stay at or
    below [hi]. *)
Definition range_R (lo hi : R) : list R :=
  if Rle_dec lo hi
  then map (fun k => lo + INR k) (seq 0 (S (Z.to_nat (floor (hi - lo)))))
  else [].

End JS.

(** ** Vec3 and MathUtils *)

Module Vec3.

Record t : Type := mk { x : R; y : R; z : R }.

Definition zero : t := mk 0 0 0.
Definition one : t := mk 1 1 1.
Definition up : t := mk 0 1 0.
Definition forward : t := mk 0 0 1.
Definition right : t := mk 1 0 0.

Definition add (a b : t) : t := mk (x a + x b) (y a + y b) (z a + z b).
Definition subtract (a b : t) : t := mk (x a - x b) (y a - y b) (z a - z b).
Definition multiply (a : t) (s : R) : t := mk (x a * s) (y a * s) (z a * s).
Definition divide (a : t) (s : R) : t := mk (x a / s) (y a / s) (z a / s).
Definition dot (a b : t) : R := x a * x b + y a * y b + z a * z b.
Definition cross (a b : t) : t :=
  mk (y a * z b - z a * y b) (z a * x b - x a * z b) (x a * y b - y a * x b).
Definition length (a : t) : R := sqrt (x a * x a + y a * y a + z a * z a).
Definition lengthSquared (a : t) : R := x a * x a + y a * y a + z a * z a.

Definition normalize (a : t) : t :=
  let len := length a in
  if JS.gtb len 0 then divide a len else zero.

Definition distance (a b : t) : R := length (subtract a b).

Definition with_y (a : t) (v : R) : t := mk (x a) v (z a).

End Vec3.

Module MathUtils.

Definition clamp (value lo hi : R) : R := Rmin (Rmax value lo) hi.
Definition lerp (a b t : R) : R := a + (b - a) * t.

Definition smoothstep (edge0 edge1 x : R) : R :=
  let t := clamp ((x - edge0) / (edge1 - edge0)) 0 1 in
  t * t * (3 - 2 * t).

Definition mix (a b t : R) : R := a * (1 - t) + b * t.

Definition wrap (value lo hi : R) : R :=
  let range := hi - lo in
  if JS.leb range 0 then lo
  else
    let result := value - lo in
    lo + (result - IZR (JS.floor (result / range)) * range).

End MathUtils.

(** ** NoiseGenerator *)

Module NoiseGenerator.

Record t : Type := mk {
  seed : Z;
  gradients : list (R * R);
  permutation : list Z
}.

Definition generateGradients : list (R * R) :=
  map (fun i => let angle := (INR i / 256) * 2 * PI in (cos angle, sin angle))
      (seq 0 256).

(** One call of the closure returned by [seededRandom]: the closure's
    counter [state] is read, used and incremented. *)
Definition random (state : Z) : R * Z :=
  let x := sin (IZR state) * 10000 in
  (x - IZR (JS.floor x), (state + 1)%Z).

(** [[perm[i], perm[j]] = [perm[j], perm[i]]] *)
Definition swap (perm : list Z) (i j : nat) : list Z :=
  let pi := nth i perm 0%Z in
  let pj := nth j perm 0%Z in
  JS.set (JS.set perm i pj) j pi.

(** [for (let i = 255; i > 0; i--)] of [generatePermutation], entered
    with [i] and the closure's counter. *)
Fixpoint shuffle (i : nat) (state : Z) (perm : list Z) : list Z :=
  match i with
  | O => perm
  | S i' =>
      let (r, state') := random state in
      let j := JS.floor (r * (INR i + 1)) in
      shuffle i' state' (swap perm i (Z.to_nat j))
  end.

Definition generatePermutation (seed : Z) : list Z :=
  let perm := map Z.of_nat (seq 0 256) in
  let perm := shuffle 255 seed perm in
  perm ++ perm.

Definition new (seed : Z) : t :=
  mk seed generateGradients (generatePermutation seed).

Definition fade (t : R) : R := t * t * t * (t * (t * 6 - 15) + 10).

Definition lerp (a b t : R) : R := a + t * (b - a).

Definition grad (hash : Z) (x y : R) : R :=
  let h := Z.land hash 3 in
  let u := if (h <? 2)%Z then x else y in
  let v := if (h <? 2)%Z then y else x in
  (if (Z.land h 1 =? 0)%Z then u else - u) +
  (if (Z.land h 2 =? 0)%Z then v else - v).

(** [this.permutation[i]]; the constructor's table has 512 entries below
    256, so every index used by [perlin2D] is in range
    (see [perlin2D_indices_in_range]). *)
Definition perm (g : t) (i : Z) : Z := nth (Z.to_nat i) (permutation g) 0%Z.

Definition perlin2D (g : t) (x y : R) : R :=
  let X := Z.land (JS.floor x) 255 in
  let Y := Z.land (JS.floor y) 255 in
  let x := x - IZR (JS.floor x) in
  let y := y - IZR (JS.floor y) in
  let u := fade x in
  let v := fade y in
  let A := (perm g X + Y)%Z in
  let AA := perm g A in
  let AB := perm g (A + 1) in
  let B := (perm g (X + 1) + Y)%Z in
  let BA := perm g B in
  let BB := perm g (B + 1) in
  lerp
    (lerp (grad (perm g AA) x y) (grad (perm g BA) (x - 1) y) u)
    (lerp (grad (perm g AB) x (y - 1)) (grad (perm g BB) (x - 1) (y - 1)) u)
    v.

(** A table entry: a byte. *)
Definition entry (v : Z) : Prop := (0 <= v < 256)%Z.

(** The indices at which [perlin2D] reads [this.permutation]. *)
Definition perlin2D_indices (g : t) (x y : R) : list Z :=
  let X := Z.land (JS.floor x) 255 in
  let Y := Z.land (JS.floor y) 255 in
  let A := (perm g X + Y)%Z in
  let B := (perm g (X + 1) + Y)%Z in
  [X; A; (A + 1)%Z; (X + 1)%Z; B; (B + 1)%Z;
   perm g A; perm g B; perm g (A + 1); perm g (B + 1)].

(** The accumulators of the octave loops. *)
Record acc : Type := mkAcc {
  value : R;
  amplitude : R;
  frequency : R;
  maxValue : R
}.

(** The loop [for (let i = 0; i < octaves; i++)] shared by
    [octaveNoise2D], [ridgedNoise2D] and [billow2D]; the three bodies
    differ only in what they do to the sample [n] before weighting it,
    which is [shape]. *)
Fixpoint octaves_loop (shape : R -> R) (g : t) (x y : R) (persistence : R)
         (octaves : nat) (a : acc) : acc :=
  match octaves with
  | O => a
  | S rest =>
      let n := shape (perlin2D g (x * frequency a) (y * frequency a)) in
      octaves_loop shape g x y persistence rest
        (mkAcc (value a + n * amplitude a)
               (amplitude a * persistence)
               (frequency a * 2)
               (maxValue a + amplitude a))
  end.

Definition start (scale : R) : acc := mkAcc 0 1 scale 0.

Definition octaveNoise2D (g : t) (x y : R) (octaves : nat)
           (persistence scale : R) : R :=
  let a := octaves_loop (fun n => n) g x y persistence octaves (start scale) in
  value a / maxValue a.

Definition ridgedNoise2D (g : t) (x y : R) (octaves : nat)
           (persistence scale : R) : R :=
  let a := octaves_loop (fun n => let n := 1 - Rabs n in n * n)
                        g x y persistence octaves (start scale) in
  value a / maxValue a.

Definition billow2D (g : t) (x y : R) (octaves : nat)
           (persistence scale : R) : R :=
  let a := octaves_loop Rabs g x y persistence octaves (start scale) in
  value a / maxValue a.

(** The fractal combinator in closed form: the first [n] octaves of
    the amplitude-weighted sum, the frequency doubling and the amplitude
    multiplying by the persistence each octave, and the sum of those
    amplitudes. *)
Fixpoint weightedSum (g : t) (x y persistence scale : R) (n : nat) : R :=
  match n with
  | O => 0
  | S k =>
      weightedSum g x y persistence scale k +
      perlin2D g (x * (scale * 2 ^ k)) (y * (scale * 2 ^ k)) * persistence ^ k
  end.

Fixpoint amplitudeSum (persistence : R) (n : nat) : R :=
  match n with
  | O => 0
  | S k => amplitudeSum persistence k + persistence ^ k
  end.

End NoiseGenerator.

(** ** BiomeNoise *)

Module BiomeNoise.

Inductive biome : Type := plains | forest | desert | mountain | city.

Record t : Type := mk {
  temperature : NoiseGenerator.t;
  humidity : NoiseGenerator.t;
  elevation : NoiseGenerator.t;
  density : NoiseGenerator.t
}.

Definition new (seed : Z) : t :=
  mk (NoiseGenerator.new seed)
     (NoiseGenerator.new (seed + 1000))
     (NoiseGenerator.new (seed + 2000))
     (NoiseGenerator.new (seed + 3000)).

Definition getTemperature (b : t) (x y : R) : R :=
  NoiseGenerator.octaveNoise2D (temperature b) (x * 0.001) (y * 0.001) 3 0.6 1.

Definition getHumidity (b : t) (x y : R) : R :=
  NoiseGenerator.octaveNoise2D (humidity b) (x * 0.0008) (y * 0.0008) 3 0.5 1.

Definition getElevation (b : t) (x y : R) : R :=
  let base :=
    NoiseGenerator.octaveNoise2D (elevation b) (x * 0.0005) (y * 0.0005) 6 0.7 1 in
  let ridged :=
    NoiseGenerator.ridgedNoise2D (elevation b) (x * 0.002) (y * 0.002) 4 0.4 1 in
  base * 0.7 + ridged * 0.3.

Definition getDensity (b : t) (x y : R) : R :=
  NoiseGenerator.octaveNoise2D (density b) (x * 0.003) (y * 0.003) 4 0.5 1.

Definition getBiome (b : t) (x y : R) : biome :=
  let temp := getTemperature b x y in
  let humidity := getHumidity b x y in
  let elevation := getElevation b x y in
  if JS.gtb elevation 0.6 then mountain
  else if JS.ltb temp (-0.3) then mountain
  else if JS.ltb humidity (-0.3) && JS.gtb temp 0.2 then desert
  else if JS.gtb humidity 0.4 && JS.gtb temp (-0.1) then forest
  else if JS.ltb elevation 0.1 && JS.ltb (Rabs temp) 0.3 then city
  else plains.

Definition getBlendedHeight (b : t) (x y : R) (bm : biome) : R :=
  let elev := getElevation b x y in
  match bm with
  | mountain =>
      elev * 200 +
      NoiseGenerator.ridgedNoise2D (elevation b) (x * 0.005) (y * 0.005) 3 0.5 1 * 100
  | desert =>
      elev * 50 +
      NoiseGenerator.billow2D (elevation b) (x * 0.008) (y * 0.008) 2 0.5 1 * 30
  | forest =>
      elev * 80 +
      NoiseGenerator.octaveNoise2D (elevation b) (x * 0.01) (y * 0.01) 2 0.5 1 * 20
  | city => Rmax 0 (elev * 20)
  | plains =>
      elev * 60 +
      NoiseGenerator.octaveNoise2D (elevation b) (x * 0.003) (y * 0.003) 3 0.5 1 * 15
  end.

End BiomeNoise.

(** ** The classification rule, as the specification words it

    Three channels seeded from one base seed (base, base + 1000,
    base + 2000), and six rules tried in order, the first that matches
    deciding the biome. *)

Module BiomeRule.

Import BiomeNoise.

Definition temperatureChannel (seed : Z) (x z : R) : R :=
  NoiseGenerator.octaveNoise2D (NoiseGenerator.new seed)
                               (x * 0.001) (z * 0.001) 3 0.6 1.

Definition humidityChannel (seed : Z) (x z : R) : R :=
  NoiseGenerator.octaveNoise2D (NoiseGenerator.new (seed + 1000))
                               (x * 0.0008) (z * 0.0008) 3 0.5 1.

Definition elevationChannel (seed : Z) (x z : R) : R :=
  NoiseGenerator.octaveNoise2D (NoiseGenerator.new (seed + 2000))
                               (x * 0.0005) (z * 0.0005) 6 0.7 1 * 0.7 +
  NoiseGenerator.ridgedNoise2D (NoiseGenerator.new (seed + 2000))
                               (x * 0.002) (z * 0.002) 4 0.4 1 * 0.3.

(** The condition of each rule, in priority order. *)
Definition rules (temperature humidity elevation : R) : list (Prop * biome) :=
  [ (elevation > 0.6, mountain);
    (temperature < -0.3, mountain);
    (humidity < -0.3 /\ temperature > 0.2, desert);
    (humidity > 0.4 /\ temperature > -0.1, forest);
    (elevation < 0.1 /\ Rabs temperature < 0.3, city) ].

(** [firstMatch rs b]: [b] is the biome of the first rule of [rs] whose
    condition holds, or plains when none does. *)
Fixpoint firstMatch (rs : list (Prop * biome)) (b : biome) : Prop :=
  match rs with
  | [] => b = plains
  | (condition, outcome) :: rest =>
      (condition /\ b = outcome) \/ (~ condition /\ firstMatch rest b)
  end.

Definition classifies (seed : Z) (x z : R) (b : biome) : Prop :=
  firstMatch (rules (temperatureChannel seed x z)
                    (humidityChannel seed x z)
                    (elevationChannel seed x z)) b.

End BiomeRule.

(** ** VoronoiNoise

    The generator's own field [this.random] is never read; a cell's
    feature point comes from two closures made on the spot, each called
    once. *)

Module VoronoiNoise.

Record t : Type := mk { seed : Z }.

(** The first call of the closure [seededRandom(seed)] returns. *)
Definition seededRandom (state : Z) : R :=
  let x := sin (IZR state) * 10000 in
  x - IZR (JS.floor x).

Record point : Type := mkPoint { px : R; py : R; gx : Z; gy : Z }.

(** The feature point of the grid cell [(gx, gy)]. *)
Definition cellPoint (v : t) (cellSize : R) (gx gy : Z) : point :=
  let seedX := (seed v + gx * 73856093 + gy * 19349663)%Z in
  let seedY := (seed v + gx * 73856093 + gy * 19349663 + 1)%Z in
  mkPoint (IZR gx * cellSize + seededRandom seedX * cellSize)
          (IZR gy * cellSize + seededRandom seedY * cellSize)
          gx gy.

Definition getPoints (v : t) (x y cellSize : R) : list point :=
  let gridX := JS.floor (x / cellSize) in
  let gridY := JS.floor (y / cellSize) in
  flat_map
    (fun dx =>
       map (fun dy => cellPoint v cellSize (gridX + dx) (gridY + dy))
           (JS.range (-1) 1))
    (JS.range (-1) 1).

(** The loop of [getClosestPoint] over [points], entered with
    [closest] and [minDist]. *)
Fixpoint closestLoop (x y : R) (points : list point)
         (closest : option point) (minDist : JS.ext)
  : option point * JS.ext :=
  match points with
  | [] => (closest, minDist)
  | p :: rest =>
      let dist := sqrt ((x - px p) ^ 2 + (y - py p) ^ 2) in
      if JS.lt_ext dist minDist
      then closestLoop x y rest (Some p) (Some dist)
      else closestLoop x y rest closest minDist
  end.

Definition getClosestPoint (v : t) (x y cellSize : R) : option point * JS.ext :=
  closestLoop x y (getPoints v x y cellSize) None None.

(** [None] is [Infinity / cellSize]. *)
Definition getCellValue (v : t) (x y cellSize : R) : JS.ext :=
  match snd (getClosestPoint v x y cellSize) with
  | Some distance => Some (distance / cellSize)
  | None => None
  end.

End VoronoiNoise.

(** ** CatmullRomSpline *)

Module CatmullRomSpline.

Record t : Type := mk { points : list Vec3.t }.

(** One coordinate of the Catmull-Rom formula. *)
Definition formula (p0 p1 p2 p3 t t2 t3 : R) : R :=
  0.5 * ((2 * p1) +
         (- p0 + p2) * t +
         (2 * p0 - 5 * p1 + 4 * p2 - p3) * t2 +
         (- p0 + 3 * p1 - 3 * p2 + p3) * t3).

(** One coordinate of its derivative. *)
Definition derivative (p0 p1 p2 p3 t t2 : R) : R :=
  0.5 * ((- p0 + p2) +
         2 * (2 * p0 - 5 * p1 + 4 * p2 - p3) * t +
         3 * (- p0 + 3 * p1 - 3 * p2 + p3) * t2).

(** The four control points of a segment.  Reading a coordinate of an
    [undefined] array element is a TypeError: [None]. *)
Definition controlPoints (s : t) (segment : Z)
  : option (Vec3.t * Vec3.t * Vec3.t * Vec3.t) :=
  let len := Z.of_nat (length (points s)) in
  match JS.get (points s) (Z.max 0 (segment - 1)),
        JS.get (points s) segment,
        JS.get (points s) (segment + 1),
        JS.get (points s) (Z.min (len - 1) (segment + 2)) with
  | Some p0, Some p1, Some p2, Some p3 => Some (p0, p1, p2, p3)
  | _, _, _, _ => None
  end.

Definition getSegmentPoint (s : t) (segment : Z) (t : R) : option Vec3.t :=
  match controlPoints s segment with
  | Some (p0, p1, p2, p3) =>
      let t2 := t * t in
      let t3 := t2 * t in
      Some (Vec3.mk
              (formula (Vec3.x p0) (Vec3.x p1) (Vec3.x p2) (Vec3.x p3) t t2 t3)
              (formula (Vec3.y p0) (Vec3.y p1) (Vec3.y p2) (Vec3.y p3) t t2 t3)
              (formula (Vec3.z p0) (Vec3.z p1) (Vec3.z p2) (Vec3.z p3) t t2 t3))
  | None => None
  end.

(** The segment index and the local parameter that [getPoint] and
    [getTangent] compute from [t]. *)
Definition locate (s : t) (t : R) : Z * R :=
  let segmentCount := (Z.of_nat (length (points s)) - 1)%Z in
  let segment :=
    Z.min (JS.floor (t * IZR segmentCount)) (segmentCount - 1) in
  let localT := (t * IZR segmentCount) - IZR segment in
  (segment, localT).

Definition getPoint (s : t) (t : R) : option Vec3.t :=
  if (length (points s) <? 2)%nat
  then match points s with
       | p :: _ => Some p
       | [] => Some Vec3.zero
       end
  else
    let (segment, localT) := locate s t in
    getSegmentPoint s segment localT.

(** The vector [result] of [getSegmentTangent] before it is normalised:
    the derivative of the segment's cubic. *)
Definition getSegmentDerivative (s : t) (segment : Z) (t : R) : option Vec3.t :=
  match controlPoints s segment with
  | Some (p0, p1, p2, p3) =>
      let t2 := t * t in
      Some (Vec3.mk
              (derivative (Vec3.x p0) (Vec3.x p1) (Vec3.x p2) (Vec3.x p3) t t2)
              (derivative (Vec3.y p0) (Vec3.y p1) (Vec3.y p2) (Vec3.y p3) t t2)
              (derivative (Vec3.z p0) (Vec3.z p1) (Vec3.z p2) (Vec3.z p3) t t2))
  | None => None
  end.

Definition getSegmentTangent (s : t) (segment : Z) (t : R) : option Vec3.t :=
  match getSegmentDerivative s segment t with
  | Some result => Some (Vec3.normalize result)
  | None => None
  end.

Definition getTangent (s : t) (t : R) : option Vec3.t :=
  if (length (points s) <? 2)%nat
  then Some Vec3.forward
  else
    let (segment, localT) := locate s t in
    getSegmentTangent s segment localT.

(** The derivative of the cubic at [t], for a spline that [getTangent]
    evaluates (two points or more). *)
Definition derivativeAt (s : t) (t : R) : option Vec3.t :=
  let (segment, localT) := locate s t in
  getSegmentDerivative s segment localT.

End CatmullRomSpline.

(** ** RoadSystem

    The road's centre path, its spline and the nearest-point query.  A
    segment is kept as its parameter range; the banked strip mesh, its GPU
    buffers and the road texture, which [generateSegment] and
    [createRoadTexture] build from the spline without writing [path] or
    [spline], are left out, and so are [update] with its culling and the
    unused [maxSegments].  [terrain] is the [getHeightAt] of the terrain
    object handed to the constructor. *)

Module RoadSystem.

Record segment : Type := mkSegment { startT : R; endT : R }.

Record t : Type := mk {
  terrain : R -> R -> R;
  roadWidth : R;
  segmentLength : R;
  generationDistance : R;
  segments : list segment;
  path : list Vec3.t;
  (** [this.spline] is [null] or a [CatmullRomSpline] wrapping the array
      [this.path] itself. *)
  spline : option CatmullRomSpline.t;
  lastGeneratedPosition : Vec3.t;
  currentDirection : Vec3.t;
  roadSeed : Z;
  curviness : R;
  terrainFollowing : R;
  bankingAmount : R;
  shoulderWidth : R;
  segmentsGenerated : nat
}.

Definition rotateVector (vector : Vec3.t) (angle : R) : Vec3.t :=
  let c := cos angle in
  let s := sin angle in
  Vec3.mk (Vec3.x vector * c - Vec3.z vector * s)
          (Vec3.y vector)
          (Vec3.x vector * s + Vec3.z vector * c).

(** The locals of [extendRoad]'s loop, with the path it pushes onto. *)
Record walk : Type := mkWalk {
  currentPos : Vec3.t;
  currentDir : Vec3.t;
  generatedDistance : R;
  walked : list Vec3.t
}.

(** One pass through the body of [while (generatedDistance < distance)]. *)
Definition extendStep (r : t) (noise : NoiseGenerator.t) (w : walk) : walk :=
  let segmentProgress := INR (length (walked w)) * 0.01 in
  let noiseValue :=
    NoiseGenerator.octaveNoise2D noise segmentProgress (segmentProgress * 0.7)
                                 3 0.6 0.5 in
  let turnAngle := noiseValue * curviness r * 0.5 in
  let currentDir := rotateVector (currentDir w) turnAngle in
  let nextPos :=
    Vec3.add (currentPos w) (Vec3.multiply currentDir (segmentLength r)) in
  let terrainHeight := terrain r (Vec3.x nextPos) (Vec3.z nextPos) in
  let nextPos :=
    Vec3.with_y nextPos
      (MathUtils.lerp (Vec3.y nextPos) (terrainHeight + 1) (terrainFollowing r)) in
  mkWalk nextPos currentDir (generatedDistance w + segmentLength r)
         (walked w ++ [nextPos]).

(** The loop itself; [None] when [fuel] passes do not reach the exit
    (with a segment length that is not positive the loop never exits). *)
Fixpoint extendLoop (fuel : nat) (r : t) (noise : NoiseGenerator.t)
         (distance : R) (w : walk) : option walk :=
  if JS.ltb (generatedDistance w) distance
  then match fuel with
       | O => None
       | S fuel' => extendLoop fuel' r noise distance (extendStep r noise w)
       end
  else Some w.

(** [generateSegments] on the extended path: the segment list is
    cleared and, for a path of four points or more, rebuilt with one
    segment per ten spline samples and counted in
    [stats.segmentsGenerated]; a shorter path leaves the list empty
    and the count as it was. *)
Definition generateSegments (path : list Vec3.t) (generated : nat)
  : list segment * nat :=
  if (length path <? 4)%nat then ([], generated)
  else
    let resolution := 10%nat in
    let totalPoints := (length path * resolution)%nat in
    let segments :=
      map (fun k =>
             let i := (k * resolution)%nat in
             mkSegment (INR i / INR totalPoints)
                       (INR (i + resolution) / INR totalPoints))
          (seq 0 (length path - 1)) in
    (segments, length segments).

Definition extendRoad (fuel : nat) (r : t) (distance : R) : option t :=
  let noise := NoiseGenerator.new (roadSeed r) in
  match extendLoop fuel r noise distance
          (mkWalk (lastGeneratedPosition r) (currentDirection r) 0 (path r)) with
  | None => None
  | Some w =>
      let (segments, generated) :=
        generateSegments (walked w) (segmentsGenerated r) in
      Some (mk (terrain r) (roadWidth r) (segmentLength r)
               (generationDistance r)
               segments
               (walked w)
               (Some (CatmullRomSpline.mk (walked w)))
               (currentPos w)
               (currentDir w)
               (roadSeed r) (curviness r) (terrainFollowing r)
               (bankingAmount r) (shoulderWidth r)
               generated)
  end.

(** The object as the constructor leaves it before [init()]. *)
Definition fields (terrain : R -> R -> R) : t :=
  mk terrain 8 50 1000 [] [] None
     (Vec3.mk 0 0 0) (Vec3.mk 0 0 1) 54321 0.3 0.8 0.2 1 0.

(** The road when [generateInitialRoad] has pushed the start position
    and has not yet called [extendRoad]. *)
Definition started (r : t) : t :=
  let startPosition := Vec3.mk 0 0 0 in
  mk (terrain r) (roadWidth r) (segmentLength r) (generationDistance r)
     (segments r) (path r ++ [startPosition]) (spline r)
     startPosition (currentDirection r)
     (roadSeed r) (curviness r) (terrainFollowing r)
     (bankingAmount r) (shoulderWidth r) (segmentsGenerated r).

Definition generateInitialRoad (fuel : nat) (r : t) : option t :=
  let r := started r in
  extendRoad fuel r (generationDistance r).

Definition new (fuel : nat) (terrain : R -> R -> R) : option t :=
  generateInitialRoad fuel (fields terrain).

Record roadInfo : Type := mkInfo {
  position : Vec3.t;
  direction : Vec3.t;
  distance : JS.ext;
  t_ : R
}.

(** The two search loops of [getRoadInfo] over the indices [idxs]; [tOf]
    gives the parameter tried at index [i], which in the refinement loop
    depends on the current [closestT]. *)
Fixpoint search (s : CatmullRomSpline.t) (worldPos : Vec3.t)
         (tOf : Z -> R -> R) (idxs : list Z)
         (closestDistance : JS.ext) (closestT : R) : option (JS.ext * R) :=
  match idxs with
  | [] => Some (closestDistance, closestT)
  | i :: rest =>
      let t := tOf i closestT in
      match CatmullRomSpline.getPoint s t with
      | None => None
      | Some point =>
          let distance := Vec3.distance worldPos point in
          if JS.lt_ext distance closestDistance
          then search s worldPos tOf rest (Some distance) t
          else search s worldPos tOf rest closestDistance closestT
      end
  end.

Definition samples : Z := 100.
Definition refinement : R := 0.01.

(** [None] is a TypeError; [Some None] is the [null] returned when there
    is no spline. *)
Definition getRoadInfo (r : t) (worldPos : Vec3.t) : option (option roadInfo) :=
  match spline r with
  | None => Some None
  | Some s =>
      match search s worldPos (fun i _ => IZR i / IZR samples)
                   (JS.range 0 samples) None 0 with
      | None => None
      | Some (closestDistance, closestT) =>
          match search s worldPos
                       (fun i closestT =>
                          Rmax 0 (Rmin 1 (closestT + IZR i * refinement)))
                       (JS.range (-10) 10) closestDistance closestT with
          | None => None
          | Some (closestDistance, closestT) =>
              match CatmullRomSpline.getPoint s closestT,
                    CatmullRomSpline.getTangent s closestT with
              | Some p, Some d =>
                  Some (Some (mkInfo p d closestDistance closestT))
              | _, _ => None
              end
          end
      end
  end.

(** [isOnRoad(worldPos, tolerance = this.roadWidth)]; an omitted
    [tolerance] is [None].  The [null] that [roadInfo && ...] yields
    without a spline is read as [false]. *)
Definition isOnRoad (r : t) (worldPos : Vec3.t) (tolerance : option R)
  : option bool :=
  let tolerance := match tolerance with
                   | Some v => v
                   | None => roadWidth r
                   end in
  match getRoadInfo r worldPos with
  | None => None
  | Some None => Some false
  | Some (Some roadInfo) => Some (JS.ext_leb (distance roadInfo) tolerance)
  end.

(** [getRoadHeight]: the inner [None] is the [null] result. *)
Definition getRoadHeight (r : t) (x z : R) : option (option R) :=
  let worldPos := Vec3.mk x 0 z in
  match getRoadInfo r worldPos with
  | None => None
  | Some None => Some None
  | Some (Some roadInfo) =>
      if JS.ext_leb (distance roadInfo) (roadWidth r)
      then Some (Some (Vec3.y (position roadInfo)))
      else Some None
  end.

End RoadSystem.

(** ** Vocabulary of the road properties *)

Module RoadSpec.

(** The distance between two points in the XZ-plane projection. *)
Definition xzDistance (a b : Vec3.t) : R :=
  sqrt ((Vec3.x b - Vec3.x a) ^ 2 + (Vec3.z b - Vec3.z a) ^ 2).

(** Each consecutive pair of the list is [d] apart in the XZ plane. *)
Fixpoint spaced (d : R) (l : list Vec3.t) : Prop :=
  match l with
  | a :: (b :: _) as rest => xzDistance a b = d /\ spaced d rest
  | _ => True
  end.

Definition origin : Vec3.t := Vec3.mk 0 0 0.

(** What the search of [getRoadInfo] holds is the distance to the curve
    point at the parameter it holds. *)
Definition tracks (s : CatmullRomSpline.t) (worldPos : Vec3.t)
           (closestDistance : JS.ext) (closestT : R) : Prop :=
  exists q, CatmullRomSpline.getPoint s closestT = Some q /\
            closestDistance = Some (Vec3.distance worldPos q).

(** What every pass of the loop of [extendRoad] keeps: a unit heading
    in the XZ plane, the current position at the end of the path, and an
    evenly spaced path. *)
Definition steady (r : RoadSystem.t) (w : RoadSystem.walk) : Prop :=
  Vec3.x (RoadSystem.currentDir w) * Vec3.x (RoadSystem.currentDir w) +
  Vec3.z (RoadSystem.currentDir w) * Vec3.z (RoadSystem.currentDir w) = 1 /\
  (exists front, RoadSystem.walked w = front ++ [RoadSystem.currentPos w]) /\
  spaced (RoadSystem.segmentLength r) (RoadSystem.walked w).

(** A straight road of four waypoints along +Z on level ground, with
    the constructor's width of 8. *)
Definition straightPath : list Vec3.t :=
  [Vec3.mk 0 0 0; Vec3.mk 0 0 50; Vec3.mk 0 0 100; Vec3.mk 0 0 150].

Definition straightRoad : RoadSystem.t :=
  RoadSystem.mk (fun _ _ => 0) 8 50 1000
                (fst (RoadSystem.generateSegments straightPath 0))
                straightPath
                (Some (CatmullRomSpline.mk straightPath))
                (Vec3.mk 0 0 150) (Vec3.mk 0 0 1)
                54321 0.3 0.8 0.2 1 3.

End RoadSpec.

(** ** The WebGL context, as far as buffers go *)

Module GL.

(** [next] numbers the buffer objects handed out so far; [live] holds the
    ones not yet deleted. *)
Record t : Type := mk { next : nat; live : list nat }.

Definition fresh : t := mk 0 [].

Definition createBuffer (g : t) : nat * t :=
  (next g, mk (S (next g)) (next g :: live g)).

Definition deleteBuffer (g : t) (b : nat) : t :=
  mk (next g) (remove Nat.eq_dec b (live g)).

End GL.

(** ** Chunk keys, and the JavaScript [Set] and [Map] keyed by them

    [getChunkKey] builds the string [`${x},${z}`]; two keys are the same
    string exactly when the two numbers agree, so a key is kept as the pair
    of numbers.  [Set] and [Map] iterate in insertion order: both are lists
    in that order. *)

Module Key.

Definition t : Type := (R * R)%type.

Definition eqb (a b : t) : bool :=
  if Req_dec_T (fst a) (fst b)
  then if Req_dec_T (snd a) (snd b) then true else false
  else false.

(** The key of integer grid coordinates. *)
Definition ofZ (x z : Z) : t := (IZR x, IZR z).

End Key.

Module KeySet.

Definition t : Type := list Key.t.

Definition has (s : t) (k : Key.t) : bool := existsb (Key.eqb k) s.
Definition add (s : t) (k : Key.t) : t := if has s k then s else s ++ [k].
Definition delete (s : t) (k : Key.t) : t :=
  filter (fun k' => negb (Key.eqb k k')) s.
Definition size (s : t) : Z := Z.of_nat (length s).

End KeySet.

Module KeyMap.

Definition t (A : Type) : Type := list (Key.t * A).

Definition get {A : Type} (m : t A) (k : Key.t) : option A :=
  match find (fun e => Key.eqb k (fst e)) m with
  | Some e => Some (snd e)
  | None => None
  end.

Definition has {A : Type} (m : t A) (k : Key.t) : bool :=
  existsb (fun e => Key.eqb k (fst e)) m.

Definition set {A : Type} (m : t A) (k : Key.t) (v : A) : t A :=
  if has m k
  then map (fun e => if Key.eqb k (fst e) then (fst e, v) else e) m
  else m ++ [(k, v)].

Definition delete {A : Type} (m : t A) (k : Key.t) : t A :=
  filter (fun e => negb (Key.eqb k (fst e))) m.

End KeyMap.

(** ** TerrainSystem *)

Module TerrainSystem.

Module Bounds.
Record t : Type := mk {
  center : Vec3.t;
  extents : Vec3.t;
  min : Vec3.t;
  max : Vec3.t
}.
End Bounds.

Module Buffers.
Record t : Type := mk { vertices : nat; indices : nat }.
End Buffers.

(** [Mat4.create()]: the sixteen elements of the identity. *)
Definition Mat4_create : list R :=
  [1; 0; 0; 0;  0; 1; 0; 0;  0; 0; 1; 0;  0; 0; 0; 1].

(** A chunk object.  [None] is [null]; [key] is absent ([None]) on an
    object that [generateChunk] has not filled yet. *)
Module Chunk.
Record t : Type := mk {
  x : R;
  z : R;
  lod : Z;
  worldX : R;
  worldZ : R;
  vertices : option (list R);
  indices : option (list Z);
  buffers : option Buffers.t;
  transform : option (list R);
  bounds : option Bounds.t;
  visible : bool;
  vertexCount : Z;
  indexCount : Z;
  triangleCount : Z;
  key : option Key.t
}.

(** The object literal of [getChunkFromPool]. *)
Definition blank : t :=
  mk 0 0 0 0 0 None None None None None false 0 0 0 None.
End Chunk.

Module Stats.
(** [generationTime], a wall-clock reading, is left out. *)
Record t : Type := mk {
  chunksGenerated : Z;
  chunksVisible : Z;
  trianglesRendered : Z
}.
End Stats.

Module Settings.
Record t : Type := mk {
  wireframe : bool;
  showChunkBounds : bool;
  autoLOD : bool;
  enableFrustumCulling : bool;
  enableDistanceCulling : bool
}.

(** The argument of [updateSettings]: the properties it carries. *)
Record patch : Type := mkPatch {
  p_wireframe : option bool;
  p_showChunkBounds : option bool;
  p_autoLOD : option bool;
  p_enableFrustumCulling : option bool;
  p_enableDistanceCulling : option bool;
  p_chunkSize : option Z
}.

Definition pick (new : option bool) (old : bool) : bool :=
  match new with
  | Some v => v
  | None => old
  end.

(** [Object.assign(this.settings, settings)] *)
Definition assign (s : t) (p : patch) : t :=
  mk (pick (p_wireframe p) (wireframe s))
     (pick (p_showChunkBounds p) (showChunkBounds s))
     (pick (p_autoLOD p) (autoLOD s))
     (pick (p_enableFrustumCulling p) (enableFrustumCulling s))
     (pick (p_enableDistanceCulling p) (enableDistanceCulling s)).
End Settings.

Record t : Type := mk {
  gl : GL.t;
  chunkSize : Z;
  chunkWorldSize : R;
  renderDistance : R;
  lodLevels : Z;
  heightScale : R;
  chunks : KeyMap.t Chunk.t;
  (** The pool array, last pushed first. *)
  chunkPool : list Chunk.t;
  loadedChunks : KeySet.t;
  visibleChunks : KeySet.t;
  biomeNoise : BiomeNoise.t;
  stats : Stats.t;
  settings : Settings.t
}.

Definition set_gl (s : t) (v : GL.t) : t :=
  mk v (chunkSize s) (chunkWorldSize s) (renderDistance s) (lodLevels s)
     (heightScale s) (chunks s) (chunkPool s) (loadedChunks s)
     (visibleChunks s) (biomeNoise s) (stats s) (settings s).
Definition set_chunkSize (s : t) (v : Z) : t :=
  mk (gl s) v (chunkWorldSize s) (renderDistance s) (lodLevels s)
     (heightScale s) (chunks s) (chunkPool s) (loadedChunks s)
     (visibleChunks s) (biomeNoise s) (stats s) (settings s).
Definition set_renderDistance (s : t) (v : R) : t :=
  mk (gl s) (chunkSize s) (chunkWorldSize s) v (lodLevels s)
     (heightScale s) (chunks s) (chunkPool s) (loadedChunks s)
     (visibleChunks s) (biomeNoise s) (stats s) (settings s).
Definition set_chunks (s : t) (v : KeyMap.t Chunk.t) : t :=
  mk (gl s) (chunkSize s) (chunkWorldSize s) (renderDistance s) (lodLevels s)
     (heightScale s) v (chunkPool s) (loadedChunks s)
     (visibleChunks s) (biomeNoise s) (stats s) (settings s).
Definition set_chunkPool (s : t) (v : list Chunk.t) : t :=
  mk (gl s) (chunkSize s) (chunkWorldSize s) (renderDistance s) (lodLevels s)
     (heightScale s) (chunks s) v (loadedChunks s)
     (visibleChunks s) (biomeNoise s) (stats s) (settings s).
Definition set_loadedChunks (s : t) (v : KeySet.t) : t :=
  mk (gl s) (chunkSize s) (chunkWorldSize s) (renderDistance s) (lodLevels s)
     (heightScale s) (chunks s) (chunkPool s) v
     (visibleChunks s) (biomeNoise s) (stats s) (settings s).
Definition set_visibleChunks (s : t) (v : KeySet.t) : t :=
  mk (gl s) (chunkSize s) (chunkWorldSize s) (renderDistance s) (lodLevels s)
     (heightScale s) (chunks s) (chunkPool s) (loadedChunks s)
     v (biomeNoise s) (stats s) (settings s).
Definition set_stats (s : t) (v : Stats.t) : t :=
  mk (gl s) (chunkSize s) (chunkWorldSize s) (renderDistance s) (lodLevels s)
     (heightScale s) (chunks s) (chunkPool s) (loadedChunks s)
     (visibleChunks s) (biomeNoise s) v (settings s).
Definition set_settings (s : t) (v : Settings.t) : t :=
  mk (gl s) (chunkSize s) (chunkWorldSize s) (renderDistance s) (lodLevels s)
     (heightScale s) (chunks s) (chunkPool s) (loadedChunks s)
     (visibleChunks s) (biomeNoise s) (stats s) v.

Definition getChunkKey (x z : R) : Key.t := (x, z).

(** *** The chunk pool *)

Definition getChunkFromPool (s : t) : Chunk.t * t :=
  match chunkPool s with
  | c :: rest => (c, set_chunkPool s rest)
  | [] => (Chunk.blank, s)
  end.

Definition returnChunkToPool (s : t) (chunk : Chunk.t) : t :=
  let chunk :=
    Chunk.mk (Chunk.x chunk) (Chunk.z chunk) (Chunk.lod chunk)
             (Chunk.worldX chunk) (Chunk.worldZ chunk)
             None None None
             (Chunk.transform chunk) (Chunk.bounds chunk)
             false
             (Chunk.vertexCount chunk) (Chunk.indexCount chunk)
             (Chunk.triangleCount chunk) (Chunk.key chunk) in
  set_chunkPool s (chunk :: chunkPool s).

(** *** Queries *)

Definition getBiomeAt (s : t) (x z : R) : BiomeNoise.biome :=
  BiomeNoise.getBiome (biomeNoise s) x z.

Definition getHeightAt (s : t) (x z : R) : R :=
  let biome := BiomeNoise.getBiome (biomeNoise s) x z in
  BiomeNoise.getBlendedHeight (biomeNoise s) x z biome.

(** [raycast]: the ray is sampled at the distances 0, 1, ..., 999 and
    the first sample at or below the terrain is the hit; [None] is the
    result [{ hit: false }]. *)
Module Ray.
Record t : Type := mk { origin : Vec3.t; direction : Vec3.t }.
End Ray.

Module Hit.
Record t : Type := mk { point : Vec3.t; distance : R; normal : Vec3.t }.
End Hit.

Fixpoint raycastLoop (s : t) (ray : Ray.t) (ts : list Z) : option Hit.t :=
  match ts with
  | [] => None
  | t :: rest =>
      let point :=
        Vec3.add (Ray.origin ray) (Vec3.multiply (Ray.direction ray) (IZR t)) in
      let terrainHeight := getHeightAt s (Vec3.x point) (Vec3.z point) in
      if JS.leb (Vec3.y point) terrainHeight
      then Some (Hit.mk (Vec3.mk (Vec3.x point) terrainHeight (Vec3.z point))
                        (IZR t) Vec3.up)
      else raycastLoop s ray rest
  end.

Definition raycast (s : t) (ray : Ray.t) : option Hit.t :=
  raycastLoop s ray (JS.range 0 999).

(** *** Chunk geometry *)

(** [this.biomes[biome].id] *)
Definition biomeId (b : BiomeNoise.biome) : Z :=
  match b with
  | BiomeNoise.plains => 0
  | BiomeNoise.forest => 1
  | BiomeNoise.desert => 2
  | BiomeNoise.mountain => 3
  | BiomeNoise.city => 4
  end.

(** [Math.max(8, this.chunkSize >> chunk.lod)]; [>>] wraps its left
    operand to a signed 32-bit integer, keeps the sign when shifting, and
    takes its shift count modulo 32. *)
Definition resolutionAt (s : t) (lod : Z) : Z :=
  Z.max 8 (Z.shiftr (JS.toInt32 (chunkSize s)) (Z.land lod 31)).

(** The grid positions [(x, z)] in the order of the nested loops
    [for z ... for x ...] up to [w] and [h]. *)
Definition grid (w h : nat) : list (nat * nat) :=
  flat_map (fun z => map (fun x => (x, z)) (seq 0 w)) (seq 0 h).

Definition heightfield (s : t) (worldX worldZ step : R) (resolution : nat)
  : list (list R) :=
  map (fun z =>
         map (fun x =>
                let worldPosX := worldX + INR x * step in
                let worldPosZ := worldZ + INR z * step in
                let biome := BiomeNoise.getBiome (biomeNoise s) worldPosX worldPosZ in
                BiomeNoise.getBlendedHeight (biomeNoise s) worldPosX worldPosZ biome)
             (seq 0 resolution))
      (seq 0 resolution).

Definition calculateNormal (heights : list (list R)) (x z : Z)
           (resolution : Z) (step : R) : Vec3.t :=
  let getHeight (hx hz : Z) : R :=
    let hx := Z.max 0 (Z.min (resolution - 1) hx) in
    let hz := Z.max 0 (Z.min (resolution - 1) hz) in
    nth (Z.to_nat hx) (nth (Z.to_nat hz) heights []) 0 in
  let left := getHeight (x - 1)%Z z in
  let right := getHeight (x + 1)%Z z in
  let up := getHeight x (z - 1)%Z in
  let down := getHeight x (z + 1)%Z in
  Vec3.normalize
    (Vec3.mk ((left - right) / (2 * step)) 2 ((up - down) / (2 * step))).

(** The nine numbers stored for the vertex at grid position [(x, z)]:
    position, normal, texture coordinates, biome id. *)
Definition vertexAt (s : t) (heights : list (list R)) (worldX worldZ step : R)
           (resolution : nat) (xz : nat * nat) : list R :=
  let (x, z) := xz in
  let worldPosX := worldX + INR x * step in
  let worldPosZ := worldZ + INR z * step in
  let height := nth x (nth z heights []) 0 in
  let normal :=
    calculateNormal heights (Z.of_nat x) (Z.of_nat z) (Z.of_nat resolution) step in
  let biome := BiomeNoise.getBiome (biomeNoise s) worldPosX worldPosZ in
  [worldPosX; height; worldPosZ;
   Vec3.x normal; Vec3.y normal; Vec3.z normal;
   INR x / (INR resolution - 1); INR z / (INR resolution - 1);
   IZR (biomeId biome)].

(** The six indices of the quad whose top-left vertex is at [(x, z)]. *)
Definition quadAt (resolution : nat) (xz : nat * nat) : list Z :=
  let (x, z) := xz in
  let topLeft := Z.of_nat (z * resolution + x) in
  let topRight := (topLeft + 1)%Z in
  let bottomLeft := Z.of_nat ((z + 1) * resolution + x) in
  let bottomRight := (bottomLeft + 1)%Z in
  [topLeft; bottomLeft; topRight; topRight; bottomLeft; bottomRight].

(** The value of a running minimum or maximum after the vertex loop; the
    resolution is at least 8, so the loop has run and it is finite. *)
Definition finite (m : JS.ext) : R :=
  match m with
  | Some v => v
  | None => 0
  end.

Definition generateChunkGeometry (s : t) (chunk : Chunk.t) : Chunk.t :=
  let resolution := Z.to_nat (resolutionAt s (Chunk.lod chunk)) in
  let worldX := Chunk.worldX chunk in
  let worldZ := Chunk.worldZ chunk in
  let step := chunkWorldSize s / (INR resolution - 1) in
  let heights := heightfield s worldX worldZ step resolution in
  let cells := grid resolution resolution in
  let vertexData :=
    flat_map (vertexAt s heights worldX worldZ step resolution) cells in
  let ys := map (fun xz => nth (fst xz) (nth (snd xz) heights []) 0) cells in
  let minY := finite (fold_left JS.min_ext ys None) in
  let maxY := finite (fold_left JS.max_ext ys None) in
  let indices :=
    flat_map (quadAt resolution) (grid (resolution - 1) (resolution - 1)) in
  let half := chunkWorldSize s / 2 in
  Chunk.mk (Chunk.x chunk) (Chunk.z chunk) (Chunk.lod chunk) worldX worldZ
           (Some vertexData)
           (Some (map (fun i => (i mod 65536)%Z) indices))
           (Chunk.buffers chunk)
           (Some Mat4_create)
           (Some (Bounds.mk
                    (Vec3.mk (worldX + half) ((minY + maxY) / 2) (worldZ + half))
                    (Vec3.mk half ((maxY - minY) / 2) half)
                    (Vec3.mk worldX minY worldZ)
                    (Vec3.mk (worldX + chunkWorldSize s) maxY
                             (worldZ + chunkWorldSize s))))
           (Chunk.visible chunk)
           (Z.of_nat (length cells))
           (Z.of_nat (length indices))
           (Z.of_nat (length indices) / 3)
           (Chunk.key chunk).

Definition createChunkBuffers (g : GL.t) (chunk : Chunk.t) : Chunk.t * GL.t :=
  let (vb, g) := GL.createBuffer g in
  let (ib, g) := GL.createBuffer g in
  (Chunk.mk (Chunk.x chunk) (Chunk.z chunk) (Chunk.lod chunk)
            (Chunk.worldX chunk) (Chunk.worldZ chunk)
            (Chunk.vertices chunk) (Chunk.indices chunk)
            (Some (Buffers.mk vb ib))
            (Chunk.transform chunk) (Chunk.bounds chunk) (Chunk.visible chunk)
            (Chunk.vertexCount chunk) (Chunk.indexCount chunk)
            (Chunk.triangleCount chunk) (Chunk.key chunk),
   g).

(** *** Loading and unloading *)

Definition bumpGenerated (st : Stats.t) : Stats.t :=
  Stats.mk (Stats.chunksGenerated st + 1) (Stats.chunksVisible st)
           (Stats.trianglesRendered st).

(** What [generateChunk] makes of the chunk object it got from the
    pool: the six assignments, the geometry, the GPU buffers.  The GL
    context comes back with the two buffers created. *)
Definition fillChunk (s : t) (chunk : Chunk.t) (chunkX chunkZ : R) (lod : Z)
  : Chunk.t * GL.t :=
  let key := getChunkKey chunkX chunkZ in
  let chunk :=
    Chunk.mk chunkX chunkZ lod
             (chunkX * chunkWorldSize s) (chunkZ * chunkWorldSize s)
             (Chunk.vertices chunk) (Chunk.indices chunk)
             (Chunk.buffers chunk) (Chunk.transform chunk)
             (Chunk.bounds chunk) (Chunk.visible chunk)
             (Chunk.vertexCount chunk) (Chunk.indexCount chunk)
             (Chunk.triangleCount chunk) (Some key) in
  let chunk := generateChunkGeometry s chunk in
  createChunkBuffers (gl s) chunk.

(** [generateChunk]; its return value, the chunk, is what the map holds
    under the key afterwards. *)
Definition generateChunk (s : t) (chunkX chunkZ : R) (lod : Z) : t :=
  let key := getChunkKey chunkX chunkZ in
  if KeySet.has (loadedChunks s) key then s
  else
    let (chunk, s) := getChunkFromPool s in
    let (chunk, g) := fillChunk s chunk chunkX chunkZ lod in
    let s := set_gl s g in
    let s := set_chunks s (KeyMap.set (chunks s) key chunk) in
    let s := set_loadedChunks s (KeySet.add (loadedChunks s) key) in
    set_stats s (bumpGenerated (stats s)).

Definition unloadChunk (s : t) (key : Key.t) : t :=
  match KeyMap.get (chunks s) key with
  | None => s
  | Some chunk =>
      let s :=
        match Chunk.buffers chunk with
        | Some b =>
            set_gl s (GL.deleteBuffer (GL.deleteBuffer (gl s) (Buffers.vertices b))
                                      (Buffers.indices b))
        | None => s
        end in
      let s := returnChunkToPool s chunk in
      let s := set_chunks s (KeyMap.delete (chunks s) key) in
      let s := set_loadedChunks s (KeySet.delete (loadedChunks s) key) in
      set_visibleChunks s (KeySet.delete (visibleChunks s) key)
  end.

Definition generateInitialChunks (s : t) : t :=
  let initialRadius := 2%Z in
  fold_left
    (fun s x =>
       fold_left (fun s z => generateChunk s (IZR x) (IZR z) 0)
                 (JS.range (- initialRadius) initialRadius) s)
    (JS.range (- initialRadius) initialRadius) s.

(** *** The required set *)

Record required : Type := mkRequired {
  r_x : R;
  r_z : R;
  r_lod : Z;
  r_distance : R
}.

Definition getRequiredChunks (s : t) (cameraPosition : Vec3.t) : list required :=
  let camChunkX := IZR (JS.floor (Vec3.x cameraPosition / chunkWorldSize s)) in
  let camChunkZ := IZR (JS.floor (Vec3.z cameraPosition / chunkWorldSize s)) in
  let maxDistance := renderDistance s / chunkWorldSize s in
  flat_map
    (fun x =>
       flat_map
         (fun z =>
            let distance := sqrt ((x - camChunkX) ^ 2 + (z - camChunkZ) ^ 2) in
            if JS.leb distance maxDistance
            then
              let lod :=
                if Settings.autoLOD (settings s)
                then Z.min (JS.floor (distance / (maxDistance / IZR (lodLevels s))))
                           (lodLevels s - 1)
                else 0%Z in
              [mkRequired x z lod distance]
            else [])
         (JS.range_R (camChunkZ - maxDistance) (camChunkZ + maxDistance)))
    (JS.range_R (camChunkX - maxDistance) (camChunkX + maxDistance)).

(** [for (const key of this.loadedChunks)] visits the keys in insertion
    order; the body removes at most the key being visited, so the visit
    runs over the keys held on entry. *)
Definition unloadDistantChunks (s : t) (cameraPosition : Vec3.t)
           (requiredChunks : list required) : t :=
  let requiredKeys :=
    fold_left KeySet.add
              (map (fun c => getChunkKey (r_x c) (r_z c)) requiredChunks) [] in
  fold_left
    (fun s key => if KeySet.has requiredKeys key then s else unloadChunk s key)
    (loadedChunks s) s.

(** *** Visibility *)

(** A frustum plane [[a, b, c, d]]. *)
Record plane : Type := mkPlane { p0 : R; p1 : R; p2 : R; p3 : R }.

Fixpoint isChunkInFrustum (bounds : Bounds.t) (planes : list plane) : bool :=
  match planes with
  | [] => true
  | plane :: rest =>
      let center := Bounds.center bounds in
      let extents := Bounds.extents bounds in
      let normal := Vec3.mk (p0 plane) (p1 plane) (p2 plane) in
      let distance := p3 plane in
      let positiveVertex :=
        Vec3.mk
          (if JS.geb (Vec3.x normal) 0
           then Vec3.x center + Vec3.x extents else Vec3.x center - Vec3.x extents)
          (if JS.geb (Vec3.y normal) 0
           then Vec3.y center + Vec3.y extents else Vec3.y center - Vec3.y extents)
          (if JS.geb (Vec3.z normal) 0
           then Vec3.z center + Vec3.z extents else Vec3.z center - Vec3.z extents) in
      if JS.ltb (Vec3.dot normal positiveVertex + distance) 0
      then false
      else isChunkInFrustum bounds rest
  end.

(** The visibility decided for one chunk; [None] is the TypeError of
    reading [chunk.bounds.center] on a chunk without bounds.
    [frustumPlanes] is [None] for a missing (falsy) argument. *)
Definition chunkVisibility (s : t) (cameraPosition : Vec3.t)
           (frustumPlanes : option (list plane)) (chunk : Chunk.t) : option bool :=
  let distancePass :=
    if Settings.enableDistanceCulling (settings s)
    then match Chunk.bounds chunk with
         | None => None
         | Some b =>
             let chunkCenter :=
               Vec3.mk (Chunk.worldX chunk + chunkWorldSize s / 2)
                       (Vec3.y (Bounds.center b))
                       (Chunk.worldZ chunk + chunkWorldSize s / 2) in
             let distance := Vec3.distance cameraPosition chunkCenter in
             Some (negb (JS.gtb distance (renderDistance s)))
         end
    else Some true in
  match distancePass with
  | None => None
  | Some visible =>
      match frustumPlanes with
      | Some planes =>
          if visible && Settings.enableFrustumCulling (settings s)
          then match Chunk.bounds chunk with
               | None => None
               | Some b => Some (isChunkInFrustum b planes)
               end
          else Some visible
      | None => Some visible
      end
  end.

Definition set_visible (chunk : Chunk.t) (v : bool) : Chunk.t :=
  Chunk.mk (Chunk.x chunk) (Chunk.z chunk) (Chunk.lod chunk)
           (Chunk.worldX chunk) (Chunk.worldZ chunk)
           (Chunk.vertices chunk) (Chunk.indices chunk) (Chunk.buffers chunk)
           (Chunk.transform chunk) (Chunk.bounds chunk) v
           (Chunk.vertexCount chunk) (Chunk.indexCount chunk)
           (Chunk.triangleCount chunk) (Chunk.key chunk).

(** The loop of [updateVisibility] over the entries of [this.chunks]:
    the entries with their new flag, the visible keys, and the triangle
    total. *)
Fixpoint visibilityLoop (s : t) (cameraPosition : Vec3.t)
         (frustumPlanes : option (list plane))
         (entries : list (Key.t * Chunk.t))
         (visibleKeys : KeySet.t) (triangles : Z)
  : option (list (Key.t * Chunk.t) * KeySet.t * Z) :=
  match entries with
  | [] => Some ([], visibleKeys, triangles)
  | (key, chunk) :: rest =>
      match chunkVisibility s cameraPosition frustumPlanes chunk with
      | None => None
      | Some visible =>
          let visibleKeys :=
            if visible then KeySet.add visibleKeys key else visibleKeys in
          let triangles :=
            if visible then (triangles + Chunk.triangleCount chunk)%Z
            else triangles in
          match visibilityLoop s cameraPosition frustumPlanes rest
                               visibleKeys triangles with
          | None => None
          | Some (done, keys, total) =>
              Some ((key, set_visible chunk visible) :: done, keys, total)
          end
      end
  end.

Definition updateVisibility (s : t) (cameraPosition : Vec3.t)
           (frustumPlanes : option (list plane)) : option t :=
  match visibilityLoop s cameraPosition frustumPlanes (chunks s) [] 0 with
  | None => None
  | Some (entries, keys, triangles) =>
      let s := set_chunks s entries in
      let s := set_visibleChunks s keys in
      Some (set_stats s (Stats.mk (Stats.chunksGenerated (stats s))
                                  (Stats.chunksVisible (stats s))
                                  triangles))
  end.

(** *** update *)

Definition loadNewChunks (s : t) (requiredChunks : list required) : t :=
  fold_left
    (fun s c =>
       let key := getChunkKey (r_x c) (r_z c) in
       if KeySet.has (loadedChunks s) key then s
       else generateChunk s (r_x c) (r_z c) (r_lod c))
    requiredChunks s.

Definition update (s : t) (cameraPosition : Vec3.t)
           (frustumPlanes : option (list plane)) : option t :=
  let requiredChunks := getRequiredChunks s cameraPosition in
  let s := unloadDistantChunks s cameraPosition requiredChunks in
  let s := loadNewChunks s requiredChunks in
  match updateVisibility s cameraPosition frustumPlanes with
  | None => None
  | Some s =>
      Some (set_stats s (Stats.mk (Stats.chunksGenerated (stats s))
                                  (KeySet.size (visibleChunks s))
                                  (Stats.trianglesRendered (stats s))))
  end.

(** *** Construction, settings, teardown *)

Definition new (g : GL.t) : t :=
  generateInitialChunks
    (mk g 128 500 2000 4 100 [] [] [] []
        (BiomeNoise.new 12345)
        (Stats.mk 0 0 0)
        (Settings.mk false false true true true)).

Definition unloadAll (s : t) : t := fold_left unloadChunk (loadedChunks s) s.

Definition regenerateAllChunks (s : t) : t :=
  generateInitialChunks (unloadAll s).

Definition updateSettings (s : t) (p : Settings.patch) : t :=
  let s := set_settings s (Settings.assign (settings s) p) in
  match Settings.p_chunkSize p with
  | Some size =>
      if negb (size =? 0)%Z && negb (size =? chunkSize s)%Z
      then regenerateAllChunks (set_chunkSize s size)
      else s
  | None => s
  end.

Definition destroy (s : t) : t :=
  let s := unloadAll s in
  let s := set_chunks s [] in
  let s := set_loadedChunks s [] in
  let s := set_visibleChunks s [] in
  set_chunkPool s [].

(** *** The states a terrain object passes through

    One step is one call of a method of the object, or the assignment
    [terrain.renderDistance = v] that the settings screen makes.  The
    two queries assign nothing: the object is the same after the call. *)
Inductive step : t -> t -> Prop :=
| step_getHeightAt : forall s (x z : R), step s s
| step_getBiomeAt : forall s (x z : R), step s s
| step_update : forall s cameraPosition frustumPlanes s',
    update s cameraPosition frustumPlanes = Some s' -> step s s'
| step_generateChunk : forall s x z lod,
    step s (generateChunk s x z lod)
| step_unloadChunk : forall s key,
    step s (unloadChunk s key)
| step_updateSettings : forall s p,
    step s (updateSettings s p)
| step_regenerateAllChunks : forall s,
    step s (regenerateAllChunks s)
| step_destroy : forall s,
    step s (destroy s)
| step_renderDistance : forall s v,
    step s (set_renderDistance s v).

Inductive reachable : t -> Prop :=
| reachable_new : forall g, reachable (new g)
| reachable_step : forall s s', reachable s -> step s s' -> reachable s'.

End TerrainSystem.

(** ** Vocabulary of the streaming properties *)

Module TerrainSpec.

Import TerrainSystem.

(** The chunk coordinates of the anchor. *)
Definition camChunkX (s : t) (anchor : Vec3.t) : R :=
  IZR (JS.floor (Vec3.x anchor / chunkWorldSize s)).
Definition camChunkZ (s : t) (anchor : Vec3.t) : R :=
  IZR (JS.floor (Vec3.z anchor / chunkWorldSize s)).

(** The render distance in chunks. *)
Definition maxDistance (s : t) : R := renderDistance s / chunkWorldSize s.

(** The distance of a key from the anchor's chunk, in chunks. *)
Definition gridDistance (s : t) (anchor : Vec3.t) (k : Key.t) : R :=
  sqrt ((fst k - camChunkX s anchor) ^ 2 + (snd k - camChunkZ s anchor) ^ 2).

(** The chunk grid around an anchor: the coordinates a whole number of
    chunks away from the corner of the render square.  When the render
    distance is a whole number of chunks these are the integer
    coordinates ([integer_keys_on_grid]). *)
Definition onGrid (s : t) (anchor : Vec3.t) (k : Key.t) : Prop :=
  (exists i : Z, fst k = camChunkX s anchor - maxDistance s + IZR i) /\
  (exists j : Z, snd k = camChunkZ s anchor - maxDistance s + IZR j).

(** The level of detail the distance-bucket formula gives a key. *)
Definition lodFormula (s : t) (anchor : Vec3.t) (k : Key.t) : Z :=
  Z.min (JS.floor (gridDistance s anchor k
                   / (maxDistance s / IZR (lodLevels s))))
        (lodLevels s - 1).

(** The registry is consistent: the map and the set hold the same keys
    in the same order, once each, and every chunk held has its bounds. *)
Definition consistent (s : t) : Prop :=
  map fst (chunks s) = loadedChunks s /\
  NoDup (loadedChunks s) /\
  Forall (fun e => Chunk.bounds (snd e) <> None) (chunks s).

(** Two states agree on everything but the registry, the pool, the
    statistics and the GL context. *)
Definition sameSetup (s s' : t) : Prop :=
  chunkSize s' = chunkSize s /\
  chunkWorldSize s' = chunkWorldSize s /\
  renderDistance s' = renderDistance s /\
  lodLevels s' = lodLevels s /\
  biomeNoise s' = biomeNoise s /\
  settings s' = settings s.

(** A chunk as [returnChunkToPool] leaves it: no geometry arrays, no
    buffer handles, not visible. *)
Definition released (c : Chunk.t) : Prop :=
  Chunk.vertices c = None /\ Chunk.indices c = None /\
  Chunk.buffers c = None /\ Chunk.visible c = false.

(** Every chunk waiting in the pool is released. *)
Definition hygienic (s : t) : Prop := Forall released (chunkPool s).

(** What no method and no settings screen changes: the world size of a
    chunk, the number of levels, and the noise. *)
Definition founded (s : t) : Prop :=
  chunkWorldSize s = 500 /\ lodLevels s = 4%Z /\
  biomeNoise s = BiomeNoise.new 12345.

(** The keys of the required set of an update. *)
Definition requiredKeys (s : t) (anchor : Vec3.t) : list Key.t :=
  map (fun c => getChunkKey (r_x c) (r_z c)) (getRequiredChunks s anchor).

Definition origin : Vec3.t := Vec3.mk 0 0 0.

End TerrainSpec.

(** ** Vocabulary of the chunk and buffer properties *)

Module ChunkSpec.

Import TerrainSystem.

(** A registry entry is in order: the chunk carries the key it is
    stored under, its coordinates are those of the key, its world
    position is its coordinates times the chunk world size, it has its
    geometry arrays, GPU buffers and transform, and its visibility flag
    says whether its key is in the visible set. *)
Definition inOrder (s : t) (e : Key.t * Chunk.t) : Prop :=
  Chunk.key (snd e) = Some (fst e) /\
  fst e = (Chunk.x (snd e), Chunk.z (snd e)) /\
  Chunk.worldX (snd e) = Chunk.x (snd e) * chunkWorldSize s /\
  Chunk.worldZ (snd e) = Chunk.z (snd e) * chunkWorldSize s /\
  Chunk.vertices (snd e) <> None /\
  Chunk.indices (snd e) <> None /\
  Chunk.buffers (snd e) <> None /\
  Chunk.transform (snd e) <> None /\
  (Chunk.visible (snd e) = true <-> In (fst e) (visibleChunks s)).

Definition sound (s : t) : Prop :=
  Forall (inOrder s) (chunks s) /\
  incl (visibleChunks s) (loadedChunks s).

(** The buffer handles a chunk holds, and those all the loaded chunks
    hold. *)
Definition handles (c : Chunk.t) : list nat :=
  match Chunk.buffers c with
  | Some b => [Buffers.vertices b; Buffers.indices b]
  | None => []
  end.

Definition held (s : t) : list nat :=
  flat_map (fun e => handles (snd e)) (chunks s).

(** A context whose counter is ahead of every handle it has live, each
    once. *)
Definition wellFormed (g : GL.t) : Prop :=
  NoDup (GL.live g) /\ Forall (fun h => (h < GL.next g)%nat) (GL.live g).

(** The states a terrain object built on the context [g] passes
    through. *)
Inductive reachableFrom (g : GL.t) : t -> Prop :=
| from_new : reachableFrom g (new g)
| from_step : forall s s', reachableFrom g s -> step s s' -> reachableFrom g s'.

(** The buffers are accounted for: the live handles are those that
    were live before the terrain was built and those the loaded chunks
    hold, the latter all created after the former and held once. *)
Definition accounted (g : GL.t) (s : t) : Prop :=
  (GL.next g <= GL.next (gl s))%nat /\
  NoDup (held s) /\
  Forall (fun h => (GL.next g <= h < GL.next (gl s))%nat) (held s) /\
  (forall h, In h (GL.live (gl s)) <-> In h (GL.live g) \/ In h (held s)).

End ChunkSpec.

(** * Properties *)

(** ** Comparisons *)

Lemma ltb_true (a b : R) : JS.ltb a b = true <-> a < b.
Proof. unfold JS.ltb; destruct (Rlt_dec a b); split; intros; try discriminate; tauto. Qed.

Lemma ltb_false (a b : R) : JS.ltb a b = false <-> b <= a.
Proof.
  unfold JS.ltb; destruct (Rlt_dec a b); split; intros; try discriminate; try lra; auto.
Qed.

Lemma leb_true (a b : R) : JS.leb a b = true <-> a <= b.
Proof. unfold JS.leb; destruct (Rle_dec a b); split; intros; try discriminate; tauto. Qed.

Lemma leb_false (a b : R) : JS.leb a b = false <-> b < a.
Proof.
  unfold JS.leb; destruct (Rle_dec a b); split; intros; try discriminate; try lra; auto.
Qed.

Lemma gtb_true (a b : R) : JS.gtb a b = true <-> a > b.
Proof. unfold JS.gtb; rewrite ltb_true; lra. Qed.

Lemma gtb_false (a b : R) : JS.gtb a b = false <-> a <= b.
Proof. unfold JS.gtb; rewrite ltb_false; lra. Qed.

Lemma Rabs_le_inv (a b : R) : Rabs a <= b -> - b <= a <= b.
Proof. unfold Rabs; destruct (Rcase_abs a); lra. Qed.

Lemma floor_spec (r : R) : IZR (JS.floor r) <= r < IZR (JS.floor r) + 1.
Proof. unfold JS.floor; destruct (base_Int_part r); lra. Qed.

Lemma floor_unique (r : R) (k : Z) : IZR k <= r < IZR k + 1 -> JS.floor r = k.
Proof.
  intros H; unfold JS.floor; symmetry; apply Int_part_spec; lra.
Qed.

Lemma floor_IZR (k : Z) : JS.floor (IZR k) = k.
Proof. apply floor_unique; lra. Qed.

Lemma floor_nonneg (r : R) : 0 <= r -> (0 <= JS.floor r)%Z.
Proof.
  intros H. destruct (floor_spec r) as [_ Hu].
  apply Z.lt_succ_r. apply lt_IZR. rewrite succ_IZR. lra.
Qed.

(** ** The noise field *)

Section NoiseRange.

Import NoiseGenerator.

Lemma fade_nonneg (t : R) : 0 <= t <= 1 -> 0 <= fade t.
Proof.
  intros [H0 H1]; unfold fade.
  assert (Hq : 0 < t * (t * 6 - 15) + 10) by nra.
  assert (Ht : 0 <= t * t * t).
  { apply Rmult_le_pos; [apply Rmult_le_pos|]; assumption. }
  apply Rmult_le_pos; lra.
Qed.

Lemma fade_mirror (t : R) : fade (1 - t) = 1 - fade t.
Proof. unfold fade; ring. Qed.

Lemma fade_le_1 (t : R) : 0 <= t <= 1 -> fade t <= 1.
Proof.
  intros H. assert (H' : 0 <= fade (1 - t)) by (apply fade_nonneg; lra).
  rewrite fade_mirror in H'. lra.
Qed.

(** The quintic fade curve pulls [t] toward the nearer end of the cell
    by so much that the interpolated distance to the two ends never
    exceeds one half. *)
Lemma fade_half (t : R) :
  0 <= t <= 1 -> (1 - fade t) * t + fade t * (1 - t) <= 1 / 2.
Proof.
  intros [H0 H1].
  assert (Hq : 0 <= 6 * (t * (1 - t)) * (t * (1 - t)) + 2 * (t * (1 - t)) + 1).
  { assert (Hw : 0 <= t * (1 - t)) by (apply Rmult_le_pos; lra).
    pose proof (Rle_0_sqr (t * (1 - t))) as Hw2. unfold Rsqr in Hw2. lra. }
  assert (Hs : 0 <= (t - 1 / 2) * (t - 1 / 2)) by apply Rle_0_sqr.
  replace ((1 - fade t) * t + fade t * (1 - t))
    with (1 / 2 - 2 * ((t - 1 / 2) * (t - 1 / 2)) *
                  (6 * (t * (1 - t)) * (t * (1 - t)) + 2 * (t * (1 - t)) + 1))
    by (unfold fade; field).
  assert (0 <= (t - 1 / 2) * (t - 1 / 2) *
               (6 * (t * (1 - t)) * (t * (1 - t)) + 2 * (t * (1 - t)) + 1))
    by (apply Rmult_le_pos; assumption).
  lra.
Qed.

Lemma land3_cases (hash : Z) :
  Z.land hash 3 = 0%Z \/ Z.land hash 3 = 1%Z \/
  Z.land hash 3 = 2%Z \/ Z.land hash 3 = 3%Z.
Proof.
  assert (E : Z.land hash 3 = (hash mod 4)%Z).
  { change 3%Z with (Z.ones 2). rewrite Z.land_ones by lia. reflexivity. }
  rewrite E. pose proof (Z.mod_pos_bound hash 4). lia.
Qed.

(** Every gradient the hash can select has components [1] or [-1]. *)
Lemma grad_abs (hash : Z) (x y : R) : Rabs (grad hash x y) <= Rabs x + Rabs y.
Proof.
  unfold grad.
  destruct (land3_cases hash) as [E | [E | [E | E]]]; rewrite E; simpl;
    unfold Rabs; repeat destruct Rcase_abs; lra.
Qed.

Lemma lerp_abs (a b A B t : R) :
  0 <= t <= 1 -> Rabs a <= A -> Rabs b <= B ->
  Rabs (lerp a b t) <= (1 - t) * A + t * B.
Proof.
  intros [H0 H1] Ha Hb. unfold lerp.
  replace (a + t * (b - a)) with ((1 - t) * a + t * b) by ring.
  eapply Rle_trans; [apply Rabs_triang|].
  rewrite !Rabs_mult.
  rewrite (Rabs_pos_eq (1 - t)) by lra. rewrite (Rabs_pos_eq t) by lra.
  apply Rplus_le_compat; apply Rmult_le_compat_l; lra.
Qed.

Lemma perlin2D_abs (g : t) (x y : R) : Rabs (perlin2D g x y) <= 1.
Proof.
  unfold perlin2D.
  set (fx := x - IZR (JS.floor x)). set (fy := y - IZR (JS.floor y)).
  assert (Hx : 0 <= fx < 1) by (unfold fx; pose proof (floor_spec x); lra).
  assert (Hy : 0 <= fy < 1) by (unfold fy; pose proof (floor_spec y); lra).
  assert (Hu : 0 <= fade fx <= 1) by (split; [apply fade_nonneg | apply fade_le_1]; lra).
  assert (Hv : 0 <= fade fy <= 1) by (split; [apply fade_nonneg | apply fade_le_1]; lra).
  match goal with
  | |- Rabs (lerp (lerp (grad ?h00 _ _) (grad ?h10 _ _) _)
                  (lerp (grad ?h01 _ _) (grad ?h11 _ _) _) _) <= _ =>
      pose proof (grad_abs h00 fx fy) as G00;
      pose proof (grad_abs h10 (fx - 1) fy) as G10;
      pose proof (grad_abs h01 fx (fy - 1)) as G01;
      pose proof (grad_abs h11 (fx - 1) (fy - 1)) as G11
  end.
  rewrite (Rabs_pos_eq fx) in G00, G01 by lra.
  rewrite (Rabs_pos_eq fy) in G00, G10 by lra.
  rewrite (Rabs_left1 (fx - 1)) in G10, G11 by lra.
  rewrite (Rabs_left1 (fy - 1)) in G01, G11 by lra.
  eapply Rle_trans.
  { apply lerp_abs; [exact Hv | apply lerp_abs; [exact Hu | exact G00 | exact G10]
                             | apply lerp_abs; [exact Hu | exact G01 | exact G11]]. }
  pose proof (fade_half fx ltac:(lra)) as Fx.
  pose proof (fade_half fy ltac:(lra)) as Fy.
  replace ((1 - fade fy) *
           ((1 - fade fx) * (fx + fy) + fade fx * (- (fx - 1) + fy)) +
           fade fy *
           ((1 - fade fx) * (fx + - (fy - 1)) + fade fx * (- (fx - 1) + - (fy - 1))))
    with (((1 - fade fx) * fx + fade fx * (1 - fx)) +
          ((1 - fade fy) * fy + fade fy * (1 - fy))) by ring.
  lra.
Qed.

(** *** The octave loops *)

Lemma octaves_loop_amplitude (shape : R -> R) (g : t) (x y p : R) (n : nat) (a : acc) :
  0 < p -> 0 < amplitude a ->
  0 < amplitude (octaves_loop shape g x y p n a).
Proof.
  intros Hp. revert a. induction n as [|n IH]; intros a Ha; simpl; [assumption|].
  apply IH; simpl. apply Rmult_lt_0_compat; assumption.
Qed.

(** The normaliser grows by one positive amplitude per octave. *)
Lemma octaves_loop_maxValue (shape : R -> R) (g : t) (x y p : R) (n : nat) (a : acc) :
  0 < p -> 0 < amplitude a -> (1 <= n)%nat ->
  maxValue a < maxValue (octaves_loop shape g x y p n a).
Proof.
  intros Hp. revert a. induction n as [|n IH]; intros a Ha Hn; [lia|].
  simpl. destruct n as [|n].
  - simpl. lra.
  - eapply Rlt_trans; [| apply IH; simpl; [nra | lia]]. simpl. lra.
Qed.

(** Samples bounded below by [lo] keep the running sum above [lo] times
    the normaliser. *)
Lemma octaves_loop_lower (shape : R -> R) (lo : R) (g : t) (x y p : R) (n : nat) (a : acc) :
  (forall r, Rabs r <= 1 -> lo <= shape r) ->
  0 < p -> 0 < amplitude a ->
  lo * maxValue a <= value a ->
  lo * maxValue (octaves_loop shape g x y p n a)
  <= value (octaves_loop shape g x y p n a).
Proof.
  intros Hs Hp. revert a. induction n as [|n IH]; intros a Ha Hv; simpl; [assumption|].
  apply IH; simpl; [nra|].
  pose proof (Hs _ (perlin2D_abs g (x * frequency a) (y * frequency a))). nra.
Qed.

Lemma octaves_loop_upper (shape : R -> R) (hi : R) (g : t) (x y p : R) (n : nat) (a : acc) :
  (forall r, Rabs r <= 1 -> shape r <= hi) ->
  0 < p -> 0 < amplitude a ->
  value a <= hi * maxValue a ->
  value (octaves_loop shape g x y p n a)
  <= hi * maxValue (octaves_loop shape g x y p n a).
Proof.
  intros Hs Hp. revert a. induction n as [|n IH]; intros a Ha Hv; simpl; [assumption|].
  apply IH; simpl; [nra|].
  pose proof (Hs _ (perlin2D_abs g (x * frequency a) (y * frequency a))). nra.
Qed.

Lemma start_maxValue_pos (shape : R -> R) (g : t) (x y p scale : R) (n : nat) :
  0 < p -> (1 <= n)%nat ->
  0 < maxValue (octaves_loop shape g x y p n (start scale)).
Proof.
  intros Hp Hn.
  pose proof (octaves_loop_maxValue shape g x y p n (start scale) Hp) as H.
  simpl in H. apply H; [lra | assumption].
Qed.

(** [octaveNoise2D] is the amplitude-weighted sum of the samples at
    doubling frequency, divided by the sum of the amplitudes. *)
Lemma octaves_loop_closed_form (g : t) (x y p scale : R) (n k : nat) :
  octaves_loop (fun v => v) g x y p n
    (mkAcc (weightedSum g x y p scale k) (p ^ k) (scale * 2 ^ k) (amplitudeSum p k))
  = mkAcc (weightedSum g x y p scale (k + n)) (p ^ (k + n)) (scale * 2 ^ (k + n))
          (amplitudeSum p (k + n)).
Proof.
  revert k. induction n as [|n IH]; intros k.
  - rewrite Nat.add_0_r. reflexivity.
  - cbn [octaves_loop value amplitude frequency maxValue].
    replace (k + S n)%nat with (S k + n)%nat by lia.
    rewrite <- IH. cbn [weightedSum amplitudeSum pow]. f_equal. f_equal; ring.
Qed.

Lemma octaveNoise2D_closed_form (g : t) (x y : R) (octaves : nat) (p scale : R) :
  octaveNoise2D g x y octaves p scale
  = weightedSum g x y p scale octaves / amplitudeSum p octaves.
Proof.
  unfold octaveNoise2D, start.
  pose proof (octaves_loop_closed_form g x y p scale octaves 0) as H.
  cbn [weightedSum amplitudeSum pow Nat.add] in H.
  replace (scale * 1) with scale in H by ring.
  rewrite H. reflexivity.
Qed.

Lemma quotient_lower (lo v m : R) : 0 < m -> lo * m <= v -> lo <= v / m.
Proof.
  intros Hm H. apply Rmult_le_reg_r with m; [assumption|].
  unfold Rdiv. rewrite Rmult_assoc, Rinv_l by lra. lra.
Qed.

Lemma quotient_upper (hi v m : R) : 0 < m -> v <= hi * m -> v / m <= hi.
Proof.
  intros Hm H. apply Rmult_le_reg_r with m; [assumption|].
  unfold Rdiv. rewrite Rmult_assoc, Rinv_l by lra. lra.
Qed.

End NoiseRange.

(** C6.  The base sample [perlin2D] lies in [-1, 1] at every input; and
    for at least one octave and a positive persistence, whatever the
    scale, [octaveNoise2D] is the amplitude-weighted sum of the samples
    at doubling frequency divided by the sum of the amplitudes, and lies
    in [-1, 1] too. *)
Theorem noise_range (g : NoiseGenerator.t) (x y : R) :
  -1 <= NoiseGenerator.perlin2D g x y <= 1 /\
  forall (octaves : nat) (persistence scale : R),
    (1 <= octaves)%nat -> 0 < persistence ->
    NoiseGenerator.octaveNoise2D g x y octaves persistence scale
    = NoiseGenerator.weightedSum g x y persistence scale octaves
      / NoiseGenerator.amplitudeSum persistence octaves /\
    -1 <= NoiseGenerator.octaveNoise2D g x y octaves persistence scale <= 1.
Proof.
  split.
  - pose proof (perlin2D_abs g x y) as H. apply Rabs_le_inv in H. lra.
  - intros octaves p scale Hn Hp.
    split; [apply octaveNoise2D_closed_form|].
    unfold NoiseGenerator.octaveNoise2D.
    pose proof (start_maxValue_pos (fun n => n) g x y p scale octaves Hp Hn) as Hm.
    split.
    + apply quotient_lower; [assumption|].
      apply octaves_loop_lower; simpl; try lra.
      intros r Hr. apply Rabs_le_inv in Hr. lra.
    + apply quotient_upper; [assumption|].
      apply octaves_loop_upper; simpl; try lra.
      intros r Hr. apply Rabs_le_inv in Hr. lra.
Qed.

Lemma noise_range_witness :
  -1 <= NoiseGenerator.perlin2D (NoiseGenerator.new 12345) 0 0 <= 1 /\
  -1 <= NoiseGenerator.octaveNoise2D (NoiseGenerator.new 12345) 0 0 3 0.6 1 <= 1.
Proof.
  destruct (noise_range (NoiseGenerator.new 12345) 0 0) as [H1 H2].
  split; [exact H1 | apply H2; [lia | lra]].
Defined.

(** C10.  [ridgedNoise2D] and [billow2D] never return a negative value,
    for at least one octave and a positive persistence. *)
Theorem ridged_billow_nonneg
        (g : NoiseGenerator.t) (x y : R) (octaves : nat) (persistence scale : R) :
  (1 <= octaves)%nat -> 0 < persistence ->
  0 <= NoiseGenerator.ridgedNoise2D g x y octaves persistence scale /\
  0 <= NoiseGenerator.billow2D g x y octaves persistence scale.
Proof.
  intros Hn Hp. unfold NoiseGenerator.ridgedNoise2D, NoiseGenerator.billow2D. split.
  - apply quotient_lower; [apply start_maxValue_pos; assumption|].
    apply octaves_loop_lower; simpl; try lra.
    intros r _. cbv zeta. apply Rle_0_sqr.
  - apply quotient_lower; [apply start_maxValue_pos; assumption|].
    apply octaves_loop_lower; simpl; try lra.
    intros r _. apply Rabs_pos.
Qed.

Lemma ridged_billow_nonneg_witness :
  0 <= NoiseGenerator.ridgedNoise2D (NoiseGenerator.new 12345) 0 0 4 0.4 1 /\
  0 <= NoiseGenerator.billow2D (NoiseGenerator.new 12345) 0 0 4 0.4 1.
Proof.
  apply (ridged_billow_nonneg (NoiseGenerator.new 12345) 0 0 4 0.4 1); [lia | lra].
Defined.

(** ** The permutation table *)

Section Permutation.

Import NoiseGenerator.

Lemma set_length {A : Type} (a : list A) (i : nat) (v : A) :
  length (JS.set a i v) = length a.
Proof.
  revert i; induction a as [|h a IH]; intros [|i]; simpl; auto.
Qed.

Lemma set_Forall {A : Type} (P : A -> Prop) (a : list A) (i : nat) (v : A) :
  P v -> Forall P a -> Forall P (JS.set a i v).
Proof.
  intros Hv. revert i; induction a as [|h a IH]; intros [|i] Ha; simpl;
    inversion Ha; subst; auto.
Qed.

Lemma nth_entry (p : list Z) (i : nat) : Forall entry p -> entry (nth i p 0%Z).
Proof.
  intros Hp. destruct (Nat.lt_ge_cases i (length p)) as [Hi | Hi].
  - rewrite Forall_forall in Hp. apply Hp, nth_In, Hi.
  - rewrite nth_overflow by assumption. unfold entry; lia.
Qed.

Lemma swap_length (p : list Z) (i j : nat) : length (swap p i j) = length p.
Proof. unfold swap. rewrite !set_length. reflexivity. Qed.

Lemma swap_Forall (p : list Z) (i j : nat) :
  Forall entry p -> Forall entry (swap p i j).
Proof.
  intros Hp. unfold swap. apply set_Forall; [apply nth_entry, Hp|].
  apply set_Forall; [apply nth_entry, Hp | exact Hp].
Qed.

Lemma shuffle_length (i : nat) (state : Z) (p : list Z) :
  length (shuffle i state p) = length p.
Proof.
  revert state p; induction i as [|i IH]; intros state p; [reflexivity|].
  cbn [shuffle]. unfold random. rewrite IH. apply swap_length.
Qed.

Lemma shuffle_Forall (i : nat) (state : Z) (p : list Z) :
  Forall entry p -> Forall entry (shuffle i state p).
Proof.
  revert state p; induction i as [|i IH]; intros state p Hp; [exact Hp|].
  cbn [shuffle]. unfold random. apply IH, swap_Forall, Hp.
Qed.

Lemma identity_Forall (n : nat) :
  (n <= 256)%nat -> Forall entry (map Z.of_nat (seq 0 n)).
Proof.
  intros Hn. rewrite Forall_forall. intros v Hv.
  apply in_map_iff in Hv. destruct Hv as [k [<- Hk]].
  apply in_seq in Hk. unfold entry; lia.
Qed.

(** The table built by the constructor has 512 entries, each below 256. *)
Lemma generatePermutation_table (seed : Z) :
  length (generatePermutation seed) = 512%nat /\
  Forall entry (generatePermutation seed).
Proof.
  unfold generatePermutation. split.
  - rewrite length_app, shuffle_length, length_map, length_seq. reflexivity.
  - apply Forall_app; split; apply shuffle_Forall, identity_Forall; lia.
Qed.

Lemma perm_entry (seed : Z) (i : Z) : entry (perm (new seed) i).
Proof.
  unfold perm. apply nth_entry. apply generatePermutation_table.
Qed.

Lemma land255 (v : Z) : (0 <= Z.land v 255 < 256)%Z.
Proof.
  change 255%Z with (Z.ones 8). rewrite Z.land_ones by lia.
  apply Z.mod_pos_bound. reflexivity.
Qed.

(** Every read of the table that [perlin2D] makes on a constructed
    generator is inside the table. *)
Lemma perlin2D_indices_in_range (seed : Z) (x y : R) :
  Forall (fun i => (0 <= i < Z.of_nat (length (permutation (new seed))))%Z)
         (perlin2D_indices (new seed) x y).
Proof.
  destruct (generatePermutation_table seed) as [Hlen _].
  cbn [permutation new]. rewrite Hlen.
  unfold perlin2D_indices.
  pose proof (land255 (JS.floor x)) as HX.
  pose proof (land255 (JS.floor y)) as HY.
  pose proof (perm_entry seed) as Hp. unfold entry in Hp.
  repeat (apply Forall_cons || apply Forall_nil);
    repeat match goal with
           | |- context [perm (new seed) ?i] =>
               lazymatch goal with
               | H : (0 <= perm (new seed) i < 256)%Z |- _ => fail
               | _ => pose proof (Hp i)
               end
           end; lia.
Qed.

End Permutation.

(** ** Biome classification *)

Section Classification.

Import BiomeNoise.

Lemma andb_ltb_gtb (a b c d : R) :
  JS.ltb a b && JS.gtb c d = true <-> a < b /\ c > d.
Proof. rewrite andb_true_iff, ltb_true, gtb_true. tauto. Qed.

Lemma andb_gtb_gtb (a b c d : R) :
  JS.gtb a b && JS.gtb c d = true <-> a > b /\ c > d.
Proof. rewrite andb_true_iff, !gtb_true. tauto. Qed.

Lemma andb_ltb_ltb (a b c d : R) :
  JS.ltb a b && JS.ltb c d = true <-> a < b /\ c < d.
Proof. rewrite andb_true_iff, !ltb_true. tauto. Qed.

Lemma channels_of_new (seed : Z) (x z : R) :
  getTemperature (new seed) x z = BiomeRule.temperatureChannel seed x z /\
  getHumidity (new seed) x z = BiomeRule.humidityChannel seed x z /\
  getElevation (new seed) x z = BiomeRule.elevationChannel seed x z.
Proof. repeat split. Qed.

End Classification.

(** C2.  The biome [getBiome] returns at [(x, z)] is the one the priority
    rule selects from the temperature, humidity and elevation channels
    seeded base, base + 1000 and base + 2000. *)
Theorem getBiome_priority_rule (seed : Z) (x z : R) (b : BiomeNoise.biome) :
  BiomeNoise.getBiome (BiomeNoise.new seed) x z = b <->
  BiomeRule.classifies seed x z b.
Proof.
  unfold BiomeRule.classifies, BiomeNoise.getBiome.
  destruct (channels_of_new seed x z) as [-> [-> ->]].
  set (temp := BiomeRule.temperatureChannel seed x z).
  set (hum := BiomeRule.humidityChannel seed x z).
  set (elev := BiomeRule.elevationChannel seed x z).
  cbn [BiomeRule.rules BiomeRule.firstMatch].
  destruct (JS.gtb elev 0.6) eqn:E1.
  { apply gtb_true in E1. split; [intros <-; left; auto|].
    intros [[_ ->] | [N _]]; [reflexivity | contradiction]. }
  apply gtb_false in E1.
  destruct (JS.ltb temp (-0.3)) eqn:E2.
  { apply ltb_true in E2. split; [intros <-; right; split; [lra | left; auto]|].
    intros [[C _] | [_ [[_ ->] | [N _]]]]; [lra | reflexivity | contradiction]. }
  apply ltb_false in E2.
  destruct (JS.ltb hum (-0.3) && JS.gtb temp 0.2) eqn:E3.
  { apply andb_ltb_gtb in E3.
    split; [intros <-; right; split; [lra | right; split; [lra | left; auto]]|].
    intros [[C _] | [_ [[C _] | [_ [[_ ->] | [N _]]]]]];
      [lra | lra | reflexivity | contradiction]. }
  assert (N3 : ~ (hum < -0.3 /\ temp > 0.2))
    by (intros C; apply andb_ltb_gtb in C; congruence).
  destruct (JS.gtb hum 0.4 && JS.gtb temp (-0.1)) eqn:E4.
  { apply andb_gtb_gtb in E4.
    split; [intros <-; right; split; [lra | right; split; [lra | right; split;
              [exact N3 | left; auto]]]|].
    intros [[C _] | [_ [[C _] | [_ [[C _] | [_ [[_ ->] | [N _]]]]]]]];
      [lra | lra | contradiction | reflexivity | contradiction]. }
  assert (N4 : ~ (hum > 0.4 /\ temp > -0.1))
    by (intros C; apply andb_gtb_gtb in C; congruence).
  destruct (JS.ltb elev 0.1 && JS.ltb (Rabs temp) 0.3) eqn:E5.
  { apply andb_ltb_ltb in E5.
    split; [intros <-; right; split; [lra | right; split; [lra | right; split;
              [exact N3 | right; split; [exact N4 | left; auto]]]]|].
    intros [[C _] | [_ [[C _] | [_ [[C _] | [_ [[C _] | [_ [[_ ->] | [N _]]]]]]]]]];
      [lra | lra | contradiction | contradiction | reflexivity | contradiction]. }
  assert (N5 : ~ (elev < 0.1 /\ Rabs temp < 0.3))
    by (intros C; apply andb_ltb_ltb in C; congruence).
  split; [intros <-; right; split; [lra | right; split; [lra | right; split;
            [exact N3 | right; split; [exact N4 | right; split; [exact N5 | reflexivity]]]]]|].
  intros [[C _] | [_ [[C _] | [_ [[C _] | [_ [[C _] | [_ [[C _] | [_ ->]]]]]]]]]];
    [lra | lra | contradiction | contradiction | contradiction | reflexivity].
Qed.

(** ** The spline *)

Section Spline.

Import CatmullRomSpline.

Lemma get_in_range {A : Type} (l : list A) (i : Z) :
  (0 <= i < Z.of_nat (length l))%Z -> exists a, JS.get l i = Some a /\ In a l.
Proof.
  intros [H0 H1]. unfold JS.get.
  destruct (Z.ltb_spec i 0) as [Hneg | _]; [lia|].
  destruct (nth_error l (Z.to_nat i)) as [a|] eqn:E.
  - exists a. split; [reflexivity | eapply nth_error_In; eassumption].
  - apply nth_error_None in E. lia.
Qed.

Lemma controlPoints_in_range (s : t) (segment : Z) :
  (0 <= segment)%Z -> (segment + 1 < Z.of_nat (length (points s)))%Z ->
  exists p0 p1 p2 p3,
    controlPoints s segment = Some (p0, p1, p2, p3) /\
    In p0 (points s) /\ In p1 (points s) /\ In p2 (points s) /\ In p3 (points s).
Proof.
  intros H0 H1. unfold controlPoints.
  destruct (get_in_range (points s) (Z.max 0 (segment - 1)) ltac:(lia)) as [p0 [E0 I0]].
  destruct (get_in_range (points s) segment ltac:(lia)) as [p1 [E1 I1]].
  destruct (get_in_range (points s) (segment + 1) ltac:(lia)) as [p2 [E2 I2]].
  destruct (get_in_range (points s)
              (Z.min (Z.of_nat (length (points s)) - 1) (segment + 2)) ltac:(lia))
    as [p3 [E3 I3]].
  rewrite E0, E1, E2, E3. exists p0, p1, p2, p3. auto.
Qed.

Lemma locate_in_range (s : t) (t : R) :
  (2 <= length (points s))%nat -> 0 <= t ->
  (0 <= fst (locate s t))%Z /\
  (fst (locate s t) + 1 < Z.of_nat (length (points s)))%Z.
Proof.
  intros Hlen Ht. unfold locate. cbn [fst].
  set (n := (Z.of_nat (length (points s)) - 1)%Z).
  assert (Hn : (1 <= n)%Z) by (unfold n; lia).
  assert (Hf : (0 <= JS.floor (t * IZR n))%Z).
  { apply floor_nonneg. apply Rmult_le_pos; [assumption|].
    apply IZR_le in Hn. lra. }
  unfold n in *. lia.
Qed.

(** With two points or more, [getPoint] and [getTangent] return for
    every parameter that is not negative. *)
Lemma getPoint_returns (s : t) (t : R) :
  (2 <= length (points s))%nat -> 0 <= t -> exists q, getPoint s t = Some q.
Proof.
  intros Hlen Ht. unfold getPoint.
  destruct (Nat.ltb_spec (length (points s)) 2) as [Hlt | _]; [lia|].
  destruct (locate_in_range s t Hlen Ht) as [H0 H1].
  destruct (locate s t) as [segment localT]. cbn [fst] in *.
  unfold getSegmentPoint.
  destruct (controlPoints_in_range s segment H0 H1) as (p0 & p1 & p2 & p3 & E & _).
  rewrite E. eexists; reflexivity.
Qed.

Lemma getTangent_returns (s : t) (t : R) :
  (2 <= length (points s))%nat -> 0 <= t -> exists q, getTangent s t = Some q.
Proof.
  intros Hlen Ht. unfold getTangent.
  destruct (Nat.ltb_spec (length (points s)) 2) as [Hlt | _]; [lia|].
  destruct (locate_in_range s t Hlen Ht) as [H0 H1].
  destruct (locate s t) as [segment localT]. cbn [fst] in *.
  unfold getSegmentTangent, getSegmentDerivative.
  destruct (controlPoints_in_range s segment H0 H1) as (p0 & p1 & p2 & p3 & E & _).
  rewrite E. eexists; reflexivity.
Qed.

Lemma formula_zero (t t2 t3 : R) : formula 0 0 0 0 t t2 t3 = 0.
Proof. unfold formula. lra. Qed.

(** A spline through points of the plane [x = 0] stays in that plane. *)
Lemma getPoint_plane (s : t) (t : R) (q : Vec3.t) :
  Forall (fun p => Vec3.x p = 0) (points s) ->
  getPoint s t = Some q -> Vec3.x q = 0.
Proof.
  intros Hall. rewrite Forall_forall in Hall. unfold getPoint.
  destruct (length (points s) <? 2)%nat.
  - destruct (points s) as [|p rest] eqn:E; intros [= <-]; [reflexivity|].
    apply Hall. left; reflexivity.
  - destruct (locate s t) as [segment localT]. unfold getSegmentPoint.
    unfold controlPoints.
    destruct (JS.get (points s) (Z.max 0 (segment - 1))) as [p0|] eqn:E0; [|discriminate].
    destruct (JS.get (points s) segment) as [p1|] eqn:E1; [|discriminate].
    destruct (JS.get (points s) (segment + 1)) as [p2|] eqn:E2; [|discriminate].
    destruct (JS.get (points s) _) as [p3|] eqn:E3 in |- *; [|discriminate].
    intros [= <-]. cbn [Vec3.x].
    assert (G : forall i p, JS.get (points s) i = Some p -> Vec3.x p = 0).
    { intros i p E. apply Hall. unfold JS.get in E.
      destruct (i <? 0)%Z; [discriminate|]. eapply nth_error_In; eassumption. }
    rewrite (G _ _ E0), (G _ _ E1), (G _ _ E2), (G _ _ E3). apply formula_zero.
Qed.

Lemma locate_0 (s : t) :
  (2 <= length (points s))%nat -> locate s 0 = (0%Z, 0).
Proof.
  intros Hlen. unfold locate. rewrite Rmult_0_l.
  change 0 with (IZR 0) at 1. rewrite floor_IZR.
  rewrite Z.min_l by lia. f_equal. simpl. lra.
Qed.

(** The curve starts at its first control point. *)
Lemma getPoint_0 (s : t) (a b : Vec3.t) (rest : list Vec3.t) :
  points s = a :: b :: rest -> getPoint s 0 = Some a.
Proof.
  intros E. unfold getPoint.
  assert (Hlen : (2 <= length (points s))%nat) by (rewrite E; simpl; lia).
  destruct (Nat.ltb_spec (length (points s)) 2) as [Hlt | _]; [lia|].
  rewrite (locate_0 s Hlen). unfold getSegmentPoint.
  destruct (controlPoints_in_range s 0 ltac:(lia) ltac:(lia))
    as (p0 & p1 & p2 & p3 & Ec & _).
  rewrite Ec. unfold controlPoints in Ec. rewrite E in Ec.
  change (JS.get (a :: b :: rest) (Z.max 0 (0 - 1))) with (Some a) in Ec.
  change (JS.get (a :: b :: rest) 0) with (Some a) in Ec.
  change (JS.get (a :: b :: rest) (0 + 1)) with (Some b) in Ec.
  destruct (JS.get (a :: b :: rest) _) as [c|] in Ec; [|discriminate].
  injection Ec as <- <- <- <-.
  destruct a as [ax ay az]. cbn [Vec3.x Vec3.y Vec3.z].
  unfold formula. f_equal. f_equal; lra.
Qed.

End Spline.

(** ** Distances *)

Section Distances.

Lemma length_nonneg (a : Vec3.t) : 0 <= Vec3.length a.
Proof. unfold Vec3.length. apply sqrt_pos. Qed.

Lemma distance_nonneg (a b : Vec3.t) : 0 <= Vec3.distance a b.
Proof. unfold Vec3.distance. apply length_nonneg. Qed.

Lemma distance_self (a : Vec3.t) : Vec3.distance a a = 0.
Proof.
  unfold Vec3.distance, Vec3.length, Vec3.subtract. cbn [Vec3.x Vec3.y Vec3.z].
  replace ((Vec3.x a - Vec3.x a) * (Vec3.x a - Vec3.x a) +
           (Vec3.y a - Vec3.y a) * (Vec3.y a - Vec3.y a) +
           (Vec3.z a - Vec3.z a) * (Vec3.z a - Vec3.z a)) with 0 by ring.
  apply sqrt_0.
Qed.

(** A point is at least as far from another as their [x] coordinates
    differ. *)
Lemma distance_ge_x (a b : Vec3.t) (d : R) :
  0 <= d -> Vec3.x a - Vec3.x b = d -> d <= Vec3.distance a b.
Proof.
  intros Hd Hx. unfold Vec3.distance, Vec3.length, Vec3.subtract.
  cbn [Vec3.x Vec3.y Vec3.z]. rewrite Hx.
  rewrite <- (sqrt_square d Hd) at 1. apply sqrt_le_1_alt.
  pose proof (Rle_0_sqr (Vec3.y a - Vec3.y b)) as Hy.
  pose proof (Rle_0_sqr (Vec3.z a - Vec3.z b)) as Hz.
  unfold Rsqr in *. lra.
Qed.

End Distances.

(** ** The nearest-point search *)

Section Search.

Import RoadSystem.

Lemma range_cons (lo hi : Z) :
  (lo <= hi)%Z -> JS.range lo hi = lo :: JS.range (lo + 1) hi.
Proof.
  intros H. unfold JS.range.
  replace (Z.to_nat (hi - lo + 1)) with (S (Z.to_nat (hi - (lo + 1) + 1))) by lia.
  cbn [seq map]. f_equal; [lia|].
  rewrite <- seq_shift, map_map. apply map_ext. intros k. lia.
Qed.

Lemma range_In (lo hi i : Z) : In i (JS.range lo hi) <-> (lo <= i <= hi)%Z.
Proof.
  unfold JS.range. rewrite in_map_iff. split.
  - intros [k [<- Hk]]. apply in_seq in Hk. lia.
  - intros H. exists (Z.to_nat (i - lo)). split; [lia|]. apply in_seq. lia.
Qed.

(** Once the search holds a distance that no sample beats, it keeps
    it, together with the parameter where it was found. *)
Lemma search_keeps (s : CatmullRomSpline.t) (worldPos : Vec3.t)
      (tOf : Z -> R -> R) (idxs : list Z) (d0 t0 : R) :
  (forall i c, In i idxs ->
               exists q, CatmullRomSpline.getPoint s (tOf i c) = Some q /\
                         d0 <= Vec3.distance worldPos q) ->
  search s worldPos tOf idxs (Some d0) t0 = Some (Some d0, t0).
Proof.
  induction idxs as [|i rest IH]; intros H; [reflexivity|].
  cbn [search].
  destruct (H i t0 (or_introl eq_refl)) as [q [Eq Hq]]. rewrite Eq.
  cbn [JS.lt_ext].
  replace (JS.ltb (Vec3.distance worldPos q) d0) with false
    by (symmetry; apply ltb_false; exact Hq).
  apply IH. intros j c Hj. apply H. right; exact Hj.
Qed.

(** The query on a road of two waypoints or more, from a position whose
    distance [d0] to the first waypoint no point of the curve beats:
    the first coarse sample, [t = 0], wins. *)
Lemma getRoadInfo_at_start (r : t) (worldPos a b : Vec3.t) (rest : list Vec3.t) (d0 : R) :
  spline r = Some (CatmullRomSpline.mk (a :: b :: rest)) ->
  Vec3.distance worldPos a = d0 ->
  (forall t q, 0 <= t ->
               CatmullRomSpline.getPoint (CatmullRomSpline.mk (a :: b :: rest)) t = Some q ->
               d0 <= Vec3.distance worldPos q) ->
  exists info,
    getRoadInfo r worldPos = Some (Some info) /\
    position info = a /\ distance info = Some d0 /\ t_ info = 0.
Proof.
  intros Es Hd Hfar. unfold getRoadInfo. rewrite Es.
  set (s := CatmullRomSpline.mk (a :: b :: rest)) in *.
  assert (Hlen : (2 <= length (CatmullRomSpline.points s))%nat) by (simpl; lia).
  assert (Hsample : forall t, 0 <= t ->
            exists q, CatmullRomSpline.getPoint s t = Some q /\
                      d0 <= Vec3.distance worldPos q).
  { intros t Ht. destruct (getPoint_returns s t Hlen Ht) as [q Eq].
    exists q. split; [exact Eq | eapply Hfar; eassumption]. }
  assert (E0 : CatmullRomSpline.getPoint s 0 = Some a)
    by (eapply getPoint_0; reflexivity).
  unfold samples. rewrite (range_cons 0 100) by lia. cbn [search].
  replace (IZR 0 / IZR 100) with 0 by lra.
  rewrite E0. cbn [JS.lt_ext]. rewrite Hd.
  rewrite search_keeps.
  2:{ intros i c Hi. apply Hsample. apply range_In in Hi.
      apply Rmult_le_pos; [apply IZR_le; lia|].
      apply Rlt_le, Rinv_0_lt_compat. lra. }
  rewrite search_keeps.
  2:{ intros i c _. apply Hsample. apply Rmax_l. }
  rewrite E0.
  destruct (getTangent_returns s 0 Hlen ltac:(lra)) as [dir Edir]. rewrite Edir.
  eexists. split; [reflexivity|]. cbn. auto.
Qed.

End Search.

(** ** Degenerate splines *)

Section Degenerate.

Import CatmullRomSpline.

Lemma normalize_zero_length (d : Vec3.t) :
  Vec3.length d = 0 -> Vec3.normalize d = Vec3.zero.
Proof.
  intros H. unfold Vec3.normalize. rewrite H.
  replace (JS.gtb 0 0) with false by (symmetry; apply gtb_false; lra).
  reflexivity.
Qed.

Lemma getTangent_normalizes (s : t) (t : R) (d : Vec3.t) :
  (2 <= length (points s))%nat -> derivativeAt s t = Some d ->
  getTangent s t = Some (Vec3.normalize d).
Proof.
  intros Hlen Hd. unfold getTangent, derivativeAt in *.
  destruct (Nat.ltb_spec (length (points s)) 2) as [Hlt | _]; [lia|].
  destruct (locate s t) as [segment localT].
  unfold getSegmentTangent. rewrite Hd. reflexivity.
Qed.

Lemma derivativeAt_still :
  derivativeAt (mk [Vec3.zero; Vec3.zero]) 0 = Some (Vec3.mk 0 0 0).
Proof.
  unfold derivativeAt. rewrite locate_0 by (simpl; lia).
  unfold getSegmentDerivative.
  replace (controlPoints (mk [Vec3.zero; Vec3.zero]) 0)
    with (Some (Vec3.zero, Vec3.zero, Vec3.zero, Vec3.zero)) by reflexivity.
  cbn [Vec3.zero Vec3.x Vec3.y Vec3.z]. unfold derivative. f_equal. f_equal; lra.
Qed.

Lemma length_zero : Vec3.length (Vec3.mk 0 0 0) = 0.
Proof.
  unfold Vec3.length. cbn.
  replace (0 * 0 + 0 * 0 + 0 * 0) with 0 by ring. apply sqrt_0.
Qed.

Lemma zero_is_not_forward : Vec3.zero <> Vec3.forward.
Proof. intros E. apply (f_equal Vec3.z) in E. cbn in E. lra. Qed.

End Degenerate.

(** C9, as stated, fails: on a spline of two coincident points the
    derivative at [t = 0] has zero length, and [getTangent] returns the
    zero vector, which is not the forward vector. *)
Lemma zero_derivative_tangent_is_not_forward :
  let s := CatmullRomSpline.mk [Vec3.zero; Vec3.zero] in
  exists d,
    CatmullRomSpline.derivativeAt s 0 = Some d /\
    Vec3.length d = 0 /\
    CatmullRomSpline.getTangent s 0 = Some Vec3.zero /\
    CatmullRomSpline.getTangent s 0 <> Some Vec3.forward.
Proof.
  cbv zeta. exists (Vec3.mk 0 0 0).
  assert (E : CatmullRomSpline.getTangent (CatmullRomSpline.mk [Vec3.zero; Vec3.zero]) 0
              = Some Vec3.zero).
  { rewrite (getTangent_normalizes _ 0 (Vec3.mk 0 0 0));
      [| simpl; lia | apply derivativeAt_still].
    rewrite normalize_zero_length by apply length_zero. reflexivity. }
  repeat split.
  - apply derivativeAt_still.
  - apply length_zero.
  - exact E.
  - rewrite E. intros H. apply zero_is_not_forward. congruence.
Qed.

(** C9, amended.  With fewer than two control points [getPoint] returns
    the sole point, or the zero vector for an empty list, and
    [getTangent] returns the forward vector; with two points or more, a
    derivative of zero length makes [getTangent] return the zero vector
    [(0, 0, 0)].  No case raises an error. *)
Theorem spline_fallbacks (s : CatmullRomSpline.t) (t : R) :
  ((length (CatmullRomSpline.points s) < 2)%nat ->
   CatmullRomSpline.getPoint s t = Some (hd Vec3.zero (CatmullRomSpline.points s)) /\
   CatmullRomSpline.getTangent s t = Some Vec3.forward) /\
  (forall d,
      (2 <= length (CatmullRomSpline.points s))%nat ->
      CatmullRomSpline.derivativeAt s t = Some d ->
      Vec3.length d = 0 ->
      CatmullRomSpline.getTangent s t = Some Vec3.zero).
Proof.
  split.
  - intros Hlen. unfold CatmullRomSpline.getPoint, CatmullRomSpline.getTangent.
    destruct (Nat.ltb_spec (length (CatmullRomSpline.points s)) 2) as [_ | Hge]; [|lia].
    split; [|reflexivity].
    destruct (CatmullRomSpline.points s); reflexivity.
  - intros d Hlen Hd Hz.
    rewrite (getTangent_normalizes s t d Hlen Hd).
    rewrite normalize_zero_length by exact Hz. reflexivity.
Qed.

Lemma spline_fallbacks_witness :
  (CatmullRomSpline.getPoint (CatmullRomSpline.mk [Vec3.mk 1 2 3]) 0 = Some (Vec3.mk 1 2 3) /\
   CatmullRomSpline.getTangent (CatmullRomSpline.mk [Vec3.mk 1 2 3]) 0 = Some Vec3.forward) /\
  CatmullRomSpline.getTangent (CatmullRomSpline.mk [Vec3.zero; Vec3.zero]) 0 = Some Vec3.zero.
Proof.
  split.
  - apply (spline_fallbacks (CatmullRomSpline.mk [Vec3.mk 1 2 3]) 0). simpl; lia.
  - apply (proj2 (spline_fallbacks (CatmullRomSpline.mk [Vec3.zero; Vec3.zero]) 0)
                 (Vec3.mk 0 0 0)).
    + simpl; lia.
    + apply derivativeAt_still.
    + apply length_zero.
Defined.

(** ** The on-road test *)

Section OnRoad.

Import RoadSystem.

Import RoadSpec.

Lemma search_tracks (s : CatmullRomSpline.t) (worldPos : Vec3.t)
      (tOf : Z -> R -> R) (idxs : list Z) (cd : JS.ext) (ct : R)
      (cd' : JS.ext) (ct' : R) :
  search s worldPos tOf idxs cd ct = Some (cd', ct') ->
  cd = None \/ tracks s worldPos cd ct ->
  idxs <> [] \/ cd <> None ->
  tracks s worldPos cd' ct'.
Proof.
  revert cd ct. induction idxs as [|i rest IH]; intros cd ct Hs Hinv Hne.
  - cbn in Hs. injection Hs as <- <-.
    destruct Hinv as [-> | Ht]; [|exact Ht]. destruct Hne; congruence.
  - cbn [search] in Hs.
    destruct (CatmullRomSpline.getPoint s (tOf i ct)) as [point|] eqn:Ep;
      [|discriminate].
    destruct (JS.lt_ext (Vec3.distance worldPos point) cd) eqn:El.
    + apply IH in Hs; [exact Hs | | right; discriminate].
      right. exists point. auto.
    + assert (Hcd : cd <> None) by (intros ->; discriminate).
      apply IH in Hs; [exact Hs | | right; exact Hcd].
      destruct Hinv as [-> | Ht]; [congruence | right; exact Ht].
Qed.

(** The distance [getRoadInfo] reports is the distance from the query
    position to the position it reports. *)
Lemma getRoadInfo_distance (r : t) (worldPos : Vec3.t) (info : roadInfo) :
  getRoadInfo r worldPos = Some (Some info) ->
  distance info = Some (Vec3.distance worldPos (position info)).
Proof.
  unfold getRoadInfo. destruct (spline r) as [s|]; [|discriminate].
  destruct (search s worldPos _ (JS.range 0 samples) None 0)
    as [[cd1 ct1]|] eqn:E1; [|discriminate].
  destruct (search s worldPos _ (JS.range (-10) 10) cd1 ct1)
    as [[cd2 ct2]|] eqn:E2; [|discriminate].
  destruct (CatmullRomSpline.getPoint s ct2) as [p|] eqn:Ep; [|discriminate].
  destruct (CatmullRomSpline.getTangent s ct2) as [d|]; [|discriminate].
  intros [= <-]. cbn [distance position].
  apply search_tracks in E1;
    [| left; reflexivity | left; unfold samples; rewrite range_cons by lia; discriminate].
  apply search_tracks in E2;
    [| right; exact E1 | left; rewrite range_cons by lia; discriminate].
  destruct E2 as [q [Eq ->]]. congruence.
Qed.

Lemma straightPath_plane :
  Forall (fun p => Vec3.x p = 0) RoadSpec.straightPath.
Proof. unfold RoadSpec.straightPath. repeat constructor. Qed.

Lemma straightRoad_info :
  exists info,
    getRoadInfo RoadSpec.straightRoad (Vec3.mk 6 0 0) = Some (Some info) /\
    position info = Vec3.mk 0 0 0 /\ distance info = Some 6 /\ t_ info = 0.
Proof.
  eapply getRoadInfo_at_start.
  - reflexivity.
  - unfold Vec3.distance, Vec3.length, Vec3.subtract. cbn [Vec3.x Vec3.y Vec3.z].
    replace ((6 - 0) * (6 - 0) + (0 - 0) * (0 - 0) + (0 - 0) * (0 - 0))
      with (6 * 6) by ring.
    apply sqrt_square. lra.
  - intros t q Ht Eq. apply distance_ge_x; [lra|]. cbn [Vec3.x].
    rewrite (getPoint_plane (CatmullRomSpline.mk RoadSpec.straightPath) t q
                            straightPath_plane Eq). lra.
Qed.

End OnRoad.

(** C8, as stated, fails: on a straight road of width 8 the position
    [(6, 0, 0)] is 6 from the nearest curve point, farther than the
    half-width 4, and yet [isOnRoad] answers true and [getRoadHeight]
    returns the spline height. *)
Lemma on_road_beyond_half_width :
  exists info,
    RoadSystem.getRoadInfo RoadSpec.straightRoad (Vec3.mk 6 0 0) = Some (Some info) /\
    RoadSystem.distance info = Some 6 /\
    RoadSystem.roadWidth RoadSpec.straightRoad / 2 < 6 /\
    RoadSystem.isOnRoad RoadSpec.straightRoad (Vec3.mk 6 0 0) None = Some true /\
    RoadSystem.getRoadHeight RoadSpec.straightRoad 6 0 = Some (Some 0).
Proof.
  destruct straightRoad_info as [info (E & Hp & Hd & _)].
  exists info. repeat split; try assumption.
  - cbn. lra.
  - unfold RoadSystem.isOnRoad. rewrite E, Hd. cbn.
    f_equal. apply leb_true. lra.
  - unfold RoadSystem.getRoadHeight. rewrite E, Hd. cbn.
    replace (JS.leb 6 8) with true by (symmetry; apply leb_true; lra).
    rewrite Hp. reflexivity.
Qed.

(** C8, amended.  With its default tolerance [isOnRoad] answers true
    exactly when [getRoadInfo] finds a nearest curve point at most the
    full road width away, and [getRoadHeight] returns the height of that
    point under the same condition. *)
Theorem on_road_within_full_width (r : RoadSystem.t) (worldPos : Vec3.t) (h : R) :
  (RoadSystem.isOnRoad r worldPos None = Some true <->
   exists info,
     RoadSystem.getRoadInfo r worldPos = Some (Some info) /\
     Vec3.distance worldPos (RoadSystem.position info) <= RoadSystem.roadWidth r) /\
  (RoadSystem.getRoadHeight r (Vec3.x worldPos) (Vec3.z worldPos) = Some (Some h) <->
   exists info,
     RoadSystem.getRoadInfo r (Vec3.mk (Vec3.x worldPos) 0 (Vec3.z worldPos))
     = Some (Some info) /\
     Vec3.distance (Vec3.mk (Vec3.x worldPos) 0 (Vec3.z worldPos))
                   (RoadSystem.position info) <= RoadSystem.roadWidth r /\
     h = Vec3.y (RoadSystem.position info)).
Proof.
  split.
  - unfold RoadSystem.isOnRoad.
    destruct (RoadSystem.getRoadInfo r worldPos) as [[info|]|] eqn:E.
    + rewrite (getRoadInfo_distance r worldPos info E). cbn [JS.ext_leb]. split.
      * intros [= H]. apply leb_true in H. exists info. auto.
      * intros [info' [[= <-] H]]. f_equal. apply leb_true. exact H.
    + split; [discriminate | intros [info' [[=] _]]].
    + split; [discriminate | intros [info' [[=] _]]].
  - unfold RoadSystem.getRoadHeight.
    set (p := Vec3.mk (Vec3.x worldPos) 0 (Vec3.z worldPos)).
    destruct (RoadSystem.getRoadInfo r p) as [[info|]|] eqn:E.
    + rewrite (getRoadInfo_distance r p info E). cbn [JS.ext_leb].
      destruct (JS.leb (Vec3.distance p (RoadSystem.position info))
                       (RoadSystem.roadWidth r)) eqn:El.
      * apply leb_true in El. split.
        -- intros [= <-]. exists info. auto.
        -- intros [info' [[= <-] [_ ->]]]. reflexivity.
      * apply leb_false in El. split; [discriminate|].
        intros [info' [[= <-] [H _]]]. lra.
    + split; [discriminate | intros [info' [[=] _]]].
    + split; [discriminate | intros [info' [[=] _]]].
Qed.

(** ** Extending the road *)

Section Extension.

Import RoadSystem RoadSpec.

Variable r : RoadSystem.t.
Variable noise : NoiseGenerator.t.

(** The heading stays a unit vector of the XZ plane under the turn. *)
Lemma rotateVector_unit (v : Vec3.t) (angle : R) :
  Vec3.x v * Vec3.x v + Vec3.z v * Vec3.z v = 1 ->
  Vec3.x (rotateVector v angle) * Vec3.x (rotateVector v angle) +
  Vec3.z (rotateVector v angle) * Vec3.z (rotateVector v angle) = 1.
Proof.
  intros H. unfold rotateVector. cbn [Vec3.x Vec3.z].
  pose proof (sin2_cos2 angle) as T. unfold Rsqr in T.
  replace ((Vec3.x v * cos angle - Vec3.z v * sin angle) *
           (Vec3.x v * cos angle - Vec3.z v * sin angle) +
           (Vec3.x v * sin angle + Vec3.z v * cos angle) *
           (Vec3.x v * sin angle + Vec3.z v * cos angle))
    with ((Vec3.x v * Vec3.x v + Vec3.z v * Vec3.z v) *
          (sin angle * sin angle + cos angle * cos angle)) by ring.
  rewrite H, T. ring.
Qed.

Lemma xzDistance_step (a dir : Vec3.t) (len y' : R) :
  0 <= len ->
  Vec3.x dir * Vec3.x dir + Vec3.z dir * Vec3.z dir = 1 ->
  xzDistance a (Vec3.with_y (Vec3.add a (Vec3.multiply dir len)) y') = len.
Proof.
  intros Hlen Hdir. unfold xzDistance, Vec3.with_y, Vec3.add, Vec3.multiply.
  cbn [Vec3.x Vec3.z].
  replace ((Vec3.x a + Vec3.x dir * len - Vec3.x a) ^ 2 +
           (Vec3.z a + Vec3.z dir * len - Vec3.z a) ^ 2)
    with ((Vec3.x dir * Vec3.x dir + Vec3.z dir * Vec3.z dir) * (len * len))
    by ring.
  rewrite Hdir, Rmult_1_l. apply sqrt_square. exact Hlen.
Qed.

Lemma spaced_snoc (d : R) (l : list Vec3.t) (a b : Vec3.t) :
  spaced d (l ++ [a]) -> xzDistance a b = d -> spaced d ((l ++ [a]) ++ [b]).
Proof.
  intros Hs Hd. induction l as [|h l IH].
  - cbn. auto.
  - destruct l as [|h' l].
    + cbn in *. tauto.
    + cbn [app spaced] in *. destruct Hs as [H1 H2]. split; [exact H1|].
      apply IH. exact H2.
Qed.

Lemma extendStep_steady (w : walk) :
  0 <= segmentLength r -> steady r w -> steady r (extendStep r noise w).
Proof.
  intros Hlen (Hdir & [front Hw] & Hsp). unfold steady, extendStep.
  cbn [currentDir currentPos walked].
  split; [apply rotateVector_unit; exact Hdir|].
  split; [eexists; reflexivity|].
  rewrite Hw in *. apply spaced_snoc; [exact Hsp|].
  apply xzDistance_step; [exact Hlen | apply rotateVector_unit; exact Hdir].
Qed.

Lemma iter_steady (n : nat) (w : walk) :
  0 <= segmentLength r -> steady r w -> steady r (Nat.iter n (extendStep r noise) w).
Proof.
  intros Hlen Hw. induction n as [|n IH]; [exact Hw|].
  rewrite Nat.iter_succ. apply extendStep_steady; assumption.
Qed.

Lemma iter_walked (n : nat) (w : walk) :
  exists new, walked (Nat.iter n (extendStep r noise) w) = walked w ++ new /\
              length new = n.
Proof.
  induction n as [|n [new [E L]]].
  - exists []. cbn. rewrite app_nil_r. auto.
  - rewrite Nat.iter_succ. unfold extendStep at 1. cbn [walked]. rewrite E.
    eexists. rewrite <- app_assoc. split; [reflexivity|].
    rewrite length_app. cbn. lia.
Qed.

Lemma iter_generatedDistance (n : nat) (w : walk) :
  generatedDistance (Nat.iter n (extendStep r noise) w)
  = generatedDistance w + INR n * segmentLength r.
Proof.
  induction n as [|n IH].
  - cbn. lra.
  - rewrite Nat.iter_succ. unfold extendStep at 1. cbn [generatedDistance].
    rewrite IH, S_INR. ring.
Qed.

(** The loop makes exactly [n] passes when [n] segment lengths bring the
    generated distance to the requested one and no fewer do. *)
Lemma extendLoop_passes (n fuel : nat) (distance : R) (w : walk) :
  0 < segmentLength r ->
  generatedDistance w + INR n * segmentLength r >= distance ->
  (n = 0%nat \/ generatedDistance w + (INR n - 1) * segmentLength r < distance) ->
  (n <= fuel)%nat ->
  extendLoop fuel r noise distance w = Some (Nat.iter n (extendStep r noise) w).
Proof.
  intros Hseg. revert fuel w. induction n as [|n IH]; intros fuel w Hge Hlt Hfuel.
  - cbn in Hge. destruct fuel; cbn [extendLoop Nat.iter];
      replace (JS.ltb (generatedDistance w) distance) with false
        by (symmetry; apply ltb_false; lra); reflexivity.
  - destruct Hlt as [Hz | Hlt]; [discriminate|].
    destruct fuel as [|fuel]; [lia|].
    rewrite S_INR in Hge, Hlt.
    assert (Hn : 0 <= INR n) by apply pos_INR.
    cbn [extendLoop].
    replace (JS.ltb (generatedDistance w) distance) with true
      by (symmetry; apply ltb_true; nra).
    rewrite IH.
    + rewrite <- Nat.iter_succ_r. reflexivity.
    + unfold extendStep. cbn [generatedDistance]. lra.
    + destruct n as [|n]; [left; reflexivity | right].
      unfold extendStep. cbn [generatedDistance]. rewrite S_INR in *. lra.
    + lia.
Qed.

End Extension.

(** C7.  From a path holding only the waypoint [(0, 0, 0)], heading +Z,
    with segment length 50, [extendRoad(500)] appends exactly ten
    waypoints, every consecutive pair of the path is exactly 50 apart in
    the XZ plane, and afterwards [getRoadInfo((0, 0, 0))] reports the
    parameter 0 and the distance 0. *)
Theorem extension_scenario (r : RoadSystem.t) (fuel : nat) :
  RoadSystem.path r = [RoadSpec.origin] ->
  RoadSystem.lastGeneratedPosition r = RoadSpec.origin ->
  RoadSystem.currentDirection r = Vec3.mk 0 0 1 ->
  RoadSystem.segmentLength r = 50 ->
  (10 <= fuel)%nat ->
  exists r' appended info,
    RoadSystem.extendRoad fuel r 500 = Some r' /\
    RoadSystem.path r' = RoadSpec.origin :: appended /\
    length appended = 10%nat /\
    RoadSpec.spaced 50 (RoadSystem.path r') /\
    RoadSystem.getRoadInfo r' RoadSpec.origin = Some (Some info) /\
    RoadSystem.t_ info = 0 /\
    RoadSystem.distance info = Some 0.
Proof.
  intros Hpath Hpos Hdir Hseg Hfuel.
  set (noise := NoiseGenerator.new (RoadSystem.roadSeed r)).
  set (w0 := RoadSystem.mkWalk (RoadSystem.lastGeneratedPosition r)
                               (RoadSystem.currentDirection r) 0 (RoadSystem.path r)).
  set (w := Nat.iter 10 (RoadSystem.extendStep r noise) w0).
  assert (Hloop : RoadSystem.extendLoop fuel r noise 500 w0 = Some w).
  { apply extendLoop_passes; [lra | | right | exact Hfuel];
      unfold w0; cbn [RoadSystem.generatedDistance]; rewrite Hseg;
      rewrite INR_IZR_INZ; simpl Z.of_nat; lra. }
  assert (Hsteady : RoadSpec.steady r w).
  { apply iter_steady; [lra|]. unfold RoadSpec.steady, w0.
    cbn [RoadSystem.currentDir RoadSystem.currentPos RoadSystem.walked].
    rewrite Hdir, Hpath, Hpos. cbn [Vec3.x Vec3.z]. split; [ring|].
    split; [exists []; reflexivity | exact I]. }
  destruct (iter_walked r noise 10 w0) as [appended [Ew Hlen]].
  fold w in Ew. unfold w0 in Ew. cbn [RoadSystem.walked] in Ew. rewrite Hpath in Ew.
  cbn [app] in Ew.
  destruct appended as [|b rest]; [discriminate|].
  unfold RoadSystem.extendRoad. fold noise w0. rewrite Hloop.
  destruct (RoadSystem.generateSegments (RoadSystem.walked w)
                                        (RoadSystem.segmentsGenerated r))
    as [segments generated].
  destruct (getRoadInfo_at_start
              (RoadSystem.mk (RoadSystem.terrain r) (RoadSystem.roadWidth r)
                 (RoadSystem.segmentLength r) (RoadSystem.generationDistance r)
                 segments
                 (RoadSystem.walked w)
                 (Some (CatmullRomSpline.mk (RoadSystem.walked w)))
                 (RoadSystem.currentPos w) (RoadSystem.currentDir w)
                 (RoadSystem.roadSeed r) (RoadSystem.curviness r)
                 (RoadSystem.terrainFollowing r) (RoadSystem.bankingAmount r)
                 (RoadSystem.shoulderWidth r)
                 generated)
              RoadSpec.origin RoadSpec.origin b rest 0)
    as [info (Ei & _ & Hd & Ht)].
  - cbn [RoadSystem.spline]. rewrite Ew. reflexivity.
  - apply distance_self.
  - intros t q _ _. apply distance_nonneg.
  - eexists. exists (b :: rest), info. split; [reflexivity|].
    cbn [RoadSystem.path].
    split; [exact Ew|]. split; [exact Hlen|].
    split; [| split; [exact Ei | split; [exact Ht | exact Hd]]].
    destruct Hsteady as (_ & _ & Hsp). rewrite Hseg in Hsp. exact Hsp.
Qed.

Lemma extension_scenario_witness :
  exists r' appended info,
    RoadSystem.extendRoad
      10 (RoadSystem.started
            (RoadSystem.fields (TerrainSystem.getHeightAt (TerrainSystem.new GL.fresh))))
      500 = Some r' /\
    RoadSystem.path r' = RoadSpec.origin :: appended /\
    length appended = 10%nat /\
    RoadSpec.spaced 50 (RoadSystem.path r') /\
    RoadSystem.getRoadInfo r' RoadSpec.origin = Some (Some info) /\
    RoadSystem.t_ info = 0 /\
    RoadSystem.distance info = Some 0.
Proof.
  apply (extension_scenario
           (RoadSystem.started
              (RoadSystem.fields (TerrainSystem.getHeightAt (TerrainSystem.new GL.fresh))))
           10); first [reflexivity | lia].
Defined.

(** ** Keys, sets and maps *)

Section Registry.

Lemma key_eqb_eq (a b : Key.t) : Key.eqb a b = true <-> a = b.
Proof.
  unfold Key.eqb. destruct a as [a1 a2], b as [b1 b2]. cbn [fst snd].
  destruct (Req_dec_T a1 b1) as [-> | N1];
    [destruct (Req_dec_T a2 b2) as [-> | N2]|]; split;
    intros H; try reflexivity; try discriminate; congruence.
Qed.

Lemma key_eqb_neq (a b : Key.t) : Key.eqb a b = false <-> a <> b.
Proof.
  rewrite <- key_eqb_eq. destruct (Key.eqb a b); split; congruence.
Qed.

Lemma key_eqb_refl (a : Key.t) : Key.eqb a a = true.
Proof. apply key_eqb_eq. reflexivity. Qed.

Lemma has_In (s : KeySet.t) (k : Key.t) : KeySet.has s k = true <-> In k s.
Proof.
  unfold KeySet.has. rewrite existsb_exists. split.
  - intros [k' [Hin E]]. apply key_eqb_eq in E. subst. exact Hin.
  - intros Hin. exists k. split; [exact Hin | apply key_eqb_refl].
Qed.

Lemma has_not_In (s : KeySet.t) (k : Key.t) : KeySet.has s k = false <-> ~ In k s.
Proof.
  rewrite <- has_In. destruct (KeySet.has s k); split; congruence.
Qed.

Lemma add_In (s : KeySet.t) (k k' : Key.t) :
  In k' (KeySet.add s k) <-> In k' s \/ k' = k.
Proof.
  unfold KeySet.add. destruct (KeySet.has s k) eqn:E.
  - apply has_In in E. split; [auto | intros [H | ->]; assumption].
  - rewrite in_app_iff. cbn. split; intros [H | H]; auto.
    + destruct H as [-> | []]. auto.
Qed.

Lemma delete_In (s : KeySet.t) (k k' : Key.t) :
  In k' (KeySet.delete s k) <-> In k' s /\ k' <> k.
Proof.
  unfold KeySet.delete. rewrite filter_In, negb_true_iff, key_eqb_neq.
  split; intros [H N]; split; auto.
Qed.

Lemma delete_NoDup (s : KeySet.t) (k : Key.t) :
  NoDup s -> NoDup (KeySet.delete s k).
Proof. apply NoDup_filter. Qed.

Lemma delete_absent (s : KeySet.t) (k : Key.t) :
  ~ In k s -> KeySet.delete s k = s.
Proof.
  intros N. unfold KeySet.delete. induction s as [|h s IH]; [reflexivity|].
  cbn. destruct (Key.eqb k h) eqn:E.
  - apply key_eqb_eq in E. subst. exfalso. apply N. left; reflexivity.
  - cbn. f_equal. apply IH. intros H. apply N. right; exact H.
Qed.

Lemma snoc_NoDup (s : KeySet.t) (k : Key.t) :
  NoDup s -> ~ In k s -> NoDup (s ++ [k]).
Proof.
  intros Hs Hk. apply NoDup_app; [exact Hs | repeat constructor; intros [] |].
  intros x Hx [<- | []]. exact (Hk Hx).
Qed.

Lemma requiredKeys_In (ks : list Key.t) (acc : KeySet.t) (k : Key.t) :
  In k (fold_left KeySet.add ks acc) <-> In k acc \/ In k ks.
Proof.
  revert acc. induction ks as [|h ks IH]; intros acc; cbn [fold_left].
  - cbn. tauto.
  - rewrite IH, add_In. cbn. intuition (subst; auto).
Qed.

Context {A : Type}.

Lemma map_has (m : KeyMap.t A) (k : Key.t) :
  KeyMap.has m k = KeySet.has (map fst m) k.
Proof.
  unfold KeyMap.has, KeySet.has. induction m as [|e m IH]; [reflexivity|].
  cbn. rewrite IH. reflexivity.
Qed.

Lemma map_delete_keys (m : KeyMap.t A) (k : Key.t) :
  map fst (KeyMap.delete m k) = KeySet.delete (map fst m) k.
Proof.
  unfold KeyMap.delete, KeySet.delete. induction m as [|e m IH]; [reflexivity|].
  cbn. destruct (Key.eqb k (fst e)); cbn; [exact IH | f_equal; exact IH].
Qed.

Lemma map_get_None (m : KeyMap.t A) (k : Key.t) :
  KeyMap.get m k = None <-> ~ In k (map fst m).
Proof.
  unfold KeyMap.get. induction m as [|e m IH]; cbn.
  - tauto.
  - destruct (Key.eqb k (fst e)) eqn:E.
    + apply key_eqb_eq in E. split; [discriminate | intros N; exfalso; auto].
    + apply key_eqb_neq in E. rewrite IH. split.
      * intros N [H | H]; [congruence | auto].
      * intros N H. apply N. right; exact H.
Qed.

Lemma map_get_In (m : KeyMap.t A) (k : Key.t) (v : A) :
  KeyMap.get m k = Some v -> In (k, v) m.
Proof.
  unfold KeyMap.get. induction m as [|e m IH]; cbn; [discriminate|].
  destruct (Key.eqb k (fst e)) eqn:E.
  - apply key_eqb_eq in E. intros [= <-]. left. destruct e; cbn in *; congruence.
  - intros H. right. apply IH. exact H.
Qed.

Lemma map_get_snoc (m : KeyMap.t A) (k k' : Key.t) (v : A) :
  KeyMap.get (m ++ [(k', v)]) k =
  match KeyMap.get m k with
  | Some w => Some w
  | None => if Key.eqb k k' then Some v else None
  end.
Proof.
  unfold KeyMap.get. induction m as [|e m IH]; cbn.
  - destruct (Key.eqb k k'); reflexivity.
  - destruct (Key.eqb k (fst e)); [reflexivity | exact IH].
Qed.

Lemma map_get_delete (m : KeyMap.t A) (k k' : Key.t) :
  k <> k' -> KeyMap.get (KeyMap.delete m k') k = KeyMap.get m k.
Proof.
  intros N. unfold KeyMap.get, KeyMap.delete. induction m as [|e m IH]; [reflexivity|].
  cbn. destruct (Key.eqb k' (fst e)) eqn:E'; cbn.
  - apply key_eqb_eq in E'. subst.
    replace (Key.eqb k (fst e)) with false by (symmetry; apply key_eqb_neq; exact N).
    exact IH.
  - destruct (Key.eqb k (fst e)); [reflexivity | exact IH].
Qed.

Lemma map_set_fresh (m : KeyMap.t A) (k : Key.t) (v : A) :
  ~ In k (map fst m) -> KeyMap.set m k v = m ++ [(k, v)].
Proof.
  intros N. unfold KeyMap.set. rewrite map_has.
  replace (KeySet.has (map fst m) k) with false
    by (symmetry; apply has_not_In; exact N).
  reflexivity.
Qed.

End Registry.

(** ** Loading and unloading chunks *)

Section Streaming.

Import TerrainSystem TerrainSpec.

Lemma sameSetup_refl (s : t) : sameSetup s s.
Proof. unfold sameSetup. auto 10. Qed.

Lemma sameSetup_trans (s1 s2 s3 : t) :
  sameSetup s1 s2 -> sameSetup s2 s3 -> sameSetup s1 s3.
Proof.
  unfold sameSetup. intros (A1 & A2 & A3 & A4 & A5 & A6) (B1 & B2 & B3 & B4 & B5 & B6).
  repeat split; congruence.
Qed.

Lemma geometry_keeps (s : t) (c : Chunk.t) :
  Chunk.lod (generateChunkGeometry s c) = Chunk.lod c /\
  Chunk.key (generateChunkGeometry s c) = Chunk.key c /\
  Chunk.x (generateChunkGeometry s c) = Chunk.x c /\
  Chunk.z (generateChunkGeometry s c) = Chunk.z c /\
  Chunk.bounds (generateChunkGeometry s c) <> None.
Proof. unfold generateChunkGeometry. cbn. repeat split. discriminate. Qed.

Lemma buffers_keep (g : GL.t) (c : Chunk.t) :
  Chunk.lod (fst (createChunkBuffers g c)) = Chunk.lod c /\
  Chunk.key (fst (createChunkBuffers g c)) = Chunk.key c /\
  Chunk.x (fst (createChunkBuffers g c)) = Chunk.x c /\
  Chunk.z (fst (createChunkBuffers g c)) = Chunk.z c /\
  Chunk.bounds (fst (createChunkBuffers g c)) = Chunk.bounds c.
Proof. unfold createChunkBuffers. cbn. repeat split. Qed.

Lemma fillChunk_keeps (s : t) (c : Chunk.t) (x z : R) (lod : Z) :
  Chunk.lod (fst (fillChunk s c x z lod)) = lod /\
  Chunk.key (fst (fillChunk s c x z lod)) = Some (getChunkKey x z) /\
  Chunk.bounds (fst (fillChunk s c x z lod)) <> None.
Proof.
  unfold fillChunk.
  match goal with
  | |- context [createChunkBuffers ?g (generateChunkGeometry ?s0 ?c0)] =>
      pose proof (buffers_keep g (generateChunkGeometry s0 c0)) as (B1 & B2 & _ & _ & B5);
      pose proof (geometry_keeps s0 c0) as (G1 & G2 & _ & _ & G5)
  end.
  rewrite B1, B2, B5, G1, G2. repeat split. exact G5.
Qed.

(** Nothing of the object taken from the pool survives the filling but
    its visibility flag. *)
Lemma fillChunk_of_released (s : t) (c : Chunk.t) (x z : R) (lod : Z) :
  Chunk.visible c = false ->
  fillChunk s c x z lod = fillChunk s Chunk.blank x z lod.
Proof.
  intros Hv. unfold fillChunk, generateChunkGeometry, createChunkBuffers.
  cbn. rewrite Hv. reflexivity.
Qed.

Lemma generateChunk_loaded (s : t) (x z : R) (lod : Z) :
  In (getChunkKey x z) (loadedChunks s) -> generateChunk s x z lod = s.
Proof.
  intros H. unfold generateChunk.
  replace (KeySet.has (loadedChunks s) (getChunkKey x z)) with true
    by (symmetry; apply has_In; exact H).
  reflexivity.
Qed.

(** Generating a key that is not loaded appends one chunk, carrying the
    requested level of detail, to the map and its key to the set. *)
Lemma generateChunk_fresh (s : t) (x z : R) (lod : Z) :
  map fst (chunks s) = loadedChunks s ->
  ~ In (getChunkKey x z) (loadedChunks s) ->
  exists c,
    chunks (generateChunk s x z lod) = chunks s ++ [(getChunkKey x z, c)] /\
    loadedChunks (generateChunk s x z lod) = loadedChunks s ++ [getChunkKey x z] /\
    Chunk.lod c = lod /\
    Chunk.key c = Some (getChunkKey x z) /\
    Chunk.bounds c <> None /\
    sameSetup s (generateChunk s x z lod).
Proof.
  intros Hsync Hnew. unfold generateChunk.
  replace (KeySet.has (loadedChunks s) (getChunkKey x z)) with false
    by (symmetry; apply has_not_In; exact Hnew).
  assert (Hpool : forall c s1, getChunkFromPool s = (c, s1) ->
                               chunks s1 = chunks s /\ loadedChunks s1 = loadedChunks s /\
                               sameSetup s s1).
  { unfold getChunkFromPool. destruct (chunkPool s); intros c s1 [= <- <-]; cbn;
      repeat split. }
  destruct (getChunkFromPool s) as [chunk s1].
  destruct (Hpool chunk s1 eq_refl) as (Hc & Hl & Hs). clear Hpool.
  pose proof (fillChunk_keeps s1 chunk x z lod) as (F1 & F2 & F3).
  destruct (fillChunk s1 chunk x z lod) as [chunk' g'].
  cbn [fst] in *. cbn [chunks loadedChunks set_gl set_chunks set_loadedChunks set_stats].
  exists chunk'. rewrite Hc, Hl.
  rewrite map_set_fresh by (rewrite Hsync; exact Hnew).
  unfold KeySet.add.
  replace (KeySet.has (loadedChunks s) (getChunkKey x z)) with false
    by (symmetry; apply has_not_In; exact Hnew).
  split; [reflexivity|]. split; [reflexivity|].
  split; [exact F1|]. split; [exact F2|]. split; [exact F3|].
  destruct Hs as (S1 & S2 & S3 & S4 & S5 & S6). unfold sameSetup. cbn. auto 10.
Qed.

Lemma generateChunk_consistent (s : t) (x z : R) (lod : Z) :
  consistent s -> consistent (generateChunk s x z lod).
Proof.
  intros (Hsync & Hnd & Hb).
  destruct (KeySet.has (loadedChunks s) (getChunkKey x z)) eqn:E.
  - apply has_In in E. rewrite generateChunk_loaded by exact E. repeat split; assumption.
  - apply has_not_In in E.
    destruct (generateChunk_fresh s x z lod Hsync E) as (c & Ec & El & _ & _ & Hbc & _).
    unfold consistent. rewrite Ec, El. split; [|split].
    + rewrite map_app, Hsync. reflexivity.
    + apply snoc_NoDup; assumption.
    + apply Forall_app. split; [exact Hb | repeat constructor; exact Hbc].
Qed.

Lemma generateChunk_sameSetup (s : t) (x z : R) (lod : Z) :
  consistent s -> sameSetup s (generateChunk s x z lod).
Proof.
  intros (Hsync & _).
  destruct (KeySet.has (loadedChunks s) (getChunkKey x z)) eqn:E.
  - apply has_In in E. rewrite generateChunk_loaded by exact E. apply sameSetup_refl.
  - apply has_not_In in E.
    destruct (generateChunk_fresh s x z lod Hsync E) as (c & _ & _ & _ & _ & _ & H).
    exact H.
Qed.

Lemma generateChunk_In (s : t) (x z : R) (lod : Z) (k : Key.t) :
  consistent s ->
  In k (loadedChunks (generateChunk s x z lod)) <->
  In k (loadedChunks s) \/ k = getChunkKey x z.
Proof.
  intros (Hsync & _).
  destruct (KeySet.has (loadedChunks s) (getChunkKey x z)) eqn:E.
  - apply has_In in E. rewrite generateChunk_loaded by exact E.
    split; [auto | intros [H | ->]; assumption].
  - apply has_not_In in E.
    destruct (generateChunk_fresh s x z lod Hsync E) as (c & _ & El & _).
    rewrite El, in_app_iff. cbn. intuition.
Qed.

(** A chunk that is loaded is left as it is by [generateChunk]. *)
Lemma generateChunk_keeps (s : t) (x z : R) (lod : Z) (k : Key.t) (c : Chunk.t) :
  consistent s ->
  KeyMap.get (chunks s) k = Some c ->
  KeyMap.get (chunks (generateChunk s x z lod)) k = Some c.
Proof.
  intros (Hsync & _) Hget.
  destruct (KeySet.has (loadedChunks s) (getChunkKey x z)) eqn:E.
  - apply has_In in E. rewrite generateChunk_loaded by exact E. exact Hget.
  - apply has_not_In in E.
    destruct (generateChunk_fresh s x z lod Hsync E) as (c' & Ec & _).
    rewrite Ec, map_get_snoc, Hget. reflexivity.
Qed.

(** The chunk a fresh key gets carries the requested level of detail. *)
Lemma generateChunk_new (s : t) (x z : R) (lod : Z) :
  consistent s ->
  ~ In (getChunkKey x z) (loadedChunks s) ->
  exists c, KeyMap.get (chunks (generateChunk s x z lod)) (getChunkKey x z) = Some c /\
            Chunk.lod c = lod.
Proof.
  intros (Hsync & _) Hnew.
  destruct (generateChunk_fresh s x z lod Hsync Hnew) as (c & Ec & _ & Hlod & _).
  exists c. split; [|exact Hlod].
  rewrite Ec, map_get_snoc.
  replace (KeyMap.get (chunks s) (getChunkKey x z)) with (@None Chunk.t)
    by (symmetry; apply map_get_None; rewrite Hsync; exact Hnew).
  rewrite key_eqb_refl. reflexivity.
Qed.

Lemma map_delete_absent {A : Type} (m : KeyMap.t A) (k : Key.t) :
  ~ In k (map fst m) -> KeyMap.delete m k = m.
Proof.
  intros N. unfold KeyMap.delete. induction m as [|e m IH]; [reflexivity|].
  cbn. destruct (Key.eqb k (fst e)) eqn:E.
  - apply key_eqb_eq in E. exfalso. apply N. left. congruence.
  - cbn. f_equal. apply IH. intros H. apply N. right; exact H.
Qed.

(** Unloading removes the key from the map and from the set, and
    nothing else from either. *)
Lemma unloadChunk_registry (s : t) (key : Key.t) :
  map fst (chunks s) = loadedChunks s ->
  chunks (unloadChunk s key) = KeyMap.delete (chunks s) key /\
  loadedChunks (unloadChunk s key) = KeySet.delete (loadedChunks s) key /\
  sameSetup s (unloadChunk s key).
Proof.
  intros Hsync. unfold unloadChunk.
  destruct (KeyMap.get (chunks s) key) as [chunk|] eqn:E.
  - destruct (Chunk.buffers chunk); cbn; repeat split.
  - apply map_get_None in E.
    rewrite map_delete_absent by exact E.
    rewrite delete_absent by (rewrite <- Hsync; exact E).
    split; [reflexivity|]. split; [reflexivity | apply sameSetup_refl].
Qed.

Lemma unloadChunk_consistent (s : t) (key : Key.t) :
  consistent s -> consistent (unloadChunk s key).
Proof.
  intros (Hsync & Hnd & Hb).
  destruct (unloadChunk_registry s key Hsync) as (Ec & El & _).
  unfold consistent. rewrite Ec, El. split; [|split].
  - rewrite map_delete_keys, Hsync. reflexivity.
  - apply delete_NoDup. exact Hnd.
  - unfold KeyMap.delete. rewrite Forall_forall in *. intros e He.
    apply filter_In in He. apply Hb. tauto.
Qed.

(** The first pass of [update]: what is not required goes. *)
Lemma unload_pass (req : KeySet.t) (ks : list Key.t) (s : t) :
  consistent s ->
  let s' := fold_left (fun s key => if KeySet.has req key then s else unloadChunk s key)
                      ks s in
  consistent s' /\ sameSetup s s' /\
  (forall k, In k (loadedChunks s') <->
             In k (loadedChunks s) /\ (In k req \/ ~ In k ks)) /\
  (forall k c, In k req -> KeyMap.get (chunks s) k = Some c ->
               KeyMap.get (chunks s') k = Some c).
Proof.
  revert s. induction ks as [|key ks IH]; intros s Hs; cbn [fold_left].
  - split; [exact Hs|]. split; [apply sameSetup_refl|]. split; [|auto].
    intros k. cbn. tauto.
  - destruct (KeySet.has req key) eqn:E.
    + apply has_In in E. destruct (IH s Hs) as (C & S & L & G).
      split; [exact C|]. split; [exact S|]. split; [|exact G].
      intros k. rewrite L. cbn. split.
      * intros [H1 [H2 | H2]]; split; auto.
        destruct (Req_dec_T (fst k) (fst key)) as [E1|N1];
          [destruct (Req_dec_T (snd k) (snd key)) as [E2|N2]|].
        -- left. replace k with key; [exact E|].
           destruct k, key; cbn in *; congruence.
        -- right. intros [<- | H]; [congruence | auto].
        -- right. intros [<- | H]; [congruence | auto].
      * intros [H1 [H2 | H2]]; split; auto.
    + apply has_not_In in E.
      destruct (unloadChunk_registry s key (proj1 Hs)) as (Ec & El & Su).
      destruct (IH _ (unloadChunk_consistent s key Hs)) as (C & S & L & G).
      split; [exact C|]. split; [eapply sameSetup_trans; eassumption|]. split.
      * intros k. rewrite L, El, delete_In. cbn. split.
        -- intros [[H1 N] [H2 | H2]]; split; auto.
           right. intros [<- | H]; [congruence | auto].
        -- intros [H1 [H2 | H2]].
           ++ split; [split; [exact H1 | intros ->; auto] | left; exact H2].
           ++ split; [split; [exact H1 | intros ->; apply H2; left; reflexivity]|].
              right. intros H. apply H2. right; exact H.
      * intros k c Hk Hget. apply G; [exact Hk|].
        rewrite Ec, map_get_delete; [exact Hget | intros ->; auto].
Qed.

(** The second pass: what is required and missing comes. *)
Lemma load_pass (cs : list required) (s : t) :
  consistent s ->
  let s' := loadNewChunks s cs in
  consistent s' /\ sameSetup s s' /\
  (forall k, In k (loadedChunks s') <->
             In k (loadedChunks s) \/
             In k (map (fun c => getChunkKey (r_x c) (r_z c)) cs)) /\
  (forall k c, KeyMap.get (chunks s) k = Some c ->
               KeyMap.get (chunks s') k = Some c).
Proof.
  unfold loadNewChunks.
  revert s. induction cs as [|c cs IH]; intros s Hs; cbn [fold_left map].
  - split; [exact Hs|]. split; [apply sameSetup_refl|]. split; [|auto].
    intros k. cbn. tauto.
  - assert (E : (if KeySet.has (loadedChunks s) (getChunkKey (r_x c) (r_z c))
                 then s else generateChunk s (r_x c) (r_z c) (r_lod c))
                = generateChunk s (r_x c) (r_z c) (r_lod c)).
    { destruct (KeySet.has _ _) eqn:E; [|reflexivity].
      apply has_In in E. rewrite generateChunk_loaded by exact E. reflexivity. }
    rewrite E.
    destruct (IH _ (generateChunk_consistent s (r_x c) (r_z c) (r_lod c) Hs))
      as (C & S & L & G).
    split; [exact C|].
    split; [eapply sameSetup_trans; [apply generateChunk_sameSetup; exact Hs | exact S]|].
    split.
    + intros k. rewrite L, generateChunk_In by exact Hs. cbn. intuition.
    + intros k c0 Hget. apply G. apply generateChunk_keeps; assumption.
Qed.

(** A required key that was not loaded gets a chunk at the level its
    entry carries. *)
Lemma load_pass_new (cs : list required) (s : t) (c : required) :
  consistent s ->
  In c cs ->
  ~ In (getChunkKey (r_x c) (r_z c)) (loadedChunks s) ->
  (forall c', In c' cs ->
              getChunkKey (r_x c') (r_z c') = getChunkKey (r_x c) (r_z c) ->
              r_lod c' = r_lod c) ->
  exists chunk,
    KeyMap.get (chunks (loadNewChunks s cs)) (getChunkKey (r_x c) (r_z c))
    = Some chunk /\
    Chunk.lod chunk = r_lod c.
Proof.
  revert s. induction cs as [|c0 cs IH]; intros s Hs Hin Hnew Huniq; [destruct Hin|].
  unfold loadNewChunks. cbn [fold_left]. fold (loadNewChunks).
  assert (E : (if KeySet.has (loadedChunks s) (getChunkKey (r_x c0) (r_z c0))
               then s else generateChunk s (r_x c0) (r_z c0) (r_lod c0))
              = generateChunk s (r_x c0) (r_z c0) (r_lod c0)).
  { destruct (KeySet.has _ _) eqn:E; [|reflexivity].
    apply has_In in E. rewrite generateChunk_loaded by exact E. reflexivity. }
  rewrite E. clear E.
  set (s1 := generateChunk s (r_x c0) (r_z c0) (r_lod c0)).
  assert (C1 : consistent s1) by (apply generateChunk_consistent; exact Hs).
  change (fold_left _ cs s1) with (loadNewChunks s1 cs).
  destruct (Key.eqb (getChunkKey (r_x c) (r_z c)) (getChunkKey (r_x c0) (r_z c0))) eqn:Ek.
  - apply key_eqb_eq in Ek.
    assert (Hnew0 : ~ In (getChunkKey (r_x c0) (r_z c0)) (loadedChunks s))
      by (rewrite <- Ek; exact Hnew).
    destruct (generateChunk_new s (r_x c0) (r_z c0) (r_lod c0) Hs Hnew0)
      as (chunk & Hget & Hlod).
    exists chunk. rewrite Ek. split.
    + destruct (load_pass cs s1 C1) as (_ & _ & _ & G). apply G. exact Hget.
    + rewrite Hlod. apply Huniq; [left; reflexivity | symmetry; exact Ek].
  - apply key_eqb_neq in Ek.
    apply IH.
    + exact C1.
    + destruct Hin as [<- | Hin]; [congruence | exact Hin].
    + unfold s1. rewrite generateChunk_In by exact Hs. intros [H | H]; auto.
    + intros c' Hc'. apply Huniq. right; exact Hc'.
Qed.

End Streaming.

(** ** The visibility pass and the whole update *)

Section Update.

Import TerrainSystem TerrainSpec.

Lemma chunkVisibility_returns (s : t) (cam : Vec3.t) (planes : option (list plane))
      (c : Chunk.t) :
  Chunk.bounds c <> None -> exists v, chunkVisibility s cam planes c = Some v.
Proof.
  intros Hb. unfold chunkVisibility.
  destruct (Chunk.bounds c) as [b|]; [|congruence].
  destruct (Settings.enableDistanceCulling (settings s)); destruct planes as [ps|];
    try (eexists; reflexivity);
    match goal with
    | |- context [if ?v && ?e then _ else _] => destruct (v && e); eexists; reflexivity
    end.
Qed.

(** The visibility pass returns when every chunk has its bounds, and
    changes nothing of a chunk but its visibility flag. *)
Lemma visibility_pass (s : t) (cam : Vec3.t) (planes : option (list plane))
      (entries : list (Key.t * Chunk.t)) (keys0 : KeySet.t) (triangles0 : Z) :
  Forall (fun e => Chunk.bounds (snd e) <> None) entries ->
  exists done keys total,
    visibilityLoop s cam planes entries keys0 triangles0 = Some (done, keys, total) /\
    map fst done = map fst entries /\
    Forall (fun e => Chunk.bounds (snd e) <> None) done /\
    (forall k c, KeyMap.get entries k = Some c ->
                 exists v, KeyMap.get done k = Some (set_visible c v)).
Proof.
  intros Hb. revert keys0 triangles0.
  induction entries as [|[key chunk] entries IH]; intros keys0 triangles0.
  - exists [], keys0, triangles0. cbn. repeat split; [constructor | discriminate].
  - inversion Hb as [|e l Hc Hrest]; subst. cbn [snd] in Hc.
    destruct (chunkVisibility_returns s cam planes chunk Hc) as [v Ev].
    cbn [visibilityLoop]. rewrite Ev.
    destruct (IH Hrest (if v then KeySet.add keys0 key else keys0)
                 (if v then (triangles0 + Chunk.triangleCount chunk)%Z else triangles0))
      as (done & keys & total & E & Hk & Hbd & Hget).
    rewrite E. exists ((key, set_visible chunk v) :: done), keys, total.
    split; [reflexivity|]. split; [cbn; f_equal; exact Hk|].
    split; [constructor; [exact Hc | exact Hbd]|].
    intros k c. unfold KeyMap.get in *. cbn [find fst snd].
    destruct (Key.eqb k key).
    + intros [= <-]. exists v. reflexivity.
    + apply Hget.
Qed.

Lemma updateVisibility_spec (s : t) (cam : Vec3.t) (planes : option (list plane)) :
  consistent s ->
  exists s',
    updateVisibility s cam planes = Some s' /\
    consistent s' /\ sameSetup s s' /\
    loadedChunks s' = loadedChunks s /\
    (forall k c, KeyMap.get (chunks s) k = Some c ->
                 exists v, KeyMap.get (chunks s') k = Some (set_visible c v)).
Proof.
  intros (Hsync & Hnd & Hb). unfold updateVisibility.
  destruct (visibility_pass s cam planes (chunks s) [] 0 Hb)
    as (done & keys & total & E & Hk & Hbd & Hget).
  rewrite E. eexists. split; [reflexivity|]. cbn.
  split; [|split; [unfold sameSetup; cbn; auto 10 | split; [reflexivity | exact Hget]]].
  unfold consistent. cbn. rewrite Hk. auto.
Qed.

(** [update] returns on a consistent registry; afterwards the loaded
    keys are exactly the required keys, and a chunk that was loaded and
    is still required is the chunk it was, up to its visibility flag. *)
Lemma update_spec (s : t) (cam : Vec3.t) (planes : option (list plane)) :
  consistent s ->
  exists s',
    update s cam planes = Some s' /\
    consistent s' /\ sameSetup s s' /\
    (forall k, In k (loadedChunks s') <-> In k (requiredKeys s cam)) /\
    (forall k c, In k (requiredKeys s cam) ->
                 KeyMap.get (chunks s) k = Some c ->
                 exists v, KeyMap.get (chunks s') k = Some (set_visible c v)) /\
    (forall c, In c (getRequiredChunks s cam) ->
               ~ In (getChunkKey (r_x c) (r_z c)) (loadedChunks s) ->
               (forall c', In c' (getRequiredChunks s cam) ->
                           getChunkKey (r_x c') (r_z c') = getChunkKey (r_x c) (r_z c) ->
                           r_lod c' = r_lod c) ->
               exists chunk,
                 KeyMap.get (chunks s') (getChunkKey (r_x c) (r_z c)) = Some chunk /\
                 Chunk.lod chunk = r_lod c).
Proof.
  intros Hs. unfold update, unloadDistantChunks.
  set (req := getRequiredChunks s cam).
  set (keys := fold_left KeySet.add
                         (map (fun c => getChunkKey (r_x c) (r_z c)) req) []).
  assert (Hkeys : forall k, In k keys <-> In k (requiredKeys s cam)).
  { intros k. unfold keys. rewrite requiredKeys_In. cbn. unfold requiredKeys. tauto. }
  destruct (unload_pass keys (loadedChunks s) s Hs) as (C1 & S1 & L1 & G1).
  set (s1 := fold_left _ (loadedChunks s) s) in *.
  destruct (load_pass req s1 C1) as (C2 & S2 & L2 & G2).
  set (s2 := loadNewChunks s1 req) in *.
  destruct (updateVisibility_spec s2 cam planes C2) as (s3 & E3 & C3 & S3 & L3 & G3).
  rewrite E3. eexists. split; [reflexivity|].
  split; [exact C3|].
  split.
  { apply sameSetup_trans with s1; [exact S1|].
    apply sameSetup_trans with s2; [exact S2|].
    destruct S3 as (A1 & A2 & A3 & A4 & A5 & A6). unfold sameSetup. cbn. auto 10. }
  split; [|split].
  - intros k. cbn [loadedChunks set_stats]. rewrite L3, L2, L1, Hkeys.
    fold (requiredKeys s cam). tauto.
  - intros k c Hk Hget. cbn [chunks set_stats].
    apply G3, G2, G1; [apply Hkeys; exact Hk | exact Hget].
  - intros c Hc Hnew Huniq. cbn [chunks set_stats].
    assert (Hnew1 : ~ In (getChunkKey (r_x c) (r_z c)) (loadedChunks s1))
      by (rewrite L1; tauto).
    destruct (load_pass_new req s1 c C1 Hc Hnew1 Huniq) as (chunk & Hget & Hlod).
    destruct (G3 _ _ Hget) as [v Hv].
    exists (set_visible chunk v). split; [exact Hv | exact Hlod].
Qed.

End Update.

(** ** Every state of a terrain object is consistent *)

Section Reachable.

Import TerrainSystem TerrainSpec.

Lemma unloadAll_pass (ks : list Key.t) (s : t) :
  consistent s ->
  consistent (fold_left unloadChunk ks s) /\ sameSetup s (fold_left unloadChunk ks s).
Proof.
  revert s. induction ks as [|k ks IH]; intros s Hs; cbn [fold_left].
  - split; [exact Hs | apply sameSetup_refl].
  - destruct (IH _ (unloadChunk_consistent s k Hs)) as [C S].
    split; [exact C|]. eapply sameSetup_trans; [|exact S].
    apply unloadChunk_registry. apply Hs.
Qed.

(** The chunks the constructor generates: each key not yet loaded gets
    a chunk at level 0, and chunks already there stay. *)
Lemma row_pass (x : R) (zs : list Z) (s : t) :
  consistent s ->
  let s' := fold_left (fun s z => generateChunk s x (IZR z) 0) zs s in
  consistent s' /\ sameSetup s s' /\
  (forall k, In k (loadedChunks s') <->
             In k (loadedChunks s) \/ exists z, In z zs /\ k = getChunkKey x (IZR z)) /\
  (forall k c, KeyMap.get (chunks s) k = Some c -> KeyMap.get (chunks s') k = Some c) /\
  (Forall (fun e => Chunk.lod (snd e) = 0%Z) (chunks s) ->
   Forall (fun e => Chunk.lod (snd e) = 0%Z) (chunks s')).
Proof.
  revert s. induction zs as [|z zs IH]; intros s Hs; cbn [fold_left].
  - split; [exact Hs|]. split; [apply sameSetup_refl|].
    split; [intros k; cbn; split; [auto | intros [H | [z [[] _]]]; exact H]|]. auto.
  - destruct (IH _ (generateChunk_consistent s x (IZR z) 0 Hs)) as (C & S & L & G & Z0).
    split; [exact C|].
    split; [eapply sameSetup_trans; [apply generateChunk_sameSetup; exact Hs | exact S]|].
    split; [|split].
    + intros k. rewrite L, generateChunk_In by exact Hs. cbn. split.
      * intros [[H | ->] | [z' [Hz ->]]]; eauto.
      * intros [H | [z' [[<- | Hz] ->]]]; eauto.
    + intros k c Hget. apply G, generateChunk_keeps; assumption.
    + intros H0. apply Z0.
      destruct (KeySet.has (loadedChunks s) (getChunkKey x (IZR z))) eqn:E.
      * apply has_In in E. rewrite generateChunk_loaded by exact E. exact H0.
      * apply has_not_In in E.
        destruct (generateChunk_fresh s x (IZR z) 0 (proj1 Hs) E)
          as (c & Ec & _ & Hl & _).
        rewrite Ec. apply Forall_app. split; [exact H0 | repeat constructor; exact Hl].
Qed.

Lemma initial_pass (xs zs : list Z) (s : t) :
  consistent s ->
  let s' := fold_left
              (fun s x => fold_left (fun s z => generateChunk s (IZR x) (IZR z) 0) zs s)
              xs s in
  consistent s' /\ sameSetup s s' /\
  (forall k, In k (loadedChunks s') <->
             In k (loadedChunks s) \/
             exists x z, In x xs /\ In z zs /\ k = Key.ofZ x z) /\
  (forall k c, KeyMap.get (chunks s) k = Some c -> KeyMap.get (chunks s') k = Some c) /\
  (Forall (fun e => Chunk.lod (snd e) = 0%Z) (chunks s) ->
   Forall (fun e => Chunk.lod (snd e) = 0%Z) (chunks s')).
Proof.
  revert s. induction xs as [|x xs IH]; intros s Hs; cbn [fold_left].
  - split; [exact Hs|]. split; [apply sameSetup_refl|].
    split; [intros k; cbn; split; [auto | intros [H | (x & z & [] & _)]; exact H]|]. auto.
  - destruct (row_pass (IZR x) zs s Hs) as (C1 & S1 & L1 & G1 & Z1).
    destruct (IH _ C1) as (C & S & L & G & Z0).
    split; [exact C|]. split; [eapply sameSetup_trans; eassumption|].
    split; [|split; [intros k c H; apply G, G1, H | intros H; apply Z0, Z1, H]].
    intros k. rewrite L, L1. unfold getChunkKey, Key.ofZ. cbn. split.
    + intros [[H | [z [Hz ->]]] | (x' & z & Hx & Hz & ->)]; eauto 10.
    + intros [H | (x' & z & [<- | Hx] & Hz & ->)]; eauto 10.
Qed.

Lemma generateInitialChunks_spec (s : t) :
  consistent s ->
  consistent (generateInitialChunks s) /\ sameSetup s (generateInitialChunks s) /\
  (forall x z, (-2 <= x <= 2)%Z -> (-2 <= z <= 2)%Z ->
               In (Key.ofZ x z) (loadedChunks (generateInitialChunks s))) /\
  (Forall (fun e => Chunk.lod (snd e) = 0%Z) (chunks s) ->
   Forall (fun e => Chunk.lod (snd e) = 0%Z) (chunks (generateInitialChunks s))).
Proof.
  intros Hs. unfold generateInitialChunks.
  destruct (initial_pass (JS.range (- 2) 2) (JS.range (- 2) 2) s Hs)
    as (C & S & L & _ & Z0).
  split; [exact C|]. split; [exact S|]. split; [|exact Z0].
  intros x z Hx Hz. apply L. right. exists x, z.
  rewrite !range_In. auto.
Qed.

Lemma regenerateAllChunks_spec (s : t) :
  consistent s ->
  consistent (regenerateAllChunks s) /\ sameSetup s (regenerateAllChunks s).
Proof.
  intros Hs. unfold regenerateAllChunks, unloadAll.
  destruct (unloadAll_pass (loadedChunks s) s Hs) as [C1 S1].
  destruct (generateInitialChunks_spec _ C1) as (C2 & S2 & _).
  split; [exact C2 | eapply sameSetup_trans; eassumption].
Qed.

Lemma blank_consistent (g : GL.t) (size : Z) (cws rd : R) (lods : Z) (hs : R)
      (pool : list Chunk.t) (vis : KeySet.t) (b : BiomeNoise.t)
      (st : Stats.t) (se : Settings.t) :
  consistent (mk g size cws rd lods hs [] pool [] vis b st se).
Proof. unfold consistent. cbn. repeat split; constructor. Qed.

Lemma sameSetup_founded (s s' : t) : sameSetup s s' -> founded s -> founded s'.
Proof.
  intros (_ & A2 & _ & A4 & A5 & _) (F1 & F2 & F3). unfold founded.
  repeat split; congruence.
Qed.

Lemma new_spec (g : GL.t) :
  consistent (new g) /\ founded (new g) /\
  renderDistance (new g) = 2000 /\
  Settings.autoLOD (settings (new g)) = true /\
  (forall x z, (-2 <= x <= 2)%Z -> (-2 <= z <= 2)%Z ->
               In (Key.ofZ x z) (loadedChunks (new g))) /\
  Forall (fun e => Chunk.lod (snd e) = 0%Z) (chunks (new g)).
Proof.
  unfold new.
  match goal with
  | |- consistent (generateInitialChunks ?s0) /\ _ =>
      destruct (generateInitialChunks_spec s0 (blank_consistent _ _ _ _ _ _ _ _ _ _ _))
        as (C & S & L & Z0)
  end.
  split; [exact C|].
  split; [eapply sameSetup_founded; [exact S|]; repeat split|].
  destruct S as (_ & _ & S3 & _ & _ & S6).
  split; [rewrite S3; reflexivity|].
  split; [rewrite S6; reflexivity|].
  split; [exact L | apply Z0; constructor].
Qed.

Lemma step_preserves (s s' : t) :
  step s s' -> consistent s /\ founded s -> consistent s' /\ founded s'.
Proof.
  intros Hstep [Hs Hf]. destruct Hstep.
  - auto.
  - auto.
  - destruct (update_spec s cameraPosition frustumPlanes Hs) as (s1 & E & C & S & _).
    assert (s1 = s') by congruence. subst.
    split; [exact C | eapply sameSetup_founded; eassumption].
  - split; [apply generateChunk_consistent; exact Hs|].
    eapply sameSetup_founded; [apply generateChunk_sameSetup; exact Hs | exact Hf].
  - split; [apply unloadChunk_consistent; exact Hs|].
    eapply sameSetup_founded; [apply unloadChunk_registry, Hs | exact Hf].
  - unfold updateSettings.
    destruct (Settings.p_chunkSize p) as [size|]; [|split; assumption].
    match goal with
    | |- context [if ?b then _ else _] => destruct b
    end; [|split; assumption].
    match goal with
    | |- consistent (regenerateAllChunks ?s0) /\ _ =>
        destruct (regenerateAllChunks_spec s0 Hs) as [C S]
    end.
    split; [exact C | eapply sameSetup_founded; [exact S | exact Hf]].
  - destruct (regenerateAllChunks_spec s Hs) as [C S].
    split; [exact C | eapply sameSetup_founded; eassumption].
  - unfold destroy.
    destruct (unloadAll_pass (loadedChunks s) s Hs) as [C S].
    split; [apply blank_consistent|].
    apply (sameSetup_founded _ _ S) in Hf. exact Hf.
  - split; assumption.
Qed.

Lemma reachable_consistent (s : t) : reachable s -> consistent s /\ founded s.
Proof.
  induction 1 as [g | s s' _ IH Hstep].
  - destruct (new_spec g) as (C & F & _). auto.
  - eapply step_preserves; eassumption.
Qed.

(** *** The pool *)

Lemma fold_left_invariant {A B : Type} (P : A -> Prop) (f : A -> B -> A)
      (l : list B) (a : A) :
  (forall a b, P a -> P (f a b)) -> P a -> P (fold_left f l a).
Proof.
  intros Hf. revert a. induction l as [|b l IH]; intros a Ha; cbn; auto.
Qed.

Lemma blank_released : released Chunk.blank.
Proof. unfold released. cbn. auto. Qed.

Lemma getChunkFromPool_released (s : t) (c : Chunk.t) (s1 : t) :
  hygienic s -> getChunkFromPool s = (c, s1) -> released c /\ hygienic s1.
Proof.
  unfold hygienic, getChunkFromPool. intros Hp.
  destruct (chunkPool s) as [|c0 pool] eqn:E; intros [= <- <-].
  - split; [apply blank_released | rewrite E; constructor].
  - inversion Hp; subst. split; [assumption | cbn; assumption].
Qed.

Lemma generateChunk_hygienic (s : t) (x z : R) (lod : Z) :
  hygienic s -> hygienic (generateChunk s x z lod).
Proof.
  intros Hp. unfold generateChunk.
  destruct (KeySet.has (loadedChunks s) (getChunkKey x z)); [exact Hp|].
  destruct (getChunkFromPool s) as [c s1] eqn:E.
  destruct (getChunkFromPool_released s c s1 Hp E) as [_ H1].
  destruct (fillChunk s1 c x z lod) as [c' g']. exact H1.
Qed.

Lemma unloadChunk_hygienic (s : t) (key : Key.t) :
  hygienic s -> hygienic (unloadChunk s key).
Proof.
  intros Hp. unfold unloadChunk.
  destruct (KeyMap.get (chunks s) key) as [chunk|]; [|exact Hp].
  destruct (Chunk.buffers chunk); unfold hygienic; cbn;
    (constructor; [unfold released; cbn; auto | exact Hp]).
Qed.

Lemma generateInitialChunks_hygienic (s : t) :
  hygienic s -> hygienic (generateInitialChunks s).
Proof.
  unfold generateInitialChunks. apply fold_left_invariant.
  intros a x. apply fold_left_invariant.
  intros b z. apply generateChunk_hygienic.
Qed.

Lemma unloadAll_hygienic (s : t) : hygienic s -> hygienic (unloadAll s).
Proof.
  unfold unloadAll. apply fold_left_invariant. intros a k. apply unloadChunk_hygienic.
Qed.

Lemma update_hygienic (s s' : t) (cam : Vec3.t) (planes : option (list plane)) :
  hygienic s -> update s cam planes = Some s' -> hygienic s'.
Proof.
  intros Hp. unfold update, updateVisibility.
  match goal with
  | |- context [visibilityLoop ?a ?b ?c ?d ?e ?f] =>
      destruct (visibilityLoop a b c d e f) as [[[entries keys] total]|];
        [|discriminate]
  end.
  intros [= <-]. unfold hygienic. cbn.
  unfold loadNewChunks. apply fold_left_invariant.
  { intros a c H. destruct (KeySet.has _ _); [exact H|].
    apply generateChunk_hygienic. exact H. }
  unfold unloadDistantChunks. apply fold_left_invariant; [|exact Hp].
  intros a k H. destruct (KeySet.has _ _); [exact H|].
  apply unloadChunk_hygienic. exact H.
Qed.

Lemma step_hygienic (s s' : t) : step s s' -> hygienic s -> hygienic s'.
Proof.
  intros Hstep Hp. destruct Hstep.
  - exact Hp.
  - exact Hp.
  - eapply update_hygienic; eassumption.
  - apply generateChunk_hygienic. exact Hp.
  - apply unloadChunk_hygienic. exact Hp.
  - unfold updateSettings.
    destruct (Settings.p_chunkSize p) as [size|]; [|exact Hp].
    match goal with
    | |- context [if ?b then _ else _] => destruct b
    end; [|exact Hp].
    unfold regenerateAllChunks.
    apply generateInitialChunks_hygienic, unloadAll_hygienic. exact Hp.
  - unfold regenerateAllChunks.
    apply generateInitialChunks_hygienic, unloadAll_hygienic. exact Hp.
  - unfold destroy, hygienic. cbn. constructor.
  - exact Hp.
Qed.

Lemma reachable_hygienic (s : t) : reachable s -> hygienic s.
Proof.
  induction 1 as [g | s s' _ IH Hstep].
  - unfold new. apply generateInitialChunks_hygienic. unfold hygienic. cbn. constructor.
  - eapply step_hygienic; eassumption.
Qed.

End Reachable.

(** ** The required set and the grid *)

Section Grid.

Import TerrainSystem TerrainSpec.

Lemma le_floor (k : Z) (r : R) : (k <= JS.floor r)%Z <-> IZR k <= r.
Proof.
  destruct (floor_spec r) as [Hl Hu]. split.
  - intros H. apply IZR_le in H. lra.
  - intros H. apply Z.lt_succ_r. apply lt_IZR. rewrite succ_IZR. lra.
Qed.

(** The values a [for (x = lo; x <= hi; x++)] loop visits. *)
Lemma range_R_In (lo hi x : R) :
  In x (JS.range_R lo hi) <-> exists k : nat, x = lo + INR k /\ x <= hi.
Proof.
  unfold JS.range_R. destruct (Rle_dec lo hi) as [Hle | Hgt].
  - rewrite in_map_iff. split.
    + intros [k [<- Hk]]. exists k. split; [reflexivity|].
      apply in_seq in Hk.
      assert (Hz : (Z.of_nat k <= JS.floor (hi - lo))%Z).
      { assert (0 <= JS.floor (hi - lo))%Z by (apply floor_nonneg; lra). lia. }
      apply le_floor in Hz. rewrite <- INR_IZR_INZ in Hz. lra.
    + intros [k [-> Hk]]. exists k. split; [reflexivity|]. apply in_seq.
      assert (Hz : (Z.of_nat k <= JS.floor (hi - lo))%Z).
      { apply le_floor. rewrite <- INR_IZR_INZ. lra. }
      lia.
  - split; [intros [] |]. intros [k [-> Hk]]. pose proof (pos_INR k). lra.
Qed.

Lemma required_In (s : t) (anchor : Vec3.t) (c : required) :
  In c (getRequiredChunks s anchor) <->
  In (r_x c) (JS.range_R (camChunkX s anchor - maxDistance s)
                         (camChunkX s anchor + maxDistance s)) /\
  In (r_z c) (JS.range_R (camChunkZ s anchor - maxDistance s)
                         (camChunkZ s anchor + maxDistance s)) /\
  r_distance c = gridDistance s anchor (r_x c, r_z c) /\
  r_distance c <= maxDistance s /\
  r_lod c = if Settings.autoLOD (settings s)
            then lodFormula s anchor (r_x c, r_z c) else 0%Z.
Proof.
  unfold getRequiredChunks. fold (camChunkX s anchor) (camChunkZ s anchor) (maxDistance s).
  rewrite in_flat_map. split.
  - intros [x [Hx H]]. apply in_flat_map in H. destruct H as [z [Hz H]].
    destruct (JS.leb _ _) eqn:E in H; [|destruct H].
    destruct H as [<- | []]. cbn [r_x r_z r_distance r_lod].
    apply leb_true in E. repeat split; assumption.
  - intros (Hx & Hz & Hd & Hle & Hlod). exists (r_x c). split; [exact Hx|].
    apply in_flat_map. exists (r_z c). split; [exact Hz|].
    unfold gridDistance in Hd. cbn [fst snd] in Hd. rewrite <- Hd.
    replace (JS.leb (r_distance c) (maxDistance s)) with true
      by (symmetry; apply leb_true; exact Hle).
    left. destruct c as [x z lod d]. cbn [r_x r_z r_distance r_lod] in *.
    rewrite Hlod. unfold lodFormula, gridDistance. cbn [fst snd]. rewrite <- Hd.
    reflexivity.
Qed.

Lemma requiredKeys_In_grid (s : t) (anchor : Vec3.t) (k : Key.t) :
  In k (requiredKeys s anchor) <->
  In (fst k) (JS.range_R (camChunkX s anchor - maxDistance s)
                         (camChunkX s anchor + maxDistance s)) /\
  In (snd k) (JS.range_R (camChunkZ s anchor - maxDistance s)
                         (camChunkZ s anchor + maxDistance s)) /\
  gridDistance s anchor k <= maxDistance s.
Proof.
  unfold requiredKeys. rewrite in_map_iff. unfold getChunkKey. split.
  - intros [c [<- Hc]]. apply required_In in Hc. cbn [fst snd].
    destruct Hc as (Hx & Hz & Hd & Hle & _). rewrite <- Hd. auto.
  - intros (Hx & Hz & Hle). destruct k as [x z]. cbn [fst snd] in *.
    exists (mkRequired x z
              (if Settings.autoLOD (settings s)
               then lodFormula s anchor (x, z) else 0%Z)
              (gridDistance s anchor (x, z))).
    split; [reflexivity|]. apply required_In. cbn [r_x r_z r_distance r_lod]. auto.
Qed.

Lemma abs_le_hypot (a b : R) : Rabs a <= sqrt (a ^ 2 + b ^ 2).
Proof.
  rewrite <- sqrt_Rsqr_abs. apply sqrt_le_1_alt. unfold Rsqr.
  pose proof (Rle_0_sqr b) as H. unfold Rsqr in H. lra.
Qed.

Lemma on_axis (c m x d : R) (i : Z) :
  x = c - m + IZR i -> Rabs (x - c) <= d -> d <= m ->
  In x (JS.range_R (c - m) (c + m)).
Proof.
  intros Hx Ha Hd. apply Rabs_le_inv in Ha. apply range_R_In.
  assert (Hi : (0 <= i)%Z) by (apply le_IZR; lra).
  exists (Z.to_nat i). rewrite INR_IZR_INZ, Z2Nat.id by exact Hi.
  split; [exact Hx | lra].
Qed.

(** A key of the grid within the render distance is required. *)
Lemma grid_key_required (s : t) (anchor : Vec3.t) (k : Key.t) :
  onGrid s anchor k -> gridDistance s anchor k <= maxDistance s ->
  In k (requiredKeys s anchor).
Proof.
  intros [[i Hi] [j Hj]] Hd. apply requiredKeys_In_grid.
  split; [|split; [|exact Hd]].
  - eapply on_axis; [exact Hi | | exact Hd]. apply abs_le_hypot.
  - eapply on_axis; [exact Hj | | exact Hd]. unfold gridDistance.
    rewrite Rplus_comm. apply abs_le_hypot.
Qed.


(** With a render distance of a whole number of chunks, the grid is the
    grid of integer coordinates. *)
Lemma integer_keys_on_grid (s : t) (anchor : Vec3.t) (m x z : Z) :
  maxDistance s = IZR m -> onGrid s anchor (Key.ofZ x z).
Proof.
  intros Hm. unfold onGrid, Key.ofZ, camChunkX, camChunkZ. cbn [fst snd].
  rewrite Hm. split.
  - exists (x - JS.floor (Vec3.x anchor / chunkWorldSize s) + m)%Z.
    rewrite plus_IZR, minus_IZR. ring.
  - exists (z - JS.floor (Vec3.z anchor / chunkWorldSize s) + m)%Z.
    rewrite plus_IZR, minus_IZR. ring.
Qed.

End Grid.

(** ** The constructor's terrain seen from the origin *)

Section AtOrigin.

Import TerrainSystem TerrainSpec.

Variable g : GL.t.

Lemma new_maxDistance : maxDistance (new g) = 4.
Proof.
  destruct (new_spec g) as (_ & (Hw & _) & Hr & _).
  unfold maxDistance. rewrite Hw, Hr. lra.
Qed.

Lemma new_camChunk : camChunkX (new g) origin = 0 /\ camChunkZ (new g) origin = 0.
Proof.
  destruct (new_spec g) as (_ & (Hw & _) & _).
  unfold camChunkX, camChunkZ, origin. cbn [Vec3.x Vec3.z]. rewrite Hw.
  replace (0 / 500) with (IZR 0) by lra. rewrite floor_IZR. auto.
Qed.

Lemma new_gridDistance_axis (x : Z) :
  (0 <= x)%Z -> gridDistance (new g) origin (Key.ofZ x 0) = IZR x.
Proof.
  intros Hx. unfold gridDistance, Key.ofZ. cbn [fst snd].
  destruct new_camChunk as [-> ->].
  replace ((IZR x - 0) ^ 2 + (0 - 0) ^ 2) with (IZR x * IZR x) by ring.
  apply sqrt_square. apply IZR_le in Hx. exact Hx.
Qed.

Lemma new_lodFormula_axis (x : Z) :
  (0 <= x <= 3)%Z -> lodFormula (new g) origin (Key.ofZ x 0) = x.
Proof.
  intros Hx. unfold lodFormula.
  rewrite new_gridDistance_axis by lia. rewrite new_maxDistance.
  destruct (new_spec g) as (_ & (_ & Hl & _) & _). rewrite Hl.
  replace (IZR x / (4 / 4)) with (IZR x) by field.
  rewrite floor_IZR. lia.
Qed.

Lemma new_requires_axis (x : Z) :
  (0 <= x <= 4)%Z -> In (Key.ofZ x 0) (requiredKeys (new g) origin).
Proof.
  intros Hx. apply grid_key_required.
  - apply (integer_keys_on_grid (new g) origin 4). apply new_maxDistance.
  - rewrite new_gridDistance_axis by lia. rewrite new_maxDistance.
    apply IZR_le. lia.
Qed.

Lemma new_holds (x z : Z) :
  (-2 <= x <= 2)%Z -> (-2 <= z <= 2)%Z ->
  exists c, KeyMap.get (chunks (new g)) (Key.ofZ x z) = Some c /\
            Chunk.lod c = 0%Z /\ Chunk.bounds c <> None.
Proof.
  intros Hx Hz.
  destruct (new_spec g) as ((Hsync & _ & Hb) & _ & _ & _ & Hin & Hlod).
  specialize (Hin x z Hx Hz).
  destruct (KeyMap.get (chunks (new g)) (Key.ofZ x z)) as [c|] eqn:E.
  - exists c. split; [reflexivity|].
    apply map_get_In in E. rewrite Forall_forall in Hlod, Hb.
    split; [apply (Hlod _ E) | apply (Hb _ E)].
  - apply map_get_None in E. rewrite Hsync in E. contradiction.
Qed.

End AtOrigin.



(** C1.  In every state a terrain object passes through, and on every
    terrain object, [getHeightAt] and [getBiomeAt] return what the noise
    of seed 12345 gives at the coordinates: any two calls at the same
    coordinates return the same result. *)
Theorem terrain_queries_deterministic (s1 s2 : TerrainSystem.t) (x z : R) :
  TerrainSystem.reachable s1 -> TerrainSystem.reachable s2 ->
  TerrainSystem.getHeightAt s1 x z = TerrainSystem.getHeightAt s2 x z /\
  TerrainSystem.getBiomeAt s1 x z = TerrainSystem.getBiomeAt s2 x z /\
  TerrainSystem.getBiomeAt s1 x z = BiomeNoise.getBiome (BiomeNoise.new 12345) x z /\
  TerrainSystem.getHeightAt s1 x z =
  BiomeNoise.getBlendedHeight (BiomeNoise.new 12345) x z
                              (BiomeNoise.getBiome (BiomeNoise.new 12345) x z).
Proof.
  intros H1 H2.
  destruct (reachable_consistent s1 H1) as [_ (_ & _ & E1)].
  destruct (reachable_consistent s2 H2) as [_ (_ & _ & E2)].
  unfold TerrainSystem.getHeightAt, TerrainSystem.getBiomeAt.
  rewrite E1, E2. repeat split.
Qed.

Lemma terrain_queries_deterministic_witness :
  let s1 := TerrainSystem.new GL.fresh in
  let s2 := TerrainSystem.unloadChunk
              (TerrainSystem.set_renderDistance (TerrainSystem.new (GL.mk 7 [])) 1000)
              (Key.ofZ 0 0) in
  TerrainSystem.getHeightAt s1 100 200 = TerrainSystem.getHeightAt s2 100 200 /\
  TerrainSystem.getBiomeAt s1 100 200 = TerrainSystem.getBiomeAt s2 100 200.
Proof.
  cbv zeta.
  destruct (terrain_queries_deterministic
              (TerrainSystem.new GL.fresh)
              (TerrainSystem.unloadChunk
                 (TerrainSystem.set_renderDistance (TerrainSystem.new (GL.mk 7 [])) 1000)
                 (Key.ofZ 0 0))
              100 200) as (Hh & Hb & _).
  - constructor.
  - eapply TerrainSystem.reachable_step; [|apply TerrainSystem.step_unloadChunk].
    eapply TerrainSystem.reachable_step; [|apply TerrainSystem.step_renderDistance].
    constructor.
  - split; assumption.
Defined.

(** C4, evaluated on the code: the first [update] at the origin of a
    freshly constructed terrain leaves the chunk of key [(2, 0)] at the
    level 0 the constructor gave it, while the distance-bucket formula of
    that very update assigns the key level 2. *)
Theorem stale_lod_after_update :
  let s := TerrainSystem.new GL.fresh in
  exists s' c req,
    TerrainSystem.update s TerrainSpec.origin None = Some s' /\
    KeyMap.get (TerrainSystem.chunks s') (Key.ofZ 2 0) = Some c /\
    TerrainSystem.Chunk.lod c = 0%Z /\
    In req (TerrainSystem.getRequiredChunks s TerrainSpec.origin) /\
    TerrainSystem.getChunkKey (TerrainSystem.r_x req) (TerrainSystem.r_z req)
    = Key.ofZ 2 0 /\
    TerrainSystem.r_lod req = 2%Z /\
    TerrainSpec.lodFormula s TerrainSpec.origin (Key.ofZ 2 0) = 2%Z.
Proof.
  cbv zeta. set (s := TerrainSystem.new GL.fresh).
  destruct (new_spec GL.fresh) as (Hs & _ & _ & Hauto & _). fold s in Hs, Hauto.
  destruct (new_holds GL.fresh 2 0 ltac:(lia) ltac:(lia)) as (c & Hget & Hlod & _).
  fold s in Hget.
  pose proof (new_requires_axis GL.fresh 2 ltac:(lia)) as Hreq. fold s in Hreq.
  destruct (update_spec s TerrainSpec.origin None Hs) as (s' & E & _ & _ & _ & G & _).
  destruct (G _ c Hreq Hget) as [v Hv].
  pose proof Hreq as Hreq'. unfold TerrainSpec.requiredKeys in Hreq'.
  apply in_map_iff in Hreq'. destruct Hreq' as [req [Hkey Hin]].
  exists s', (TerrainSystem.set_visible c v), req.
  split; [exact E|]. split; [exact Hv|]. split; [exact Hlod|].
  split; [exact Hin|]. split; [exact Hkey|].
  pose proof (new_lodFormula_axis GL.fresh 2 ltac:(lia)) as Hf. fold s in Hf.
  split; [|exact Hf].
  apply required_In in Hin. destruct Hin as (_ & _ & _ & _ & Hl).
  rewrite Hauto in Hl. rewrite Hl.
  unfold TerrainSystem.getChunkKey in Hkey. rewrite Hkey. exact Hf.
Qed.

(** What [update] does about levels of detail: a chunk that was loaded
    and is still required keeps the level it was generated with, and a
    required key that was not loaded gets the level the distance-bucket
    formula of this update assigns it. *)
Lemma lod_is_fixed_at_generation
      (s : TerrainSystem.t) (anchor : Vec3.t)
      (planes : option (list TerrainSystem.plane)) :
  TerrainSystem.reachable s ->
  exists s',
    TerrainSystem.update s anchor planes = Some s' /\
    (forall k c,
        In k (TerrainSpec.requiredKeys s anchor) ->
        KeyMap.get (TerrainSystem.chunks s) k = Some c ->
        exists c', KeyMap.get (TerrainSystem.chunks s') k = Some c' /\
                   TerrainSystem.Chunk.lod c' = TerrainSystem.Chunk.lod c) /\
    (forall k,
        In k (TerrainSpec.requiredKeys s anchor) ->
        ~ In k (TerrainSystem.loadedChunks s) ->
        exists c', KeyMap.get (TerrainSystem.chunks s') k = Some c' /\
                   TerrainSystem.Chunk.lod c' =
                   if TerrainSystem.Settings.autoLOD (TerrainSystem.settings s)
                   then TerrainSpec.lodFormula s anchor k else 0%Z).
Proof.
  intros Hr. destruct (reachable_consistent s Hr) as [Hs _].
  destruct (update_spec s anchor planes Hs) as (s' & E & _ & _ & _ & G & N).
  exists s'. split; [exact E|]. split.
  - intros k c Hk Hget. destruct (G k c Hk Hget) as [v Hv].
    exists (TerrainSystem.set_visible c v). split; [exact Hv | reflexivity].
  - intros k Hk Hnew. unfold TerrainSpec.requiredKeys in Hk.
    apply in_map_iff in Hk. destruct Hk as [c [<- Hc]].
    assert (Hlod : forall c', In c' (TerrainSystem.getRequiredChunks s anchor) ->
              TerrainSystem.r_lod c' =
              if TerrainSystem.Settings.autoLOD (TerrainSystem.settings s)
              then TerrainSpec.lodFormula s anchor
                     (TerrainSystem.getChunkKey (TerrainSystem.r_x c') (TerrainSystem.r_z c'))
              else 0%Z).
    { intros c' Hc'. apply required_In in Hc'. tauto. }
    destruct (N c Hc Hnew) as (chunk & Hget & Hl).
    + intros c' Hc' Hkey. rewrite (Hlod c' Hc'), (Hlod c Hc), Hkey. reflexivity.
    + exists chunk. split; [exact Hget|]. rewrite Hl. apply Hlod. exact Hc.
Qed.

(** What the pool does to a chunk it takes back and hands out again:
    the two data arrays, the buffer handles and the visibility flag are
    reset; everything else is the previous tenant's. *)
Lemma pool_round_trip (s : TerrainSystem.t) (chunk : TerrainSystem.Chunk.t) :
  let c := fst (TerrainSystem.getChunkFromPool
                  (TerrainSystem.returnChunkToPool s chunk)) in
  TerrainSystem.Chunk.vertices c = None /\
  TerrainSystem.Chunk.indices c = None /\
  TerrainSystem.Chunk.buffers c = None /\
  TerrainSystem.Chunk.visible c = false /\
  TerrainSystem.Chunk.bounds c = TerrainSystem.Chunk.bounds chunk /\
  TerrainSystem.Chunk.transform c = TerrainSystem.Chunk.transform chunk /\
  TerrainSystem.Chunk.triangleCount c = TerrainSystem.Chunk.triangleCount chunk /\
  TerrainSystem.Chunk.lod c = TerrainSystem.Chunk.lod chunk /\
  TerrainSystem.Chunk.key c = TerrainSystem.Chunk.key chunk.
Proof. cbn. repeat split. Qed.

(** Unloading a chunk and then taking a chunk from the pool hands back
    the unloaded chunk, reset as [pool_round_trip] says. *)
Lemma unload_then_acquire (s : TerrainSystem.t) (key : Key.t)
      (previous : TerrainSystem.Chunk.t) :
  KeyMap.get (TerrainSystem.chunks s) key = Some previous ->
  exists c s1,
    TerrainSystem.getChunkFromPool (TerrainSystem.unloadChunk s key) = (c, s1) /\
    TerrainSystem.Chunk.bounds c = TerrainSystem.Chunk.bounds previous /\
    TerrainSystem.Chunk.vertices c = None.
Proof.
  intros Hget. unfold TerrainSystem.unloadChunk. rewrite Hget.
  destruct (TerrainSystem.Chunk.buffers previous); cbn;
    eexists; eexists; repeat split.
Qed.

(** C5, as stated, fails: unload the chunk of key [(0, 0)] of a freshly
    constructed terrain and take a chunk from the pool; it still carries
    the bounding box of the unloaded chunk, where a chunk made anew has
    none. *)
Lemma pooled_chunk_keeps_bounds :
  let s := TerrainSystem.new GL.fresh in
  exists previous c s1 b,
    KeyMap.get (TerrainSystem.chunks s) (Key.ofZ 0 0) = Some previous /\
    TerrainSystem.getChunkFromPool (TerrainSystem.unloadChunk s (Key.ofZ 0 0)) = (c, s1) /\
    TerrainSystem.Chunk.bounds c = Some b /\
    TerrainSystem.Chunk.bounds c = TerrainSystem.Chunk.bounds previous /\
    TerrainSystem.Chunk.vertices c = None /\
    TerrainSystem.Chunk.bounds TerrainSystem.Chunk.blank = None.
Proof.
  cbv zeta.
  destruct (new_holds GL.fresh 0 0 ltac:(lia) ltac:(lia)) as (c0 & Hget & _ & Hb).
  destruct (TerrainSystem.Chunk.bounds c0) as [b|] eqn:Eb; [|congruence].
  destruct (unload_then_acquire _ _ _ Hget) as (c & s1 & E & Hbounds & Hv).
  exists c0, c, s1, b. rewrite Hbounds, Eb. auto 10.
Qed.

(** C5, amended.  Releasing a chunk resets its geometry arrays, its
    buffer handles and its visibility flag, and leaves its bounding box
    as it was; in every state a terrain object passes through, a chunk
    acquired from the pool is in that released condition, and what
    [generateChunk] makes of it is what it makes of a chunk made anew:
    nothing of the previous tenant is left in a chunk once generated. *)
Theorem pool_hygiene (s : TerrainSystem.t) :
  TerrainSystem.reachable s ->
  (forall chunk,
      let c := fst (TerrainSystem.getChunkFromPool
                      (TerrainSystem.returnChunkToPool s chunk)) in
      TerrainSpec.released c /\
      TerrainSystem.Chunk.bounds c = TerrainSystem.Chunk.bounds chunk /\
      TerrainSystem.Chunk.transform c = TerrainSystem.Chunk.transform chunk /\
      TerrainSystem.Chunk.triangleCount c = TerrainSystem.Chunk.triangleCount chunk /\
      TerrainSystem.Chunk.lod c = TerrainSystem.Chunk.lod chunk /\
      TerrainSystem.Chunk.key c = TerrainSystem.Chunk.key chunk) /\
  (forall c s1,
      TerrainSystem.getChunkFromPool s = (c, s1) ->
      TerrainSpec.released c /\
      forall x z lod,
        TerrainSystem.fillChunk s1 c x z lod
        = TerrainSystem.fillChunk s1 TerrainSystem.Chunk.blank x z lod).
Proof.
  intros Hr. split.
  - intros chunk. cbn. unfold TerrainSpec.released. cbn. auto 10.
  - intros c s1 E.
    destruct (getChunkFromPool_released s c s1 (reachable_hygienic s Hr) E) as [Hc _].
    split; [exact Hc|]. intros x z lod.
    apply fillChunk_of_released. apply Hc.
Qed.

Lemma pool_hygiene_witness :
  let s := TerrainSystem.unloadChunk (TerrainSystem.new GL.fresh) (Key.ofZ 0 0) in
  TerrainSystem.reachable s /\
  (forall chunk,
      let c := fst (TerrainSystem.getChunkFromPool
                      (TerrainSystem.returnChunkToPool s chunk)) in
      TerrainSpec.released c /\
      TerrainSystem.Chunk.bounds c = TerrainSystem.Chunk.bounds chunk /\
      TerrainSystem.Chunk.transform c = TerrainSystem.Chunk.transform chunk /\
      TerrainSystem.Chunk.triangleCount c = TerrainSystem.Chunk.triangleCount chunk /\
      TerrainSystem.Chunk.lod c = TerrainSystem.Chunk.lod chunk /\
      TerrainSystem.Chunk.key c = TerrainSystem.Chunk.key chunk) /\
  (forall c s1,
      TerrainSystem.getChunkFromPool s = (c, s1) ->
      TerrainSpec.released c /\
      forall x z lod,
        TerrainSystem.fillChunk s1 c x z lod
        = TerrainSystem.fillChunk s1 TerrainSystem.Chunk.blank x z lod).
Proof.
  cbv zeta.
  assert (Hr : TerrainSystem.reachable
                 (TerrainSystem.unloadChunk (TerrainSystem.new GL.fresh) (Key.ofZ 0 0))).
  { eapply TerrainSystem.reachable_step; [constructor | apply TerrainSystem.step_unloadChunk]. }
  split; [exact Hr|].
  apply (pool_hygiene
           (TerrainSystem.unloadChunk (TerrainSystem.new GL.fresh) (Key.ofZ 0 0)) Hr).
Defined.


(** The distance that decides is measured in chunks from the anchor's
    chunk, not in world units from the anchor: from the anchor
    [(499, 0, 0)] of the constructor's terrain the chunk [(4, 1)], whose
    corner [(2000, 0, 500)] is nearer than the render distance of 2000,
    is not loaded after [update]. *)
Lemma grid_distance_is_from_the_anchor_chunk :
  let s := TerrainSystem.new GL.fresh in
  let anchor := Vec3.mk 499 0 0 in
  Vec3.distance anchor (Vec3.mk 2000 0 500) < TerrainSystem.renderDistance s /\
  exists s',
    TerrainSystem.update s anchor None = Some s' /\
    ~ In (Key.ofZ 4 1) (TerrainSystem.loadedChunks s').
Proof.
  cbv zeta.
  destruct (new_spec GL.fresh) as (Hs & (Hw & _) & Hrd & _).
  split.
  { rewrite Hrd. unfold Vec3.distance, Vec3.subtract, Vec3.length.
    cbn [Vec3.x Vec3.y Vec3.z].
    match goal with
    | |- sqrt ?e < _ =>
        assert (H : sqrt e < sqrt (2000 * 2000)) by (apply sqrt_lt_1_alt; lra)
    end.
    rewrite sqrt_square in H by lra. exact H. }
  destruct (update_spec (TerrainSystem.new GL.fresh) (Vec3.mk 499 0 0) None Hs)
    as (s' & E & _ & _ & L & _).
  exists s'. split; [exact E|]. intros Hin. apply L in Hin.
  apply requiredKeys_In_grid in Hin. destruct Hin as (_ & _ & Hd).
  rewrite new_maxDistance in Hd.
  unfold TerrainSpec.gridDistance, TerrainSpec.camChunkX, TerrainSpec.camChunkZ,
    Key.ofZ in Hd.
  cbn [fst snd Vec3.x Vec3.z] in Hd. rewrite Hw in Hd.
  replace (JS.floor (499 / 500)) with 0%Z in Hd
    by (symmetry; apply floor_unique; lra).
  replace (0 / 500) with (IZR 0) in Hd by lra. rewrite floor_IZR in Hd.
  replace ((4 - 0) ^ 2 + (1 - 0) ^ 2) with 17 in Hd by ring.
  assert (H4 : sqrt (4 * 4) < sqrt 17) by (apply sqrt_lt_1_alt; lra).
  rewrite sqrt_square in H4 by lra. lra.
Qed.

(** * Further properties of the noise field *)

Section Shuffle.

Import NoiseGenerator.

Lemma random_unit (state : Z) : 0 <= fst (random state) < 1.
Proof.
  unfold random. cbn [fst].
  pose proof (floor_spec (sin (IZR state) * 10000)). lra.
Qed.

(** The index [j] drawn in pass [i] of the shuffle is one of [0..i]. *)
Lemma shuffle_index (i : nat) (r : R) :
  0 <= r < 1 -> (Z.to_nat (JS.floor (r * (INR i + 1))) <= i)%nat.
Proof.
  intros [H0 H1].
  pose proof (pos_INR i) as Hi.
  assert (Hlo : 0 <= r * (INR i + 1)) by (apply Rmult_le_pos; lra).
  assert (Hhi : r * (INR i + 1) < INR i + 1).
  { rewrite <- (Rmult_1_l (INR i + 1)) at 2.
    apply Rmult_lt_compat_r; lra. }
  pose proof (floor_spec (r * (INR i + 1))) as [Hf _].
  pose proof (floor_nonneg _ Hlo) as Hn.
  assert (Hlt : (JS.floor (r * (INR i + 1)) < Z.of_nat i + 1)%Z).
  { apply lt_IZR. rewrite plus_IZR, <- INR_IZR_INZ. lra. }
  lia.
Qed.

Lemma set_head_perm (l : list Z) (j : nat) (h : Z) :
  (j < length l)%nat -> Permutation (nth j l 0%Z :: JS.set l j h) (h :: l).
Proof.
  revert j; induction l as [|a l IH]; intros [|j] Hj; simpl in *; try lia.
  - apply perm_swap.
  - eapply perm_trans; [apply perm_swap|].
    eapply perm_trans; [apply perm_skip, IH; lia|].
    apply perm_swap.
Qed.

Lemma set_set_same (l : list Z) (i : nat) (v w : Z) :
  JS.set (JS.set l i v) i w = JS.set l i w.
Proof.
  revert i; induction l as [|a l IH]; intros [|i]; simpl; try reflexivity.
  rewrite IH. reflexivity.
Qed.

Lemma set_nth_same (l : list Z) (i : nat) : JS.set l i (nth i l 0%Z) = l.
Proof.
  revert i; induction l as [|a l IH]; intros [|i]; simpl; try reflexivity.
  rewrite IH. reflexivity.
Qed.

(** Exchanging two entries that the array has rearranges it. *)
Lemma swap_perm (p : list Z) (i j : nat) :
  (i < length p)%nat -> (j < length p)%nat -> Permutation (swap p i j) p.
Proof.
  unfold swap. revert i j; induction p as [|a p IH]; intros [|i] [|j] Hi Hj;
    simpl in *; try lia.
  - apply Permutation_refl.
  - apply set_head_perm. lia.
  - apply set_head_perm. lia.
  - apply perm_skip, IH; lia.
Qed.

Lemma shuffle_perm (i : nat) (state : Z) (p : list Z) :
  (i < length p)%nat -> Permutation (shuffle i state p) p.
Proof.
  revert state p; induction i as [|i IH]; intros state p Hi; [apply Permutation_refl|].
  cbn [shuffle].
  pose proof (random_unit state) as Hr.
  destruct (random state) as [r state'] eqn:E. cbn [fst] in Hr.
  pose proof (shuffle_index (S i) r Hr) as Hj.
  eapply perm_trans.
  - apply IH. rewrite swap_length. lia.
  - apply swap_perm; lia.
Qed.

Lemma of_nat_NoDup (l : list nat) : NoDup l -> NoDup (map Z.of_nat l).
Proof.
  induction l as [|a l IH]; intros Hl; simpl; [constructor|].
  inversion Hl; subst. constructor; [|apply IH; assumption].
  rewrite in_map_iff. intros [b [Hb Hin]].
  apply Nat2Z.inj in Hb. subst. contradiction.
Qed.

Lemma shuffled_identity (n : nat) (seed : Z) :
  Permutation (shuffle n seed (map Z.of_nat (seq 0 (S n)))) (map Z.of_nat (seq 0 (S n))) /\
  NoDup (shuffle n seed (map Z.of_nat (seq 0 (S n)))) /\
  forall v, In v (shuffle n seed (map Z.of_nat (seq 0 (S n)))) <->
            (0 <= v < Z.of_nat (S n))%Z.
Proof.
  assert (Hp : Permutation (shuffle n seed (map Z.of_nat (seq 0 (S n))))
                           (map Z.of_nat (seq 0 (S n)))).
  { apply shuffle_perm. rewrite length_map, length_seq. lia. }
  split; [exact Hp|]. split.
  - eapply Permutation_NoDup; [apply Permutation_sym, Hp|].
    apply of_nat_NoDup, seq_NoDup.
  - intros v. split.
    + intros Hv. apply (Permutation_in _ Hp) in Hv.
      apply in_map_iff in Hv.
      destruct Hv as [k [<- Hk]]. apply in_seq in Hk. lia.
    + intros Hv. apply (Permutation_in _ (Permutation_sym Hp)).
      apply in_map_iff. exists (Z.to_nat v).
      split; [lia|]. apply in_seq. lia.
Qed.

End Shuffle.

(** X1.  Whatever the seed, the permutation table the constructor builds
    is one rearrangement of the bytes 0..255 written twice: every byte
    value occurs exactly once in each half. *)
Theorem permutation_table_is_a_doubled_permutation (seed : Z) :
  exists p,
    NoiseGenerator.generatePermutation seed = p ++ p /\
    Permutation p (map Z.of_nat (seq 0 256)) /\
    NoDup p /\
    forall v, In v p <-> (0 <= v < 256)%Z.
Proof.
  exists (NoiseGenerator.shuffle 255 seed (map Z.of_nat (seq 0 256))).
  split; [reflexivity|].
  destruct (shuffled_identity 255 seed) as [Hp [Hn Hv]].
  split; [exact Hp|]. split; [exact Hn|].
  intros v. rewrite Hv. rewrite Nat2Z.inj_succ.
  change (Z.of_nat 255) with 255%Z. lia.
Qed.

(** X2.  On a generator built by the constructor, whatever the seed and
    the sample point, every index at which [perlin2D] reads the
    permutation table lies inside the table: no read is [undefined]. *)
Theorem perlin2D_reads_inside_the_table (seed : Z) (x y : R) :
  length (NoiseGenerator.permutation (NoiseGenerator.new seed)) = 512%nat /\
  Forall (fun i => (0 <= i < 512)%Z)
         (NoiseGenerator.perlin2D_indices (NoiseGenerator.new seed) x y).
Proof.
  destruct (generatePermutation_table seed) as [Hlen _].
  split; [exact Hlen|].
  unfold NoiseGenerator.perlin2D_indices.
  pose proof (land255 (JS.floor x)) as HX.
  pose proof (land255 (JS.floor y)) as HY.
  pose proof (perm_entry seed) as Hp. unfold NoiseGenerator.entry in Hp.
  set (X := Z.land (JS.floor x) 255) in *.
  set (Y := Z.land (JS.floor y) 255) in *.
  pose proof (Hp X) as H1. pose proof (Hp (X + 1)%Z) as H2.
  set (A := (NoiseGenerator.perm (NoiseGenerator.new seed) X + Y)%Z) in *.
  set (B := (NoiseGenerator.perm (NoiseGenerator.new seed) (X + 1) + Y)%Z) in *.
  pose proof (Hp A) as H3. pose proof (Hp B) as H4.
  pose proof (Hp (A + 1)%Z) as H5. pose proof (Hp (B + 1)%Z) as H6.
  repeat (apply Forall_cons || apply Forall_nil); lia.
Qed.

Section Lattice.

Import NoiseGenerator.

Lemma grad_origin (hash : Z) : grad hash 0 0 = 0.
Proof.
  unfold grad.
  destruct (Z.land hash 3 <? 2)%Z, (Z.land (Z.land hash 3) 1 =? 0)%Z,
           (Z.land (Z.land hash 3) 2 =? 0)%Z; lra.
Qed.

Lemma fade_0 : fade 0 = 0.
Proof. unfold fade. ring. Qed.

Lemma perlin2D_lattice (g : t) (i j : Z) : perlin2D g (IZR i) (IZR j) = 0.
Proof.
  unfold perlin2D. rewrite !floor_IZR.
  replace (IZR i - IZR i) with 0 by ring.
  replace (IZR j - IZR j) with 0 by ring.
  rewrite fade_0. unfold lerp. rewrite grad_origin. ring.
Qed.

Lemma floor_shift (r : R) (k : Z) : JS.floor (r + IZR k) = (JS.floor r + k)%Z.
Proof.
  apply floor_unique. rewrite plus_IZR.
  pose proof (floor_spec r). lra.
Qed.

Lemma land255_shift (v : Z) : Z.land (v + 256) 255 = Z.land v 255.
Proof.
  change 255%Z with (Z.ones 8). rewrite !Z.land_ones by lia.
  change (2 ^ 8)%Z with 256%Z.
  replace (v + 256)%Z with (v + 1 * 256)%Z by lia.
  apply Z.mod_add. lia.
Qed.

Lemma perlin2D_shift_x (g : t) (x y : R) : perlin2D g (x + 256) y = perlin2D g x y.
Proof.
  unfold perlin2D. rewrite (floor_shift x 256), land255_shift.
  replace (x + 256 - IZR (JS.floor x + 256)) with (x - IZR (JS.floor x))
    by (rewrite plus_IZR; ring).
  reflexivity.
Qed.

Lemma perlin2D_shift_y (g : t) (x y : R) : perlin2D g x (y + 256) = perlin2D g x y.
Proof.
  unfold perlin2D. rewrite (floor_shift y 256), land255_shift.
  replace (y + 256 - IZR (JS.floor y + 256)) with (y - IZR (JS.floor y))
    by (rewrite plus_IZR; ring).
  reflexivity.
Qed.

(** A sample whose scaled coordinates are whole numbers at the first
    octave is on the lattice at every octave. *)
Lemma octaves_loop_lattice (shape : R -> R) (g : t) (x y p : R) (n : nat) (a : acc) :
  (exists i, x * frequency a = IZR i) -> (exists j, y * frequency a = IZR j) ->
  value (octaves_loop shape g x y p n a)
  = value a + shape 0 * (maxValue (octaves_loop shape g x y p n a) - maxValue a).
Proof.
  revert a; induction n as [|n IH]; intros a [i Hi] [j Hj]; cbn [octaves_loop].
  - ring.
  - rewrite IH; cbn [value amplitude frequency maxValue].
    + rewrite Hi, Hj, perlin2D_lattice. ring.
    + exists (i * 2)%Z. rewrite mult_IZR, <- Hi. ring.
    + exists (j * 2)%Z. rewrite mult_IZR, <- Hj. ring.
Qed.

End Lattice.

(** X3.  The base noise vanishes at every point with whole-number
    coordinates, whatever the permutation table. *)
Theorem perlin2D_vanishes_on_the_lattice (g : NoiseGenerator.t) (i j : Z) :
  NoiseGenerator.perlin2D g (IZR i) (IZR j) = 0.
Proof. apply perlin2D_lattice. Qed.

(** X4.  The base noise repeats with period 256 along each axis. *)
Theorem perlin2D_has_period_256 (g : NoiseGenerator.t) (x y : R) (i j : Z) :
  NoiseGenerator.perlin2D g (x + 256 * IZR i) (y + 256 * IZR j)
  = NoiseGenerator.perlin2D g x y.
Proof.
  assert (Hx : forall (n : nat) a b,
             NoiseGenerator.perlin2D g (a + 256 * INR n) b = NoiseGenerator.perlin2D g a b).
  { induction n as [|n IH]; intros a b.
    - simpl. replace (a + 256 * 0) with a by ring. reflexivity.
    - rewrite S_INR.
      replace (a + 256 * (INR n + 1)) with (a + 256 * INR n + 256) by ring.
      rewrite perlin2D_shift_x. apply IH. }
  assert (Hy : forall (n : nat) a b,
             NoiseGenerator.perlin2D g a (b + 256 * INR n) = NoiseGenerator.perlin2D g a b).
  { induction n as [|n IH]; intros a b.
    - simpl. replace (b + 256 * 0) with b by ring. reflexivity.
    - rewrite S_INR.
      replace (b + 256 * (INR n + 1)) with (b + 256 * INR n + 256) by ring.
      rewrite perlin2D_shift_y. apply IH. }
  assert (Hxz : forall k a b,
             NoiseGenerator.perlin2D g (a + 256 * IZR k) b = NoiseGenerator.perlin2D g a b).
  { intros k a b. destruct (Z.le_gt_cases 0 k) as [Hk | Hk].
    - rewrite <- (Z2Nat.id k Hk), <- INR_IZR_INZ. apply Hx.
    - rewrite <- (Hx (Z.to_nat (- k)) (a + 256 * IZR k) b).
      rewrite INR_IZR_INZ, Z2Nat.id by lia. rewrite opp_IZR.
      f_equal. ring. }
  assert (Hyz : forall k a b,
             NoiseGenerator.perlin2D g a (b + 256 * IZR k) = NoiseGenerator.perlin2D g a b).
  { intros k a b. destruct (Z.le_gt_cases 0 k) as [Hk | Hk].
    - rewrite <- (Z2Nat.id k Hk), <- INR_IZR_INZ. apply Hy.
    - rewrite <- (Hy (Z.to_nat (- k)) a (b + 256 * IZR k)).
      rewrite INR_IZR_INZ, Z2Nat.id by lia. rewrite opp_IZR.
      f_equal. ring. }
  rewrite Hxz. apply Hyz.
Qed.

(** * Further properties of the fractal combinators and the biome field *)

Section Fractal.

Import NoiseGenerator.

Lemma octaveNoise2D_range (g : t) (x y : R) (n : nat) (p scale : R) :
  (1 <= n)%nat -> 0 < p -> -1 <= octaveNoise2D g x y n p scale <= 1.
Proof.
  intros Hn Hp. unfold octaveNoise2D.
  pose proof (start_maxValue_pos (fun v => v) g x y p scale n Hp Hn) as Hm.
  split.
  - apply quotient_lower; [assumption|].
    apply octaves_loop_lower; simpl; try lra.
    intros r Hr. apply Rabs_le_inv in Hr. lra.
  - apply quotient_upper; [assumption|].
    apply octaves_loop_upper; simpl; try lra.
    intros r Hr. apply Rabs_le_inv in Hr. lra.
Qed.

Lemma ridge_unit (r : R) : Rabs r <= 1 -> 0 <= (1 - Rabs r) * (1 - Rabs r) <= 1.
Proof.
  intros Hr. pose proof (Rabs_pos r) as H0. split.
  - apply Rmult_le_pos; lra.
  - replace 1 with (1 * 1) at 3 by ring.
    apply Rmult_le_compat; lra.
Qed.

Lemma ridgedNoise2D_range (g : t) (x y : R) (n : nat) (p scale : R) :
  (1 <= n)%nat -> 0 < p -> 0 <= ridgedNoise2D g x y n p scale <= 1.
Proof.
  intros Hn Hp. unfold ridgedNoise2D.
  match goal with
  | |- _ <= value (octaves_loop ?shape _ _ _ _ _ _) / _ <= _ =>
      pose proof (start_maxValue_pos shape g x y p scale n Hp Hn) as Hm
  end.
  split.
  - apply quotient_lower; [assumption|].
    apply octaves_loop_lower; simpl; try lra.
    intros r Hr. cbv zeta. apply ridge_unit, Hr.
  - apply quotient_upper; [assumption|].
    apply octaves_loop_upper; simpl; try lra.
    intros r Hr. cbv zeta. apply ridge_unit, Hr.
Qed.

Lemma billow2D_range (g : t) (x y : R) (n : nat) (p scale : R) :
  (1 <= n)%nat -> 0 < p -> 0 <= billow2D g x y n p scale <= 1.
Proof.
  intros Hn Hp. unfold billow2D.
  pose proof (start_maxValue_pos Rabs g x y p scale n Hp Hn) as Hm.
  split.
  - apply quotient_lower; [assumption|].
    apply octaves_loop_lower; simpl; try lra.
    intros r _. apply Rabs_pos.
  - apply quotient_upper; [assumption|].
    apply octaves_loop_upper; simpl; try lra.
    intros r Hr. lra.
Qed.

(** On the lattice of the first octave the three combinators return
    the shaped value of a zero sample. *)
Lemma fractal_lattice (shape : R -> R) (g : t) (x y : R) (n : nat) (p scale : R) :
  (1 <= n)%nat -> 0 < p ->
  (exists i, x * scale = IZR i) -> (exists j, y * scale = IZR j) ->
  value (octaves_loop shape g x y p n (start scale))
  / maxValue (octaves_loop shape g x y p n (start scale)) = shape 0.
Proof.
  intros Hn Hp Hx Hy.
  pose proof (start_maxValue_pos shape g x y p scale n Hp Hn) as Hm.
  rewrite (octaves_loop_lattice shape g x y p n (start scale) Hx Hy).
  cbn [value maxValue start]. field. lra.
Qed.

End Fractal.

(** X5.  [ridgedNoise2D] and [billow2D] never exceed 1, for at least one
    octave and a positive persistence: with the lower bound 0 their range
    is the unit interval. *)
Theorem ridged_billow_at_most_one
        (g : NoiseGenerator.t) (x y : R) (octaves : nat) (persistence scale : R) :
  (1 <= octaves)%nat -> 0 < persistence ->
  NoiseGenerator.ridgedNoise2D g x y octaves persistence scale <= 1 /\
  NoiseGenerator.billow2D g x y octaves persistence scale <= 1.
Proof.
  intros Hn Hp. split.
  - apply ridgedNoise2D_range; assumption.
  - apply billow2D_range; assumption.
Qed.

Lemma ridged_billow_at_most_one_witness :
  NoiseGenerator.ridgedNoise2D (NoiseGenerator.new 12345) 3 4 4 0.4 1 <= 1 /\
  NoiseGenerator.billow2D (NoiseGenerator.new 12345) 3 4 4 0.4 1 <= 1.
Proof.
  apply (ridged_billow_at_most_one (NoiseGenerator.new 12345) 3 4 4 0.4 1); [lia | lra].
Defined.

Section Heights.

Import BiomeNoise.

Lemma getElevation_range (b : t) (x y : R) : -0.7 <= getElevation b x y <= 1.
Proof.
  unfold getElevation.
  pose proof (octaveNoise2D_range (elevation b) (x * 0.0005) (y * 0.0005) 6 0.7 1
                                  ltac:(lia) ltac:(lra)).
  pose proof (ridgedNoise2D_range (elevation b) (x * 0.002) (y * 0.002) 4 0.4 1
                                  ltac:(lia) ltac:(lra)).
  lra.
Qed.

(** Every rule after the first is reached only with an elevation of at
    most 0.6, and the city rule asks for less than 0.1. *)
Lemma getBiome_elevation (b : t) (x y : R) :
  (getBiome b x y <> mountain -> getElevation b x y <= 0.6) /\
  (getBiome b x y = city -> getElevation b x y < 0.1).
Proof.
  unfold getBiome.
  destruct (JS.gtb (getElevation b x y) 0.6) eqn:E1.
  { split; intros H; [contradiction | discriminate]. }
  apply gtb_false in E1.
  split; [intros _; exact E1|].
  destruct (JS.ltb (getTemperature b x y) (-0.3)); [discriminate|].
  destruct (JS.ltb (getHumidity b x y) (-0.3) && JS.gtb (getTemperature b x y) 0.2);
    [discriminate|].
  destruct (JS.gtb (getHumidity b x y) 0.4 && JS.gtb (getTemperature b x y) (-0.1));
    [discriminate|].
  destruct (JS.ltb (getElevation b x y) 0.1) eqn:E5; [|simpl; discriminate].
  intros _. apply ltb_true in E5. exact E5.
Qed.

End Heights.

(** X6.  The terrain height is bounded, biome by biome: a mountain lies
    in [-140, 300], a desert in [-35, 60], a forest in [-76, 68], plains
    in [-57, 51], and a city is flat ground in [0, 2).  So no query of
    [getHeightAt] leaves [-140, 300]. *)
Theorem terrain_height_is_bounded (s : TerrainSystem.t) (x z : R) :
  let h := TerrainSystem.getHeightAt s x z in
  match TerrainSystem.getBiomeAt s x z with
  | BiomeNoise.mountain => -140 <= h <= 300
  | BiomeNoise.desert => -35 <= h <= 60
  | BiomeNoise.forest => -76 <= h <= 68
  | BiomeNoise.plains => -57 <= h <= 51
  | BiomeNoise.city => 0 <= h < 2
  end /\
  -140 <= h <= 300.
Proof.
  cbv zeta. unfold TerrainSystem.getHeightAt, TerrainSystem.getBiomeAt.
  set (b := TerrainSystem.biomeNoise s).
  pose proof (getElevation_range b x z) as He.
  destruct (getBiome_elevation b x z) as [Hm Hc].
  assert (Hcase :
    match BiomeNoise.getBiome b x z with
    | BiomeNoise.mountain =>
        -140 <= BiomeNoise.getBlendedHeight b x z BiomeNoise.mountain <= 300
    | BiomeNoise.desert =>
        -35 <= BiomeNoise.getBlendedHeight b x z BiomeNoise.desert <= 60
    | BiomeNoise.forest =>
        -76 <= BiomeNoise.getBlendedHeight b x z BiomeNoise.forest <= 68
    | BiomeNoise.plains =>
        -57 <= BiomeNoise.getBlendedHeight b x z BiomeNoise.plains <= 51
    | BiomeNoise.city =>
        0 <= BiomeNoise.getBlendedHeight b x z BiomeNoise.city < 2
    end).
  { destruct (BiomeNoise.getBiome b x z) eqn:E; unfold BiomeNoise.getBlendedHeight.
    - pose proof (octaveNoise2D_range (BiomeNoise.elevation b) (x * 0.003) (z * 0.003)
                                      3 0.5 1 ltac:(lia) ltac:(lra)).
      assert (BiomeNoise.getElevation b x z <= 0.6) by (apply Hm; discriminate).
      lra.
    - pose proof (octaveNoise2D_range (BiomeNoise.elevation b) (x * 0.01) (z * 0.01)
                                      2 0.5 1 ltac:(lia) ltac:(lra)).
      assert (BiomeNoise.getElevation b x z <= 0.6) by (apply Hm; discriminate).
      lra.
    - pose proof (billow2D_range (BiomeNoise.elevation b) (x * 0.008) (z * 0.008)
                                 2 0.5 1 ltac:(lia) ltac:(lra)).
      assert (BiomeNoise.getElevation b x z <= 0.6) by (apply Hm; discriminate).
      lra.
    - pose proof (ridgedNoise2D_range (BiomeNoise.elevation b) (x * 0.005) (z * 0.005)
                                      3 0.5 1 ltac:(lia) ltac:(lra)).
      lra.
    - assert (BiomeNoise.getElevation b x z < 0.1) by (apply Hc; reflexivity).
      unfold Rmax. destruct (Rle_dec 0 (BiomeNoise.getElevation b x z * 20)); lra. }
  destruct (BiomeNoise.getBiome b x z); split; try exact Hcase; lra.
Qed.

Section Spawn.

Import NoiseGenerator BiomeNoise.

Variables (b : BiomeNoise.t) (i j : Z).

Lemma coarse_lattice_scaled (c : Z) (k : R) (m : Z) :
  10000 * k = IZR m -> exists n, 10000 * IZR c * k * 1 = IZR n.
Proof.
  intros H. exists (c * m)%Z. rewrite mult_IZR, <- H. ring.
Qed.

Lemma coarse_octave (g : NoiseGenerator.t) (n : nat) (p k : R) (m : Z) :
  (1 <= n)%nat -> 0 < p -> 10000 * k = IZR m ->
  octaveNoise2D g ((10000 * IZR i) * k) ((10000 * IZR j) * k) n p 1 = 0.
Proof.
  intros Hn Hp Hk. unfold octaveNoise2D.
  apply (fractal_lattice (fun v => v) g ((10000 * IZR i) * k) ((10000 * IZR j) * k)
                         n p 1 Hn Hp);
    apply coarse_lattice_scaled with (m := m); exact Hk.
Qed.

Lemma coarse_ridged (g : NoiseGenerator.t) (n : nat) (p k : R) (m : Z) :
  (1 <= n)%nat -> 0 < p -> 10000 * k = IZR m ->
  ridgedNoise2D g ((10000 * IZR i) * k) ((10000 * IZR j) * k) n p 1 = 1.
Proof.
  intros Hn Hp Hk. unfold ridgedNoise2D.
  match goal with
  | |- value (octaves_loop ?shape _ _ _ _ _ _) / _ = _ =>
      rewrite (fractal_lattice shape g ((10000 * IZR i) * k) ((10000 * IZR j) * k)
                               n p 1 Hn Hp)
  end.
  - cbv zeta. rewrite Rabs_R0. ring.
  - apply coarse_lattice_scaled with (m := m); exact Hk.
  - apply coarse_lattice_scaled with (m := m); exact Hk.
Qed.

Lemma coarse_channels :
  getTemperature b (10000 * IZR i) (10000 * IZR j) = 0 /\
  getHumidity b (10000 * IZR i) (10000 * IZR j) = 0 /\
  getElevation b (10000 * IZR i) (10000 * IZR j) = 0.3.
Proof.
  unfold getTemperature, getHumidity, getElevation.
  rewrite (coarse_octave (temperature b) 3 0.6 0.001 10) by (lia || lra).
  rewrite (coarse_octave (humidity b) 3 0.5 0.0008 8) by (lia || lra).
  rewrite (coarse_octave (elevation b) 6 0.7 0.0005 5) by (lia || lra).
  rewrite (coarse_ridged (elevation b) 4 0.4 0.002 20) by (lia || lra).
  repeat split; lra.
Qed.

Lemma coarse_biome : getBiome b (10000 * IZR i) (10000 * IZR j) = plains.
Proof.
  unfold getBiome. destruct coarse_channels as [Ht [Hh He]].
  rewrite Ht, Hh, He.
  replace (JS.gtb 0.3 0.6) with false by (symmetry; apply gtb_false; lra).
  replace (JS.ltb 0 (-0.3)) with false by (symmetry; apply ltb_false; lra).
  replace (JS.gtb 0 0.4) with false by (symmetry; apply gtb_false; lra).
  replace (JS.ltb 0.3 0.1) with false by (symmetry; apply ltb_false; lra).
  reflexivity.
Qed.

Lemma coarse_height : getBlendedHeight b (10000 * IZR i) (10000 * IZR j) plains = 18.
Proof.
  unfold getBlendedHeight. destruct coarse_channels as [_ [_ He]]. rewrite He.
  rewrite (coarse_octave (elevation b) 3 0.5 0.003 30) by (lia || lra).
  lra.
Qed.

End Spawn.

(** X7.  At the world origin, where the vehicle starts, and at every
    point whose two coordinates are multiples of 10000, all the noise
    channels sample lattice points: whatever the seed the biome there is
    plains and the height is exactly 18. *)
Theorem terrain_on_the_coarse_lattice (s : TerrainSystem.t) (i j : Z) :
  TerrainSystem.getBiomeAt s (10000 * IZR i) (10000 * IZR j) = BiomeNoise.plains /\
  TerrainSystem.getHeightAt s (10000 * IZR i) (10000 * IZR j) = 18 /\
  TerrainSystem.getBiomeAt s 0 0 = BiomeNoise.plains /\
  TerrainSystem.getHeightAt s 0 0 = 18.
Proof.
  assert (H : forall a c,
             TerrainSystem.getBiomeAt s (10000 * IZR a) (10000 * IZR c) = BiomeNoise.plains /\
             TerrainSystem.getHeightAt s (10000 * IZR a) (10000 * IZR c) = 18).
  { intros a c. unfold TerrainSystem.getBiomeAt, TerrainSystem.getHeightAt.
    rewrite coarse_biome. split; [reflexivity | apply coarse_height]. }
  destruct (H i j) as [H1 H2]. destruct (H 0%Z 0%Z) as [H3 H4].
  replace (10000 * 0) with 0 in H3, H4 by ring.
  auto.
Qed.

(** * Further properties of the spline *)

Section Knots.

Import CatmullRomSpline.

Lemma get_nth {A : Type} (l : list A) (i : Z) (d : A) :
  (0 <= i < Z.of_nat (length l))%Z -> JS.get l i = Some (nth (Z.to_nat i) l d).
Proof.
  intros [H0 H1]. unfold JS.get.
  destruct (Z.ltb_spec i 0) as [Hneg | _]; [lia|].
  apply nth_error_nth'. lia.
Qed.

Lemma get_negative {A : Type} (l : list A) (i : Z) : (i < 0)%Z -> JS.get l i = None.
Proof.
  intros Hi. unfold JS.get. destruct (Z.ltb_spec i 0); [reflexivity | lia].
Qed.

(** The four control points of a segment of the curve: the two ends
    of the segment and their neighbours, the first and the last point
    standing in for a neighbour that is missing. *)
Lemma controlPoints_of (s : t) (segment : Z) (d : Vec3.t) :
  (0 <= segment)%Z -> (segment + 1 < Z.of_nat (length (points s)))%Z ->
  controlPoints s segment
  = Some (nth (Z.to_nat (Z.max 0 (segment - 1))) (points s) d,
          nth (Z.to_nat segment) (points s) d,
          nth (Z.to_nat (segment + 1)) (points s) d,
          nth (Z.to_nat (Z.min (Z.of_nat (length (points s)) - 1) (segment + 2)))
              (points s) d).
Proof.
  intros H0 H1. unfold controlPoints.
  rewrite (get_nth (points s) (Z.max 0 (segment - 1)) d) by lia.
  rewrite (get_nth (points s) segment d) by lia.
  rewrite (get_nth (points s) (segment + 1) d) by lia.
  rewrite (get_nth (points s) _ d) by lia.
  reflexivity.
Qed.

Lemma controlPoints_negative (s : t) (segment : Z) :
  (segment < 0)%Z -> controlPoints s segment = None.
Proof.
  intros H. unfold controlPoints. rewrite (get_negative (points s) segment H).
  destruct (JS.get (points s) (Z.max 0 (segment - 1))); reflexivity.
Qed.

Lemma formula_at_0 (p0 p1 p2 p3 : R) : formula p0 p1 p2 p3 0 (0 * 0) (0 * 0 * 0) = p1.
Proof. unfold formula. lra. Qed.

Lemma formula_at_1 (p0 p1 p2 p3 : R) : formula p0 p1 p2 p3 1 (1 * 1) (1 * 1 * 1) = p2.
Proof. unfold formula. lra. Qed.

Lemma getSegmentPoint_start (s : t) (segment : Z) (d : Vec3.t) :
  (0 <= segment)%Z -> (segment + 1 < Z.of_nat (length (points s)))%Z ->
  getSegmentPoint s segment 0 = Some (nth (Z.to_nat segment) (points s) d).
Proof.
  intros H0 H1. unfold getSegmentPoint.
  rewrite (controlPoints_of s segment d H0 H1).
  rewrite !formula_at_0. destruct (nth (Z.to_nat segment) (points s) d); reflexivity.
Qed.

Lemma getSegmentPoint_end (s : t) (segment : Z) (d : Vec3.t) :
  (0 <= segment)%Z -> (segment + 1 < Z.of_nat (length (points s)))%Z ->
  getSegmentPoint s segment 1 = Some (nth (Z.to_nat (segment + 1)) (points s) d).
Proof.
  intros H0 H1. unfold getSegmentPoint.
  rewrite (controlPoints_of s segment d H0 H1).
  rewrite !formula_at_1. destruct (nth (Z.to_nat (segment + 1)) (points s) d); reflexivity.
Qed.

(** The parameter [k / (n - 1)] of the [k]-th control point, scaled
    by the segment count. *)
Lemma knot_parameter (n k : nat) :
  (2 <= n)%nat ->
  INR k / INR (n - 1) * IZR (Z.of_nat n - 1) = IZR (Z.of_nat k).
Proof.
  intros Hn.
  assert (E : IZR (Z.of_nat n - 1) = INR (n - 1)).
  { rewrite INR_IZR_INZ. f_equal. lia. }
  rewrite E, <- INR_IZR_INZ.
  assert (0 < INR (n - 1)) by (apply lt_0_INR; lia).
  field. lra.
Qed.

Lemma locate_negative (s : t) (t : R) :
  (2 <= length (points s))%nat -> t < 0 -> (fst (locate s t) < 0)%Z.
Proof.
  intros Hlen Ht. unfold locate. cbn [fst].
  set (n := (Z.of_nat (length (points s)) - 1)%Z).
  assert (Hn : 1 <= IZR n) by (apply IZR_le; unfold n; lia).
  assert (Hneg : t * IZR n < 0) by nra.
  pose proof (floor_spec (t * IZR n)) as [Hf _].
  assert (JS.floor (t * IZR n) < 0)%Z by (apply lt_IZR; lra).
  lia.
Qed.

Lemma normalize_unit (a : Vec3.t) :
  0 < Vec3.length a -> Vec3.length (Vec3.normalize a) = 1.
Proof.
  intros Hpos. unfold Vec3.normalize.
  replace (JS.gtb (Vec3.length a) 0) with true by (symmetry; apply gtb_true; lra).
  set (L := Vec3.length a) in *.
  assert (HL : L * L = Vec3.x a * Vec3.x a + Vec3.y a * Vec3.y a + Vec3.z a * Vec3.z a).
  { unfold L, Vec3.length. apply sqrt_def.
    pose proof (Rle_0_sqr (Vec3.x a)). pose proof (Rle_0_sqr (Vec3.y a)).
    pose proof (Rle_0_sqr (Vec3.z a)). unfold Rsqr in *. lra. }
  unfold Vec3.divide, Vec3.length at 1. cbn [Vec3.x Vec3.y Vec3.z].
  replace (Vec3.x a / L * (Vec3.x a / L) + Vec3.y a / L * (Vec3.y a / L) +
           Vec3.z a / L * (Vec3.z a / L))
    with ((Vec3.x a * Vec3.x a + Vec3.y a * Vec3.y a + Vec3.z a * Vec3.z a) / (L * L))
    by (field; lra).
  rewrite <- HL. replace (L * L / (L * L)) with 1 by (field; lra).
  apply sqrt_1.
Qed.

Lemma normalize_cases (a : Vec3.t) :
  Vec3.length (Vec3.normalize a) = 1 \/ Vec3.normalize a = Vec3.zero.
Proof.
  destruct (Rlt_dec 0 (Vec3.length a)) as [Hpos | Hz].
  - left. apply normalize_unit, Hpos.
  - right. unfold Vec3.normalize.
    replace (JS.gtb (Vec3.length a) 0) with false; [reflexivity|].
    symmetry. apply gtb_false. lra.
Qed.

Lemma forward_unit : Vec3.length Vec3.forward = 1.
Proof.
  unfold Vec3.length, Vec3.forward. cbn [Vec3.x Vec3.y Vec3.z].
  replace (0 * 0 + 0 * 0 + 1 * 1) with 1 by ring. apply sqrt_1.
Qed.

End Knots.

(** X8.  The spline interpolates: with [n >= 2] control points, the
    curve at the parameter [k / (n - 1)] is the [k]-th control point,
    for every [k] from 0 to [n - 1]; in particular it ends, at
    parameter 1, on the last one. *)
Theorem spline_passes_through_control_points (s : CatmullRomSpline.t) (k : nat) :
  (2 <= length (CatmullRomSpline.points s))%nat ->
  (k < length (CatmullRomSpline.points s))%nat ->
  CatmullRomSpline.getPoint s (INR k / INR (length (CatmullRomSpline.points s) - 1))
  = Some (nth k (CatmullRomSpline.points s) Vec3.zero).
Proof.
  intros Hlen Hk. unfold CatmullRomSpline.getPoint.
  destruct (Nat.ltb_spec (length (CatmullRomSpline.points s)) 2) as [Hlt | _]; [lia|].
  unfold CatmullRomSpline.locate.
  rewrite (knot_parameter _ k Hlen), floor_IZR.
  set (n := length (CatmullRomSpline.points s)) in *.
  destruct (Nat.eq_dec k (n - 1)) as [Elast | Hmid].
  - rewrite Z.min_r by lia.
    replace (IZR (Z.of_nat k) - IZR (Z.of_nat n - 1 - 1)) with 1
      by (rewrite <- minus_IZR; f_equal; lia).
    rewrite (getSegmentPoint_end s _ Vec3.zero) by (fold n; lia).
    do 2 f_equal. lia.
  - rewrite Z.min_l by lia.
    replace (IZR (Z.of_nat k) - IZR (Z.of_nat k)) with 0 by ring.
    rewrite (getSegmentPoint_start s _ Vec3.zero) by (fold n; lia).
    do 2 f_equal. lia.
Qed.

Lemma spline_passes_through_control_points_witness :
  CatmullRomSpline.getPoint
    (CatmullRomSpline.mk [Vec3.mk 0 0 0; Vec3.mk 4 1 0; Vec3.mk 9 1 3]) (INR 2 / INR 2)
  = Some (Vec3.mk 9 1 3).
Proof.
  apply (spline_passes_through_control_points
           (CatmullRomSpline.mk [Vec3.mk 0 0 0; Vec3.mk 4 1 0; Vec3.mk 9 1 3]) 2);
    simpl; lia.
Defined.

(** X9.  With two control points or more, [getPoint] and [getTangent]
    return a vector exactly for the parameters that are not negative: a
    negative parameter selects a segment before the first one, whose
    control point is [undefined], and reading its coordinate raises a
    TypeError. *)
Theorem spline_defined_exactly_from_zero (s : CatmullRomSpline.t) (t : R) :
  (2 <= length (CatmullRomSpline.points s))%nat ->
  (CatmullRomSpline.getPoint s t = None <-> t < 0) /\
  (CatmullRomSpline.getTangent s t = None <-> t < 0).
Proof.
  intros Hlen.
  assert (Hneg : t < 0 ->
                 CatmullRomSpline.getPoint s t = None /\
                 CatmullRomSpline.getTangent s t = None).
  { intros Ht. pose proof (locate_negative s t Hlen Ht) as Hs.
    unfold CatmullRomSpline.getPoint, CatmullRomSpline.getTangent.
    destruct (Nat.ltb_spec (length (CatmullRomSpline.points s)) 2) as [Hlt | _]; [lia|].
    destruct (CatmullRomSpline.locate s t) as [segment localT]. cbn [fst] in Hs.
    unfold CatmullRomSpline.getSegmentPoint, CatmullRomSpline.getSegmentTangent,
      CatmullRomSpline.getSegmentDerivative.
    rewrite (controlPoints_negative s segment Hs). split; reflexivity. }
  split; split; intros H; try (apply Hneg; exact H).
  - destruct (Rlt_dec t 0) as [Ht | Ht]; [exact Ht|].
    destruct (getPoint_returns s t Hlen ltac:(lra)) as [q Hq]. congruence.
  - destruct (Rlt_dec t 0) as [Ht | Ht]; [exact Ht|].
    destruct (getTangent_returns s t Hlen ltac:(lra)) as [q Hq]. congruence.
Qed.

Lemma spline_defined_exactly_from_zero_witness :
  (CatmullRomSpline.getPoint (CatmullRomSpline.mk [Vec3.zero; Vec3.one]) (-1) = None
   <-> -1 < 0) /\
  (CatmullRomSpline.getTangent (CatmullRomSpline.mk [Vec3.zero; Vec3.one]) (-1) = None
   <-> -1 < 0).
Proof.
  apply (spline_defined_exactly_from_zero (CatmullRomSpline.mk [Vec3.zero; Vec3.one]) (-1)).
  simpl. lia.
Defined.

(** X10.  Whatever the control points and the parameter, a tangent that
    [getTangent] returns has length 1, unless it is the zero vector. *)
Theorem spline_tangent_is_unit_or_zero (s : CatmullRomSpline.t) (t : R) (v : Vec3.t) :
  CatmullRomSpline.getTangent s t = Some v ->
  Vec3.length v = 1 \/ v = Vec3.zero.
Proof.
  unfold CatmullRomSpline.getTangent.
  destruct (length (CatmullRomSpline.points s) <? 2)%nat.
  - intros [= <-]. left. apply forward_unit.
  - destruct (CatmullRomSpline.locate s t) as [segment localT].
    unfold CatmullRomSpline.getSegmentTangent.
    destruct (CatmullRomSpline.getSegmentDerivative s segment localT) as [d|];
      [|discriminate].
    intros [= <-]. apply normalize_cases.
Qed.

Lemma spline_tangent_is_unit_or_zero_witness :
  Vec3.length Vec3.forward = 1 \/ Vec3.forward = Vec3.zero.
Proof.
  apply (spline_tangent_is_unit_or_zero (CatmullRomSpline.mk [Vec3.one]) 0 Vec3.forward).
  reflexivity.
Defined.

(** X11.  Neighbouring segments of the curve join smoothly: at an inner
    control point the segment that ends there (local parameter 1) and
    the segment that starts there (local parameter 0) give the same
    position, the control point itself, and the same derivative. *)
Theorem spline_segments_join_smoothly (s : CatmullRomSpline.t) (k : Z) :
  (0 <= k)%Z -> (k + 2 < Z.of_nat (length (CatmullRomSpline.points s)))%Z ->
  CatmullRomSpline.getSegmentPoint s k 1
  = Some (nth (Z.to_nat (k + 1)) (CatmullRomSpline.points s) Vec3.zero) /\
  CatmullRomSpline.getSegmentPoint s (k + 1) 0
  = Some (nth (Z.to_nat (k + 1)) (CatmullRomSpline.points s) Vec3.zero) /\
  CatmullRomSpline.getSegmentDerivative s k 1
  = CatmullRomSpline.getSegmentDerivative s (k + 1) 0 /\
  CatmullRomSpline.getSegmentDerivative s k 1 <> None.
Proof.
  intros H0 H1.
  split; [apply getSegmentPoint_end; lia|].
  split; [apply getSegmentPoint_start; lia|].
  unfold CatmullRomSpline.getSegmentDerivative.
  rewrite (controlPoints_of s k Vec3.zero) by lia.
  rewrite (controlPoints_of s (k + 1) Vec3.zero) by lia.
  rewrite (Z.max_r 0 (k + 1 - 1)) by lia.
  rewrite (Z.min_r _ (k + 2)) by lia.
  replace (k + 1 - 1)%Z with k by lia.
  replace (k + 1 + 1)%Z with (k + 2)%Z by lia.
  split; [|discriminate].
  f_equal. unfold CatmullRomSpline.derivative. f_equal; lra.
Qed.

Lemma spline_segments_join_smoothly_witness :
  let s := CatmullRomSpline.mk [Vec3.mk 0 0 0; Vec3.mk 4 1 0; Vec3.mk 9 1 3] in
  CatmullRomSpline.getSegmentPoint s 0 1 = Some (Vec3.mk 4 1 0) /\
  CatmullRomSpline.getSegmentPoint s (0 + 1) 0 = Some (Vec3.mk 4 1 0) /\
  CatmullRomSpline.getSegmentDerivative s 0 1
  = CatmullRomSpline.getSegmentDerivative s (0 + 1) 0 /\
  CatmullRomSpline.getSegmentDerivative s 0 1 <> None.
Proof.
  apply (spline_segments_join_smoothly
           (CatmullRomSpline.mk [Vec3.mk 0 0 0; Vec3.mk 4 1 0; Vec3.mk 9 1 3]) 0);
    simpl; lia.
Defined.

(** * Further properties of the road *)

Section Nearest.

Import RoadSystem.

Lemma getPoint_total (s : CatmullRomSpline.t) (t : R) :
  0 <= t -> exists q, CatmullRomSpline.getPoint s t = Some q.
Proof.
  intros Ht.
  destruct (Nat.lt_ge_cases (length (CatmullRomSpline.points s)) 2) as [Hlt | Hge].
  - unfold CatmullRomSpline.getPoint.
    destruct (Nat.ltb_spec (length (CatmullRomSpline.points s)) 2); [|lia].
    destruct (CatmullRomSpline.points s); eexists; reflexivity.
  - apply getPoint_returns; assumption.
Qed.

Lemma getTangent_total (s : CatmullRomSpline.t) (t : R) :
  0 <= t -> exists q, CatmullRomSpline.getTangent s t = Some q.
Proof.
  intros Ht.
  destruct (Nat.lt_ge_cases (length (CatmullRomSpline.points s)) 2) as [Hlt | Hge].
  - unfold CatmullRomSpline.getTangent.
    destruct (Nat.ltb_spec (length (CatmullRomSpline.points s)) 2); [|lia].
    eexists; reflexivity.
  - apply getTangent_returns; assumption.
Qed.

(** A search loop over parameters of the unit interval returns, with
    a parameter of the unit interval and a distance that is at most
    the one it started with and at most the distance to every sample
    whose parameter does not depend on the running best. *)
Lemma search_result (s : CatmullRomSpline.t) (worldPos : Vec3.t)
      (tOf : Z -> R -> R) (idxs : list Z) (cd : JS.ext) (ct : R) :
  (forall i c, In i idxs -> 0 <= c <= 1 -> 0 <= tOf i c <= 1) ->
  0 <= ct <= 1 ->
  exists cd' ct',
    search s worldPos tOf idxs cd ct = Some (cd', ct') /\
    0 <= ct' <= 1 /\
    (forall d, cd = Some d -> exists d', cd' = Some d' /\ d' <= d) /\
    (forall i q, In i idxs -> (forall c, tOf i c = tOf i 0) ->
                 CatmullRomSpline.getPoint s (tOf i 0) = Some q ->
                 exists d', cd' = Some d' /\ d' <= Vec3.distance worldPos q).
Proof.
  revert cd ct. induction idxs as [|i rest IH]; intros cd ct Hin Hct.
  - exists cd, ct. cbn [search]. split; [reflexivity|]. split; [exact Hct|].
    split.
    + intros d ->. exists d. split; [reflexivity | lra].
    + intros i q [].
  - cbn [search].
    assert (Ht : 0 <= tOf i ct <= 1) by (apply Hin; [left; reflexivity | exact Hct]).
    destruct (getPoint_total s (tOf i ct) (proj1 Ht)) as [point Ep]. rewrite Ep.
    assert (Hrest : forall j c, In j rest -> 0 <= c <= 1 -> 0 <= tOf j c <= 1)
      by (intros j c Hj; apply Hin; right; exact Hj).
    destruct (JS.lt_ext (Vec3.distance worldPos point) cd) eqn:El.
    + destruct (IH (Some (Vec3.distance worldPos point)) (tOf i ct) Hrest Ht)
        as (cd' & ct' & Es & Hct' & Hle & Hall).
      exists cd', ct'. split; [exact Es|]. split; [exact Hct'|].
      destruct (Hle _ eq_refl) as [d' [Ed' Hd']].
      split.
      * intros d ->. cbn [JS.lt_ext] in El. apply ltb_true in El.
        exists d'. split; [exact Ed' | lra].
      * intros j q [<- | Hj] Hconst Eq.
        -- rewrite Hconst in Ep. rewrite Ep in Eq. injection Eq as <-.
           exists d'. split; [exact Ed' | exact Hd'].
        -- apply (Hall j q Hj Hconst Eq).
    + destruct cd as [c0|]; [|discriminate].
      cbn [JS.lt_ext] in El. apply ltb_false in El.
      destruct (IH (Some c0) ct Hrest Hct) as (cd' & ct' & Es & Hct' & Hle & Hall).
      exists cd', ct'. split; [exact Es|]. split; [exact Hct'|].
      destruct (Hle _ eq_refl) as [d' [Ed' Hd']].
      split.
      * intros d [= <-]. exists d'. split; [exact Ed' | exact Hd'].
      * intros j q [<- | Hj] Hconst Eq.
        -- rewrite Hconst in Ep. rewrite Ep in Eq. injection Eq as <-.
           exists d'. split; [exact Ed' | lra].
        -- apply (Hall j q Hj Hconst Eq).
Qed.

Lemma sample_unit (i : Z) : (0 <= i <= 100)%Z -> 0 <= IZR i / IZR samples <= 1.
Proof.
  intros [H0 H1]. unfold samples.
  apply IZR_le in H0. apply IZR_le in H1. split.
  - apply Rmult_le_pos; [exact H0 | lra].
  - apply Rmult_le_reg_r with 100; [lra|].
    replace (IZR i / 100 * 100) with (IZR i) by field. lra.
Qed.

Lemma clamp_unit (v : R) : 0 <= Rmax 0 (Rmin 1 v) <= 1.
Proof.
  split; [apply Rmax_l|]. apply Rmax_lub; [lra | apply Rmin_l].
Qed.

End Nearest.

Lemma getRoadInfo_nearest (r : RoadSystem.t) (worldPos : Vec3.t) :
  match RoadSystem.spline r with
  | None => RoadSystem.getRoadInfo r worldPos = Some None
  | Some s =>
      exists info,
        RoadSystem.getRoadInfo r worldPos = Some (Some info) /\
        0 <= RoadSystem.t_ info <= 1 /\
        CatmullRomSpline.getPoint s (RoadSystem.t_ info)
        = Some (RoadSystem.position info) /\
        CatmullRomSpline.getTangent s (RoadSystem.t_ info)
        = Some (RoadSystem.direction info) /\
        RoadSystem.distance info
        = Some (Vec3.distance worldPos (RoadSystem.position info)) /\
        forall i q, (0 <= i <= 100)%Z ->
                    CatmullRomSpline.getPoint s (IZR i / 100) = Some q ->
                    Vec3.distance worldPos (RoadSystem.position info)
                    <= Vec3.distance worldPos q
  end.
Proof.
  destruct (RoadSystem.spline r) as [s|] eqn:Es.
  2:{ unfold RoadSystem.getRoadInfo. rewrite Es. reflexivity. }
  pose proof (getRoadInfo_distance r worldPos) as Hdist.
  unfold RoadSystem.getRoadInfo in *. rewrite Es in *.
  destruct (search_result s worldPos (fun i _ => IZR i / IZR RoadSystem.samples)
                          (JS.range 0 RoadSystem.samples) None 0)
    as (cd1 & ct1 & E1 & Hct1 & _ & Hall1).
  { intros i c Hi _. apply sample_unit. apply range_In in Hi. exact Hi. }
  { lra. }
  rewrite E1 in *.
  destruct (search_result s worldPos
              (fun i closestT =>
                 Rmax 0 (Rmin 1 (closestT + IZR i * RoadSystem.refinement)))
              (JS.range (-10) 10) cd1 ct1)
    as (cd2 & ct2 & E2 & Hct2 & Hle2 & _).
  { intros i c _ _. apply clamp_unit. }
  { exact Hct1. }
  rewrite E2 in *.
  destruct (getPoint_total s ct2 (proj1 Hct2)) as [p Ep].
  destruct (getTangent_total s ct2 (proj1 Hct2)) as [d Ed].
  rewrite Ep, Ed in *.
  eexists. split; [reflexivity|]. cbn [RoadSystem.t_ RoadSystem.position
                                       RoadSystem.direction RoadSystem.distance].
  split; [exact Hct2|]. split; [exact Ep|]. split; [exact Ed|].
  specialize (Hdist _ eq_refl). cbn [RoadSystem.distance RoadSystem.position] in Hdist.
  split; [exact Hdist|].
  intros i q Hi Eq.
  destruct (Hall1 i q) as [d1 [Ed1 Hd1]].
  { apply range_In. exact Hi. }
  { reflexivity. }
  { exact Eq. }
  destruct (Hle2 d1 Ed1) as [d2 [Ed2 Hd2]].
  rewrite Ed2 in Hdist. injection Hdist as Hdist. lra.
Qed.

(** X12.  The road queries never raise an error.  Without a spline
    [getRoadInfo] returns [null]; with one, whatever the path and the
    query position, it returns a record whose parameter lies in [0, 1],
    whose position and direction are the spline's point and tangent at
    that parameter, whose distance is the distance from the query to that
    position, and that distance is no more than the distance to any of
    the 101 coarse samples of the curve.  [isOnRoad] and [getRoadHeight],
    which go through it, return as well. *)
Theorem getRoadInfo_returns_a_nearest_sample (r : RoadSystem.t) (worldPos : Vec3.t) :
  match RoadSystem.spline r with
  | None => RoadSystem.getRoadInfo r worldPos = Some None
  | Some s =>
      exists info,
        RoadSystem.getRoadInfo r worldPos = Some (Some info) /\
        0 <= RoadSystem.t_ info <= 1 /\
        CatmullRomSpline.getPoint s (RoadSystem.t_ info)
        = Some (RoadSystem.position info) /\
        CatmullRomSpline.getTangent s (RoadSystem.t_ info)
        = Some (RoadSystem.direction info) /\
        RoadSystem.distance info
        = Some (Vec3.distance worldPos (RoadSystem.position info)) /\
        forall i q, (0 <= i <= 100)%Z ->
                    CatmullRomSpline.getPoint s (IZR i / 100) = Some q ->
                    Vec3.distance worldPos (RoadSystem.position info)
                    <= Vec3.distance worldPos q
  end /\
  (forall tolerance, exists b, RoadSystem.isOnRoad r worldPos tolerance = Some b) /\
  (exists h, RoadSystem.getRoadHeight r (Vec3.x worldPos) (Vec3.z worldPos) = Some h).
Proof.
  assert (Htotal : forall p, exists res, RoadSystem.getRoadInfo r p = Some res).
  { intros p. pose proof (getRoadInfo_nearest r p) as H.
    destruct (RoadSystem.spline r); [|eauto].
    destruct H as (info & E & _). eauto. }
  split; [apply getRoadInfo_nearest|]. split.
  - intros tolerance. unfold RoadSystem.isOnRoad.
    destruct (Htotal worldPos) as [[info|] E]; rewrite E; eauto.
  - unfold RoadSystem.getRoadHeight.
    destruct (Htotal (Vec3.mk (Vec3.x worldPos) 0 (Vec3.z worldPos))) as [[info|] E];
      rewrite E; [|eauto].
    destruct (JS.ext_leb _ _); eauto.
Qed.

Section Appending.

Import RoadSystem RoadSpec.

Variable r : RoadSystem.t.
Variable noise : NoiseGenerator.t.

Lemma last_default (l : list Vec3.t) (x a b : Vec3.t) :
  last (x :: l) a = last (x :: l) b.
Proof.
  revert x. induction l as [|y l IH]; intros x; [reflexivity|].
  change (last (y :: l) a = last (y :: l) b). apply IH.
Qed.

Lemma last_cons (l : list Vec3.t) (h a : Vec3.t) : last (h :: l) a = last l h.
Proof.
  destruct l as [|x l]; [reflexivity|].
  change (last (x :: l) a = last (x :: l) h). apply last_default.
Qed.

Lemma spaced_snoc_last (d : R) (l : list Vec3.t) (a b : Vec3.t) :
  spaced d (a :: l) -> xzDistance (last l a) b = d -> spaced d ((a :: l) ++ [b]).
Proof.
  revert a. induction l as [|h l IH]; intros a Hs Hd.
  - cbn in *. auto.
  - change (xzDistance a h = d /\ spaced d (h :: l)) in Hs.
    change (xzDistance a h = d /\ spaced d ((h :: l) ++ [b])).
    destruct Hs as [H1 H2]. split; [exact H1|].
    apply IH; [exact H2|]. rewrite <- last_cons with (a := a). exact Hd.
Qed.

(** The waypoints that [n] passes of the loop append: one per pass,
    each a segment length from the one before in the XZ plane, the
    first a segment length from where the loop started. *)
Lemma iter_trail (n : nat) (w : walk) :
  0 <= segmentLength r ->
  Vec3.x (currentDir w) * Vec3.x (currentDir w) +
  Vec3.z (currentDir w) * Vec3.z (currentDir w) = 1 ->
  exists new,
    walked (Nat.iter n (extendStep r noise) w) = walked w ++ new /\
    length new = n /\
    spaced (segmentLength r) (currentPos w :: new) /\
    currentPos (Nat.iter n (extendStep r noise) w) = last new (currentPos w) /\
    Vec3.x (currentDir (Nat.iter n (extendStep r noise) w)) *
    Vec3.x (currentDir (Nat.iter n (extendStep r noise) w)) +
    Vec3.z (currentDir (Nat.iter n (extendStep r noise) w)) *
    Vec3.z (currentDir (Nat.iter n (extendStep r noise) w)) = 1.
Proof.
  intros Hlen Hdir. induction n as [|n (new & Ew & Ln & Hs & Hp & Hd)].
  - exists []. cbn. rewrite app_nil_r. auto.
  - rewrite Nat.iter_succ.
    set (w' := Nat.iter n (extendStep r noise) w) in *.
    unfold extendStep. cbn [walked currentPos currentDir].
    match goal with
    | |- context [walked w' ++ [?p]] => set (nextPos := p)
    end.
    exists (new ++ [nextPos]).
    split; [rewrite Ew, app_assoc; reflexivity|].
    split; [rewrite length_app; cbn; lia|].
    split.
    + change (currentPos w :: new ++ [nextPos])
        with ((currentPos w :: new) ++ [nextPos]).
      apply spaced_snoc_last; [exact Hs|].
      rewrite <- Hp. unfold nextPos.
      apply xzDistance_step; [exact Hlen | apply rotateVector_unit; exact Hd].
    + split; [rewrite last_last; reflexivity|].
      apply rotateVector_unit. exact Hd.
Qed.

(** With a segment length that is not positive the generated distance
    never grows, and the loop does not exit. *)
Lemma extendLoop_stuck (fuel : nat) (distance : R) (w : walk) :
  segmentLength r <= 0 -> generatedDistance w <= 0 -> 0 < distance ->
  extendLoop fuel r noise distance w = None.
Proof.
  intros Hseg. revert w. induction fuel as [|fuel IH]; intros w Hw Hd; cbn [extendLoop];
    replace (JS.ltb (generatedDistance w) distance) with true
      by (symmetry; apply ltb_true; lra).
  - reflexivity.
  - apply IH; [|exact Hd]. unfold extendStep. cbn [generatedDistance]. lra.
Qed.

(** On level ground each pass moves the height of the road toward one
    unit above the ground by the factor [1 - terrainFollowing]. *)
Lemma iter_height (n : nat) (w : walk) (ground : R) :
  (forall x z, terrain r x z = ground) ->
  Vec3.y (currentDir w) = 0 ->
  Vec3.y (currentDir (Nat.iter n (extendStep r noise) w)) = 0 /\
  Vec3.y (currentPos (Nat.iter n (extendStep r noise) w)) - (ground + 1)
  = (1 - terrainFollowing r) ^ n * (Vec3.y (currentPos w) - (ground + 1)).
Proof.
  intros Hflat Hdir. induction n as [|n [IHd IHp]].
  - cbn. split; [exact Hdir | ring].
  - rewrite Nat.iter_succ.
    set (w' := Nat.iter n (extendStep r noise) w) in *.
    unfold extendStep. cbn [currentPos currentDir].
    unfold rotateVector at 1. cbn [Vec3.y]. split; [exact IHd|].
    unfold Vec3.with_y. cbn [Vec3.y]. rewrite Hflat.
    unfold MathUtils.lerp, Vec3.add, Vec3.multiply, rotateVector. cbn [Vec3.y].
    rewrite IHd. cbn [pow].
    replace (Vec3.y (currentPos w') + 0 * segmentLength r +
             (ground + 1 - (Vec3.y (currentPos w') + 0 * segmentLength r)) *
             terrainFollowing r - (ground + 1))
      with ((1 - terrainFollowing r) * (Vec3.y (currentPos w') - (ground + 1)))
      by ring.
    rewrite IHp. ring.
Qed.

End Appending.

Section Extending.

Import RoadSystem.

(** What [extendRoad] leaves when the loop makes [n] passes. *)
Lemma extendRoad_result (r : t) (fuel n : nat) (distance : R) :
  0 < segmentLength r ->
  INR n * segmentLength r >= distance ->
  (n = 0%nat \/ (INR n - 1) * segmentLength r < distance) ->
  (n <= fuel)%nat ->
  exists r',
    extendRoad fuel r distance = Some r' /\
    let w := Nat.iter n (extendStep r (NoiseGenerator.new (roadSeed r)))
                      (mkWalk (lastGeneratedPosition r) (currentDirection r) 0 (path r)) in
    path r' = walked w /\
    spline r' = Some (CatmullRomSpline.mk (walked w)) /\
    lastGeneratedPosition r' = currentPos w /\
    currentDirection r' = currentDir w.
Proof.
  intros Hseg Hge Hlt Hfuel. unfold extendRoad.
  rewrite (extendLoop_passes r (NoiseGenerator.new (roadSeed r)) n fuel distance).
  - destruct (generateSegments _ _) as [segments generated].
    eexists. split; [reflexivity|]. cbn. auto.
  - exact Hseg.
  - cbn [generatedDistance]. lra.
  - destruct Hlt as [Hz | Hlt]; [left; exact Hz | right].
    cbn [generatedDistance]. lra.
  - exact Hfuel.
Qed.

End Extending.

(** X13.  [extendRoad(distance)] with a positive segment length and a
    unit heading in the XZ plane appends one waypoint per pass of its
    loop, [n] passes when [n] segment lengths are the fewest that reach
    [distance]: the waypoints already on the path stay as they are, each
    new waypoint is exactly one segment length from its predecessor in
    the XZ plane (the first from [lastGeneratedPosition]), the last new
    waypoint becomes [lastGeneratedPosition], the heading stays a unit
    vector, and the spline is rebuilt over the whole path. *)
Theorem extendRoad_appends_spaced_waypoints
        (r : RoadSystem.t) (fuel n : nat) (distance : R) :
  0 < RoadSystem.segmentLength r ->
  INR n * RoadSystem.segmentLength r >= distance ->
  (n = 0%nat \/ (INR n - 1) * RoadSystem.segmentLength r < distance) ->
  (n <= fuel)%nat ->
  Vec3.x (RoadSystem.currentDirection r) * Vec3.x (RoadSystem.currentDirection r) +
  Vec3.z (RoadSystem.currentDirection r) * Vec3.z (RoadSystem.currentDirection r) = 1 ->
  exists r' appended,
    RoadSystem.extendRoad fuel r distance = Some r' /\
    RoadSystem.path r' = RoadSystem.path r ++ appended /\
    length appended = n /\
    RoadSpec.spaced (RoadSystem.segmentLength r)
                    (RoadSystem.lastGeneratedPosition r :: appended) /\
    RoadSystem.lastGeneratedPosition r'
    = last appended (RoadSystem.lastGeneratedPosition r) /\
    Vec3.x (RoadSystem.currentDirection r') * Vec3.x (RoadSystem.currentDirection r') +
    Vec3.z (RoadSystem.currentDirection r') * Vec3.z (RoadSystem.currentDirection r') = 1 /\
    RoadSystem.spline r' = Some (CatmullRomSpline.mk (RoadSystem.path r')).
Proof.
  intros Hseg Hge Hlt Hfuel Hdir.
  destruct (extendRoad_result r fuel n distance Hseg Hge Hlt Hfuel)
    as (r' & Er & Hpath & Hspline & Hlast & Hcur).
  destruct (iter_trail r (NoiseGenerator.new (RoadSystem.roadSeed r)) n
              (RoadSystem.mkWalk (RoadSystem.lastGeneratedPosition r)
                                 (RoadSystem.currentDirection r) 0 (RoadSystem.path r)))
    as (new & Ew & Ln & Hs & Hp & Hd).
  { lra. }
  { exact Hdir. }
  cbn [RoadSystem.walked RoadSystem.currentPos RoadSystem.currentDir] in Ew, Hs, Hp.
  exists r', new. split; [exact Er|].
  split; [rewrite Hpath; exact Ew|]. split; [exact Ln|]. split; [exact Hs|].
  split; [rewrite Hlast; exact Hp|].
  split; [rewrite Hcur; exact Hd|].
  rewrite Hspline, Hpath. reflexivity.
Qed.

Lemma extendRoad_appends_spaced_waypoints_witness :
  exists r' appended,
    RoadSystem.extendRoad 3 RoadSpec.straightRoad 120 = Some r' /\
    RoadSystem.path r' = RoadSystem.path RoadSpec.straightRoad ++ appended /\
    length appended = 3%nat /\
    RoadSpec.spaced (RoadSystem.segmentLength RoadSpec.straightRoad)
                    (RoadSystem.lastGeneratedPosition RoadSpec.straightRoad :: appended) /\
    RoadSystem.lastGeneratedPosition r'
    = last appended (RoadSystem.lastGeneratedPosition RoadSpec.straightRoad) /\
    Vec3.x (RoadSystem.currentDirection r') * Vec3.x (RoadSystem.currentDirection r') +
    Vec3.z (RoadSystem.currentDirection r') * Vec3.z (RoadSystem.currentDirection r') = 1 /\
    RoadSystem.spline r' = Some (CatmullRomSpline.mk (RoadSystem.path r')).
Proof.
  apply (extendRoad_appends_spaced_waypoints RoadSpec.straightRoad 3 3 120);
    simpl; first [lia | lra | right; lra].
Defined.

(** X14.  With a segment length that is zero or negative and a positive
    distance to generate, the loop of [extendRoad] never exits: the
    generated distance never grows, so however many passes are allowed
    the call has not returned. *)
Theorem extendRoad_needs_positive_segment_length
        (r : RoadSystem.t) (distance : R) (fuel : nat) :
  RoadSystem.segmentLength r <= 0 -> 0 < distance ->
  RoadSystem.extendRoad fuel r distance = None.
Proof.
  intros Hseg Hd. unfold RoadSystem.extendRoad.
  rewrite extendLoop_stuck; [reflexivity | exact Hseg | cbn; lra | exact Hd].
Qed.

Lemma extendRoad_needs_positive_segment_length_witness :
  RoadSystem.extendRoad
    1000
    (RoadSystem.mk (fun _ _ => 0) 8 0 1000 [] [] None (Vec3.mk 0 0 0) (Vec3.mk 0 0 1)
                   54321 0.3 0.8 0.2 1 0)
    500 = None.
Proof.
  apply extendRoad_needs_positive_segment_length; simpl; lra.
Defined.

(** X15.  On level ground and with a level heading, an extension of
    [n] passes brings the height of the road's end toward one unit above
    the ground by the factor [(1 - terrainFollowing)] per pass: with the
    constructor's 0.8, a fifth of the remaining difference is left after
    each waypoint. *)
Theorem road_height_settles_on_level_ground
        (r : RoadSystem.t) (fuel n : nat) (distance ground : R) :
  0 < RoadSystem.segmentLength r ->
  INR n * RoadSystem.segmentLength r >= distance ->
  (n = 0%nat \/ (INR n - 1) * RoadSystem.segmentLength r < distance) ->
  (n <= fuel)%nat ->
  (forall x z, RoadSystem.terrain r x z = ground) ->
  Vec3.y (RoadSystem.currentDirection r) = 0 ->
  exists r',
    RoadSystem.extendRoad fuel r distance = Some r' /\
    Vec3.y (RoadSystem.lastGeneratedPosition r') - (ground + 1)
    = (1 - RoadSystem.terrainFollowing r) ^ n
      * (Vec3.y (RoadSystem.lastGeneratedPosition r) - (ground + 1)).
Proof.
  intros Hseg Hge Hlt Hfuel Hflat Hdir.
  destruct (extendRoad_result r fuel n distance Hseg Hge Hlt Hfuel)
    as (r' & Er & _ & _ & Hlast & _).
  exists r'. split; [exact Er|]. rewrite Hlast.
  apply (iter_height r (NoiseGenerator.new (RoadSystem.roadSeed r)) n
                     (RoadSystem.mkWalk (RoadSystem.lastGeneratedPosition r)
                                        (RoadSystem.currentDirection r) 0
                                        (RoadSystem.path r)) ground Hflat Hdir).
Qed.

Lemma road_height_settles_on_level_ground_witness :
  exists r',
    RoadSystem.extendRoad 3 RoadSpec.straightRoad 120 = Some r' /\
    Vec3.y (RoadSystem.lastGeneratedPosition r') - (0 + 1)
    = (1 - RoadSystem.terrainFollowing RoadSpec.straightRoad) ^ 3
      * (Vec3.y (RoadSystem.lastGeneratedPosition RoadSpec.straightRoad) - (0 + 1)).
Proof.
  apply (road_height_settles_on_level_ground RoadSpec.straightRoad 3 3 120 0);
    simpl; first [reflexivity | lia | lra | right; lra].
Defined.

Section Segments.

Import RoadSystem.



End Segments.



(** * Further properties of the chunk geometry and the terrain queries *)

Section Mesh.

Import TerrainSystem.

Lemma flat_map_uniform_length {A B : Type} (f : A -> list B) (l : list A) (k : nat) :
  (forall a, In a l -> length (f a) = k) ->
  length (flat_map f l) = (length l * k)%nat.
Proof.
  induction l as [|a l IH]; intros H; [reflexivity|].
  cbn [flat_map length]. rewrite length_app, H by (left; reflexivity).
  rewrite IH by (intros b Hb; apply H; right; exact Hb). lia.
Qed.

Lemma grid_length (w h : nat) : length (grid w h) = (w * h)%nat.
Proof.
  unfold grid. rewrite (flat_map_uniform_length _ _ w).
  - rewrite length_seq. lia.
  - intros z _. rewrite length_map, length_seq. reflexivity.
Qed.

Lemma grid_In (w h x z : nat) : In (x, z) (grid w h) <-> (x < w /\ z < h)%nat.
Proof.
  unfold grid. rewrite in_flat_map. split.
  - intros [z' [Hz Hin]]. apply in_map_iff in Hin. destruct Hin as [x' [E Hx]].
    injection E as <- <-. apply in_seq in Hz. apply in_seq in Hx. lia.
  - intros [Hx Hz]. exists z. split; [apply in_seq; lia|].
    apply in_map_iff. exists x. split; [reflexivity | apply in_seq; lia].
Qed.

Lemma resolutionAt_min (s : t) (lod : Z) : (8 <= resolutionAt s lod)%Z.
Proof. unfold resolutionAt. lia. Qed.

Lemma vertexAt_length (s : t) (heights : list (list R)) (wx wz step : R)
      (res : nat) (xz : nat * nat) :
  length (vertexAt s heights wx wz step res xz) = 9%nat.
Proof. destruct xz. reflexivity. Qed.

Lemma quadAt_length (res : nat) (xz : nat * nat) : length (quadAt res xz) = 6%nat.
Proof. destruct xz. reflexivity. Qed.

(** Every index of a quad of the grid addresses a vertex of the grid. *)
Lemma quadAt_in_range (res : nat) (x z : nat) (i : Z) :
  (x < res - 1)%nat -> (z < res - 1)%nat -> In i (quadAt res (x, z)) ->
  (0 <= i < Z.of_nat (res * res))%Z.
Proof.
  intros Hx Hz Hi. unfold quadAt in Hi.
  assert (H1 : (z * res + x + 1 < res * res)%nat) by nia.
  assert (H2 : ((z + 1) * res + x + 1 < res * res)%nat) by nia.
  cbn [In] in Hi.
  destruct Hi as [<- | [<- | [<- | [<- | [<- | [<- | []]]]]]]; lia.
Qed.

Lemma intended_in_range (res : nat) (i : Z) :
  In i (flat_map (quadAt res) (grid (res - 1) (res - 1))) ->
  (0 <= i < Z.of_nat (res * res))%Z.
Proof.
  intros Hi. apply in_flat_map in Hi. destruct Hi as [[x z] [Hxz Hi]].
  apply grid_In in Hxz. apply (quadAt_in_range res x z i); tauto.
Qed.

(** The last quad of the grid ends on the last vertex. *)
Lemma intended_last (res : nat) :
  (2 <= res)%nat ->
  In (Z.of_nat (res * res) - 1)%Z (flat_map (quadAt res) (grid (res - 1) (res - 1))).
Proof.
  intros Hres. apply in_flat_map. exists ((res - 2)%nat, (res - 2)%nat).
  split; [apply grid_In; lia|].
  unfold quadAt. do 5 right. left.
  replace ((res - 2 + 1) * res + (res - 2))%nat with (res * res - 2)%nat by nia.
  assert (4 <= res * res)%nat by nia. lia.
Qed.

Lemma map_fixes {A : Type} (f : A -> A) (l : list A) :
  map f l = l <-> forall a, In a l -> f a = a.
Proof.
  induction l as [|h l IH]; cbn [map]; split.
  - intros _ a [].
  - reflexivity.
  - intros E a [<- | Ha]; injection E as E1 E2; [exact E1|]. apply IH; assumption.
  - intros H. f_equal; [apply H; left; reflexivity|].
    apply IH. intros a Ha. apply H. right; exact Ha.
Qed.

(** *** Running minimum and maximum *)





End Mesh.

(** X17.  The mesh [generateChunkGeometry] builds for a chunk has one
    vertex per grid position and two triangles per grid cell: with the
    resolution [r = max(8, chunkSize >> lod)], which is at least 8, it
    has [r * r] vertices of nine numbers each, [6 (r - 1)^2] indices and
    [2 (r - 1)^2] triangles. *)
Theorem chunk_mesh_counts (s : TerrainSystem.t) (c : TerrainSystem.Chunk.t) :
  let c' := TerrainSystem.generateChunkGeometry s c in
  let r := TerrainSystem.resolutionAt s (TerrainSystem.Chunk.lod c) in
  (8 <= r)%Z /\
  TerrainSystem.Chunk.vertexCount c' = (r * r)%Z /\
  TerrainSystem.Chunk.indexCount c' = (6 * ((r - 1) * (r - 1)))%Z /\
  TerrainSystem.Chunk.triangleCount c' = (2 * ((r - 1) * (r - 1)))%Z /\
  exists vertices indices,
    TerrainSystem.Chunk.vertices c' = Some vertices /\
    Z.of_nat (length vertices) = (9 * (r * r))%Z /\
    TerrainSystem.Chunk.indices c' = Some indices /\
    Z.of_nat (length indices) = (6 * ((r - 1) * (r - 1)))%Z.
Proof.
  cbv zeta.
  pose proof (resolutionAt_min s (TerrainSystem.Chunk.lod c)) as Hr.
  set (r := TerrainSystem.resolutionAt s (TerrainSystem.Chunk.lod c)) in *.
  unfold TerrainSystem.generateChunkGeometry. fold r.
  cbn [TerrainSystem.Chunk.vertexCount TerrainSystem.Chunk.indexCount
       TerrainSystem.Chunk.triangleCount TerrainSystem.Chunk.vertices
       TerrainSystem.Chunk.indices].
  assert (Hv : Z.of_nat (length (TerrainSystem.grid (Z.to_nat r) (Z.to_nat r)))
               = (r * r)%Z).
  { rewrite grid_length, Nat2Z.inj_mul, Z2Nat.id by lia. reflexivity. }
  assert (Hi : Z.of_nat (length (flat_map (TerrainSystem.quadAt (Z.to_nat r))
                                          (TerrainSystem.grid (Z.to_nat r - 1)
                                                              (Z.to_nat r - 1))))
               = (6 * ((r - 1) * (r - 1)))%Z).
  { rewrite (flat_map_uniform_length _ _ 6) by (intros; apply quadAt_length).
    rewrite grid_length. rewrite !Nat2Z.inj_mul, Nat2Z.inj_sub, Z2Nat.id by lia.
    change (Z.of_nat 1) with 1%Z. change (Z.of_nat 6) with 6%Z. ring. }
  split; [exact Hr|]. split; [exact Hv|]. split; [exact Hi|].
  split.
  { rewrite Hi. replace (6 * ((r - 1) * (r - 1)))%Z with (2 * ((r - 1) * (r - 1)) * 3)%Z
      by ring.
    apply Z.div_mul. lia. }
  eexists. eexists. split; [reflexivity|]. split.
  { rewrite (flat_map_uniform_length _ _ 9) by (intros; apply vertexAt_length).
    rewrite Nat2Z.inj_mul, Hv. change (Z.of_nat 9) with 9%Z. ring. }
  split; [reflexivity|]. rewrite length_map. exact Hi.
Qed.

(** X18.  The index buffer is a [Uint16Array].  While the resolution is
    at most 256 every index it stores is the index that was computed,
    and addresses a vertex of the chunk; with a larger resolution (a
    [chunkSize] above 256 at level 0) the indices of the last vertices
    do not fit sixteen bits and what is stored is not what was
    computed. *)
Theorem chunk_indices_fit_sixteen_bits_up_to_256
        (s : TerrainSystem.t) (c : TerrainSystem.Chunk.t) :
  let c' := TerrainSystem.generateChunkGeometry s c in
  let r := TerrainSystem.resolutionAt s (TerrainSystem.Chunk.lod c) in
  let computed :=
    flat_map (TerrainSystem.quadAt (Z.to_nat r))
             (TerrainSystem.grid (Z.to_nat r - 1) (Z.to_nat r - 1)) in
  TerrainSystem.Chunk.indices c' = Some (map (fun i => (i mod 65536)%Z) computed) /\
  Forall (fun i => (0 <= i < TerrainSystem.Chunk.vertexCount c')%Z) computed /\
  ((r <= 256)%Z -> map (fun i => (i mod 65536)%Z) computed = computed) /\
  ((256 < r)%Z -> map (fun i => (i mod 65536)%Z) computed <> computed).
Proof.
  cbv zeta.
  pose proof (resolutionAt_min s (TerrainSystem.Chunk.lod c)) as Hr.
  set (r := TerrainSystem.resolutionAt s (TerrainSystem.Chunk.lod c)) in *.
  unfold TerrainSystem.generateChunkGeometry. fold r.
  cbn [TerrainSystem.Chunk.vertexCount TerrainSystem.Chunk.indices].
  split; [reflexivity|].
  rewrite grid_length.
  split.
  { apply Forall_forall. intros i Hi. apply intended_in_range. exact Hi. }
  split.
  - intros Hle. apply map_fixes. intros i Hi. apply intended_in_range in Hi.
    apply Z.mod_small.
    assert (Z.of_nat (Z.to_nat r * Z.to_nat r) <= 65536)%Z
      by (rewrite Nat2Z.inj_mul, Z2Nat.id by lia; nia).
    lia.
  - intros Hgt E. rewrite map_fixes in E.
    specialize (E _ (intended_last (Z.to_nat r) ltac:(lia))). cbv beta in E.
    assert (H1 : (65536 <= Z.of_nat (Z.to_nat r * Z.to_nat r) - 1)%Z)
      by (rewrite Nat2Z.inj_mul, Z2Nat.id by lia; nia).
    pose proof (Z.mod_pos_bound (Z.of_nat (Z.to_nat r * Z.to_nat r) - 1) 65536
                                ltac:(lia)).
    lia.
Qed.



(** X20.  Every vertex normal [calculateNormal] returns is a unit vector
    that points upward: its length is 1 and its [y] component is
    positive, whatever the heights.  (The vector that is normalised has
    the constant 2 as its [y] component.  The code's step is the chunk
    world size over [resolution - 1 >= 7], not zero unless that size is;
    the statement, over the reals, does not depend on it.) *)
Theorem chunk_normals_are_unit_and_point_up
        (heights : list (list R)) (x z resolution : Z) (step : R) :
  let n := TerrainSystem.calculateNormal heights x z resolution step in
  Vec3.length n = 1 /\ 0 < Vec3.y n.
Proof.
  cbv zeta. unfold TerrainSystem.calculateNormal.
  match goal with
  | |- context [Vec3.normalize (Vec3.mk ?a 2 ?b)] => set (dx := a); set (dz := b)
  end.
  assert (Hlen : 0 < Vec3.length (Vec3.mk dx 2 dz)).
  { unfold Vec3.length. cbn [Vec3.x Vec3.y Vec3.z]. apply sqrt_lt_R0.
    pose proof (Rle_0_sqr dx) as H1. pose proof (Rle_0_sqr dz) as H2.
    unfold Rsqr in *. lra. }
  split; [apply normalize_unit; exact Hlen|].
  unfold Vec3.normalize.
  replace (JS.gtb (Vec3.length (Vec3.mk dx 2 dz)) 0) with true
    by (symmetry; apply gtb_true; lra).
  unfold Vec3.divide. cbn [Vec3.y].
  apply Rmult_lt_0_compat; [lra | apply Rinv_0_lt_compat; exact Hlen].
Qed.

Section Frustum.

Import TerrainSystem.

(** The corner of the box farthest along a plane's normal. *)
Lemma positive_vertex_is_farthest (n c e p : R) :
  c - e <= p <= c + e ->
  n * p <= n * (if JS.geb n 0 then c + e else c - e).
Proof.
  intros Hp. unfold JS.geb. destruct (JS.leb 0 n) eqn:E.
  - apply leb_true in E. apply Rmult_le_compat_l; lra.
  - apply leb_false in E.
    assert (0 <= (- n) * (p - (c - e))) by (apply Rmult_le_pos; lra).
    lra.
Qed.

Lemma positive_vertex_in_box (n c e : R) :
  0 <= e -> c - e <= (if JS.geb n 0 then c + e else c - e) <= c + e.
Proof. intros He. destruct (JS.geb n 0); lra. Qed.

End Frustum.

(** X21.  The frustum test culls a bounding box exactly when the box
    lies wholly behind one of the planes: [isChunkInFrustum] returns
    false if and only if for some plane [(a, b, c, d)] of the list every
    point [p] of the box has [a p.x + b p.y + c p.z + d < 0].  So a box
    with any point on the inner side of all the planes is never culled,
    and an empty plane list culls nothing. *)
Theorem frustum_test_culls_only_boxes_behind_a_plane
        (b : TerrainSystem.Bounds.t) (planes : list TerrainSystem.plane) :
  0 <= Vec3.x (TerrainSystem.Bounds.extents b) ->
  0 <= Vec3.y (TerrainSystem.Bounds.extents b) ->
  0 <= Vec3.z (TerrainSystem.Bounds.extents b) ->
  (TerrainSystem.isChunkInFrustum b planes = false <->
   exists plane,
     In plane planes /\
     forall p : Vec3.t,
       Vec3.x (TerrainSystem.Bounds.center b) - Vec3.x (TerrainSystem.Bounds.extents b)
       <= Vec3.x p
       <= Vec3.x (TerrainSystem.Bounds.center b) + Vec3.x (TerrainSystem.Bounds.extents b) ->
       Vec3.y (TerrainSystem.Bounds.center b) - Vec3.y (TerrainSystem.Bounds.extents b)
       <= Vec3.y p
       <= Vec3.y (TerrainSystem.Bounds.center b) + Vec3.y (TerrainSystem.Bounds.extents b) ->
       Vec3.z (TerrainSystem.Bounds.center b) - Vec3.z (TerrainSystem.Bounds.extents b)
       <= Vec3.z p
       <= Vec3.z (TerrainSystem.Bounds.center b) + Vec3.z (TerrainSystem.Bounds.extents b) ->
       TerrainSystem.p0 plane * Vec3.x p + TerrainSystem.p1 plane * Vec3.y p +
       TerrainSystem.p2 plane * Vec3.z p + TerrainSystem.p3 plane < 0).
Proof.
  intros Hex Hey Hez.
  set (cx := Vec3.x (TerrainSystem.Bounds.center b)).
  set (cy := Vec3.y (TerrainSystem.Bounds.center b)).
  set (cz := Vec3.z (TerrainSystem.Bounds.center b)).
  set (ex := Vec3.x (TerrainSystem.Bounds.extents b)) in *.
  set (ey := Vec3.y (TerrainSystem.Bounds.extents b)) in *.
  set (ez := Vec3.z (TerrainSystem.Bounds.extents b)) in *.
  induction planes as [|plane rest IH].
  - cbn [TerrainSystem.isChunkInFrustum]. split; [discriminate|].
    intros [plane [[] _]].
  - cbn [TerrainSystem.isChunkInFrustum]. unfold Vec3.dot. cbn [Vec3.x Vec3.y Vec3.z].
    fold cx cy cz ex ey ez.
    set (vx := if JS.geb (TerrainSystem.p0 plane) 0 then cx + ex else cx - ex).
    set (vy := if JS.geb (TerrainSystem.p1 plane) 0 then cy + ey else cy - ey).
    set (vz := if JS.geb (TerrainSystem.p2 plane) 0 then cz + ez else cz - ez).
    destruct (JS.ltb _ 0) eqn:E.
    + apply ltb_true in E. split; [intros _ | reflexivity].
      exists plane. split; [left; reflexivity|]. intros p Hx Hy Hz.
      assert (TerrainSystem.p0 plane * Vec3.x p <= TerrainSystem.p0 plane * vx)
        by exact (positive_vertex_is_farthest (TerrainSystem.p0 plane) cx ex _ Hx).
      assert (TerrainSystem.p1 plane * Vec3.y p <= TerrainSystem.p1 plane * vy)
        by exact (positive_vertex_is_farthest (TerrainSystem.p1 plane) cy ey _ Hy).
      assert (TerrainSystem.p2 plane * Vec3.z p <= TerrainSystem.p2 plane * vz)
        by exact (positive_vertex_is_farthest (TerrainSystem.p2 plane) cz ez _ Hz).
      lra.
    + apply ltb_false in E. rewrite IH. split.
      * intros [pl [Hin Hall]]. exists pl. split; [right; exact Hin | exact Hall].
      * intros [pl [[<- | Hin] Hall]]; [|exists pl; split; assumption].
        exfalso.
        specialize (Hall (Vec3.mk vx vy vz)). cbn [Vec3.x Vec3.y Vec3.z] in Hall.
        assert (Hx : cx - ex <= vx <= cx + ex)
          by exact (positive_vertex_in_box (TerrainSystem.p0 plane) cx ex Hex).
        assert (Hy : cy - ey <= vy <= cy + ey)
          by exact (positive_vertex_in_box (TerrainSystem.p1 plane) cy ey Hey).
        assert (Hz : cz - ez <= vz <= cz + ez)
          by exact (positive_vertex_in_box (TerrainSystem.p2 plane) cz ez Hez).
        specialize (Hall Hx Hy Hz). lra.
Qed.

Lemma frustum_test_culls_only_boxes_behind_a_plane_witness :
  TerrainSystem.isChunkInFrustum
    (TerrainSystem.Bounds.mk (Vec3.mk 0 0 0) (Vec3.mk 1 1 1)
                             (Vec3.mk (-1) (-1) (-1)) (Vec3.mk 1 1 1))
    [TerrainSystem.mkPlane 1 0 0 (-5)] = false.
Proof.
  apply (frustum_test_culls_only_boxes_behind_a_plane
           (TerrainSystem.Bounds.mk (Vec3.mk 0 0 0) (Vec3.mk 1 1 1)
                                    (Vec3.mk (-1) (-1) (-1)) (Vec3.mk 1 1 1))
           [TerrainSystem.mkPlane 1 0 0 (-5)]); try (simpl; lra).
  exists (TerrainSystem.mkPlane 1 0 0 (-5)). split; [left; reflexivity|].
  simpl. intros p Hx Hy Hz. lra.
Defined.

Section Casting.

Import TerrainSystem.

Lemma range_empty (lo hi : Z) : (hi < lo)%Z -> JS.range lo hi = [].
Proof.
  intros H. unfold JS.range. replace (Z.to_nat (hi - lo + 1)) with 0%nat by lia.
  reflexivity.
Qed.

(** The loop of [raycast] over the distances [lo..hi]: it stops at the
    first one whose sample is at or below the terrain. *)
Lemma raycastLoop_range (s : t) (ray : Ray.t) (n : nat) (lo hi : Z) :
  Z.to_nat (hi - lo + 1) = n ->
  let sample := fun k : Z =>
    Vec3.add (Ray.origin ray) (Vec3.multiply (Ray.direction ray) (IZR k)) in
  let ground := fun k : Z =>
    getHeightAt s (Vec3.x (sample k)) (Vec3.z (sample k)) in
  match raycastLoop s ray (JS.range lo hi) with
  | Some h =>
      exists k, (lo <= k <= hi)%Z /\
                h = Hit.mk (Vec3.mk (Vec3.x (sample k)) (ground k) (Vec3.z (sample k)))
                           (IZR k) Vec3.up /\
                Vec3.y (sample k) <= ground k /\
                forall j, (lo <= j < k)%Z -> ground j < Vec3.y (sample j)
  | None => forall j, (lo <= j <= hi)%Z -> ground j < Vec3.y (sample j)
  end.
Proof.
  cbv zeta. revert lo. induction n as [|n IH]; intros lo Hn.
  - rewrite range_empty by lia. cbn [raycastLoop]. intros j Hj. lia.
  - rewrite range_cons by lia. cbn [raycastLoop].
    destruct (JS.leb _ _) eqn:E.
    + apply leb_true in E. exists lo. split; [lia|]. split; [reflexivity|].
      split; [exact E|]. intros j Hj. lia.
    + apply leb_false in E. specialize (IH (lo + 1)%Z ltac:(lia)).
      destruct (raycastLoop s ray (JS.range (lo + 1) hi)) as [h|].
      * destruct IH as (k & Hk & Eh & Hle & Hbefore).
        exists k. split; [lia|]. split; [exact Eh|]. split; [exact Hle|].
        intros j Hj. destruct (Z.eq_dec j lo) as [-> | Hne]; [exact E|].
        apply Hbefore. lia.
      * intros j Hj. destruct (Z.eq_dec j lo) as [-> | Hne]; [exact E|].
        apply IH. lia.
Qed.

End Casting.

(** X22.  [raycast] samples the ray at the distances 0, 1, ..., 999 and
    reports the first sample that is at or below the terrain: the hit
    distance is that whole number, the hit point is the sample moved
    onto the terrain surface, the normal is straight up, and every
    earlier sample is strictly above the terrain.  It reports no hit
    exactly when all thousand samples are strictly above the terrain;
    terrain crossed between two samples is not seen. *)
Theorem raycast_reports_the_first_sample_on_the_ground
        (s : TerrainSystem.t) (ray : TerrainSystem.Ray.t) :
  let sample := fun k : Z =>
    Vec3.add (TerrainSystem.Ray.origin ray)
             (Vec3.multiply (TerrainSystem.Ray.direction ray) (IZR k)) in
  let ground := fun k : Z =>
    TerrainSystem.getHeightAt s (Vec3.x (sample k)) (Vec3.z (sample k)) in
  match TerrainSystem.raycast s ray with
  | Some h =>
      exists k, (0 <= k <= 999)%Z /\
                TerrainSystem.Hit.distance h = IZR k /\
                TerrainSystem.Hit.point h
                = Vec3.mk (Vec3.x (sample k)) (ground k) (Vec3.z (sample k)) /\
                TerrainSystem.Hit.normal h = Vec3.up /\
                Vec3.y (sample k) <= ground k /\
                forall j, (0 <= j < k)%Z -> ground j < Vec3.y (sample j)
  | None => forall j, (0 <= j <= 999)%Z -> ground j < Vec3.y (sample j)
  end.
Proof.
  cbv zeta. unfold TerrainSystem.raycast.
  pose proof (raycastLoop_range s ray (Z.to_nat (999 - 0 + 1)) 0 999 eq_refl) as H.
  cbv zeta in H.
  destruct (TerrainSystem.raycastLoop s ray (JS.range 0 999)) as [h|]; [|exact H].
  destruct H as (k & Hk & -> & Hle & Hbefore).
  exists k. cbn [TerrainSystem.Hit.distance TerrainSystem.Hit.point
                 TerrainSystem.Hit.normal].
  auto 10.
Qed.

Section Levels.

Import TerrainSystem TerrainSpec.

Lemma floor_monotone (a b : R) : a <= b -> (JS.floor a <= JS.floor b)%Z.
Proof.
  intros H. apply le_floor. pose proof (floor_spec a). lra.
Qed.

Lemma gridDistance_nonneg (s : t) (anchor : Vec3.t) (k : Key.t) :
  0 <= gridDistance s anchor k.
Proof. unfold gridDistance. apply sqrt_pos. Qed.

Lemma lodFormula_range (s : t) (anchor : Vec3.t) (k : Key.t) :
  0 < maxDistance s -> (1 <= lodLevels s)%Z ->
  (0 <= lodFormula s anchor k <= lodLevels s - 1)%Z.
Proof.
  intros Hm Hl. unfold lodFormula.
  assert (Hq : 0 < maxDistance s / IZR (lodLevels s)).
  { apply Rdiv_lt_0_compat; [exact Hm|]. apply IZR_lt. lia. }
  assert (0 <= JS.floor (gridDistance s anchor k / (maxDistance s / IZR (lodLevels s))))%Z.
  { apply floor_nonneg. apply Rmult_le_pos; [apply gridDistance_nonneg|].
    apply Rlt_le, Rinv_0_lt_compat, Hq. }
  lia.
Qed.

Lemma lodFormula_monotone (s : t) (anchor : Vec3.t) (k1 k2 : Key.t) :
  0 < maxDistance s -> (1 <= lodLevels s)%Z ->
  gridDistance s anchor k1 <= gridDistance s anchor k2 ->
  (lodFormula s anchor k1 <= lodFormula s anchor k2)%Z.
Proof.
  intros Hm Hl Hd. unfold lodFormula.
  assert (Hq : 0 < maxDistance s / IZR (lodLevels s)).
  { apply Rdiv_lt_0_compat; [exact Hm|]. apply IZR_lt. lia. }
  apply Z.min_le_compat_r. apply floor_monotone.
  apply Rmult_le_compat_r; [|exact Hd].
  apply Rlt_le, Rinv_0_lt_compat, Hq.
Qed.

Lemma lodFormula_near (s : t) (anchor : Vec3.t) (k : Key.t) :
  (1 <= lodLevels s)%Z -> gridDistance s anchor k = 0 -> lodFormula s anchor k = 0%Z.
Proof.
  intros Hl Hd. unfold lodFormula. rewrite Hd.
  replace (0 / (maxDistance s / IZR (lodLevels s))) with (IZR 0)
    by (unfold Rdiv; ring).
  rewrite floor_IZR. lia.
Qed.

End Levels.

(** X23.  For a positive render distance and at least one level, the
    level of detail [getRequiredChunks] assigns follows the distance:
    every required chunk is within the render distance and gets a level
    from 0 to [lodLevels - 1], a chunk at distance 0 (the anchor's own)
    gets level 0, the full resolution, and of two required chunks the
    farther never gets the finer level. *)
Theorem required_level_of_detail_follows_distance
        (s : TerrainSystem.t) (anchor : Vec3.t) :
  0 < TerrainSpec.maxDistance s -> (1 <= TerrainSystem.lodLevels s)%Z ->
  (forall c, In c (TerrainSystem.getRequiredChunks s anchor) ->
             0 <= TerrainSystem.r_distance c <= TerrainSpec.maxDistance s /\
             (0 <= TerrainSystem.r_lod c <= TerrainSystem.lodLevels s - 1)%Z /\
             (TerrainSystem.r_distance c = 0 -> TerrainSystem.r_lod c = 0%Z)) /\
  (forall c1 c2,
      In c1 (TerrainSystem.getRequiredChunks s anchor) ->
      In c2 (TerrainSystem.getRequiredChunks s anchor) ->
      TerrainSystem.r_distance c1 <= TerrainSystem.r_distance c2 ->
      (TerrainSystem.r_lod c1 <= TerrainSystem.r_lod c2)%Z).
Proof.
  intros Hm Hl. split.
  - intros c Hc. apply required_In in Hc. destruct Hc as (_ & _ & Hd & Hle & Hlod).
    split; [split; [rewrite Hd; apply gridDistance_nonneg | exact Hle]|].
    rewrite Hlod, Hd. destruct (TerrainSystem.Settings.autoLOD (TerrainSystem.settings s)).
    + split; [apply lodFormula_range; assumption|].
      apply lodFormula_near. exact Hl.
    + split; [lia | reflexivity].
  - intros c1 c2 H1 H2 Hd.
    apply required_In in H1. destruct H1 as (_ & _ & Hd1 & _ & Hlod1).
    apply required_In in H2. destruct H2 as (_ & _ & Hd2 & _ & Hlod2).
    rewrite Hlod1, Hlod2.
    destruct (TerrainSystem.Settings.autoLOD (TerrainSystem.settings s)); [|lia].
    apply lodFormula_monotone; [assumption | assumption |].
    rewrite <- Hd1, <- Hd2. exact Hd.
Qed.

Lemma required_level_of_detail_follows_distance_witness :
  let s := TerrainSystem.mk GL.fresh 128 500 2000 4 100 [] [] [] []
                            (BiomeNoise.new 12345) (TerrainSystem.Stats.mk 0 0 0)
                            (TerrainSystem.Settings.mk false false true true true) in
  (0 < TerrainSpec.maxDistance s /\ (1 <= TerrainSystem.lodLevels s)%Z) /\
  (forall c1 c2,
      In c1 (TerrainSystem.getRequiredChunks s TerrainSpec.origin) ->
      In c2 (TerrainSystem.getRequiredChunks s TerrainSpec.origin) ->
      TerrainSystem.r_distance c1 <= TerrainSystem.r_distance c2 ->
      (TerrainSystem.r_lod c1 <= TerrainSystem.r_lod c2)%Z).
Proof.
  assert (Hm : 0 < TerrainSpec.maxDistance
                     (TerrainSystem.mk GL.fresh 128 500 2000 4 100 [] [] [] []
                        (BiomeNoise.new 12345) (TerrainSystem.Stats.mk 0 0 0)
                        (TerrainSystem.Settings.mk false false true true true))).
  { unfold TerrainSpec.maxDistance. simpl. lra. }
  split; [split; [exact Hm | simpl; lia]|].
  apply (required_level_of_detail_follows_distance
           (TerrainSystem.mk GL.fresh 128 500 2000 4 100 [] [] [] []
                             (BiomeNoise.new 12345) (TerrainSystem.Stats.mk 0 0 0)
                             (TerrainSystem.Settings.mk false false true true true))
           TerrainSpec.origin).
  - exact Hm.
  - simpl. lia.
Defined.

(** * Further properties of the chunk streaming *)

Section Settled.

Import TerrainSystem TerrainSpec.

Lemma state_ext (a b : t) :
  gl a = gl b -> chunkSize a = chunkSize b -> chunkWorldSize a = chunkWorldSize b ->
  renderDistance a = renderDistance b -> lodLevels a = lodLevels b ->
  heightScale a = heightScale b -> chunks a = chunks b -> chunkPool a = chunkPool b ->
  loadedChunks a = loadedChunks b -> visibleChunks a = visibleChunks b ->
  biomeNoise a = biomeNoise b -> stats a = stats b -> settings a = settings b ->
  a = b.
Proof. destruct a, b. cbn. intros. subst. reflexivity. Qed.

(** The required set depends on the anchor and on the setup only. *)
Lemma required_of_setup (s s' : t) (cam : Vec3.t) :
  sameSetup s s' -> getRequiredChunks s' cam = getRequiredChunks s cam.
Proof.
  intros (A1 & A2 & A3 & A4 & A5 & A6). unfold getRequiredChunks.
  rewrite A2, A3, A4, A6. reflexivity.
Qed.

Lemma unload_noop (req : KeySet.t) (ks : list Key.t) (s : t) :
  (forall k, In k ks -> In k req) ->
  fold_left (fun s key => if KeySet.has req key then s else unloadChunk s key) ks s = s.
Proof.
  induction ks as [|k ks IH]; intros H; cbn [fold_left]; [reflexivity|].
  replace (KeySet.has req k) with true
    by (symmetry; apply has_In, H; left; reflexivity).
  apply IH. intros k' Hk'. apply H. right; exact Hk'.
Qed.

Lemma load_noop (cs : list required) (s : t) :
  (forall c, In c cs -> In (getChunkKey (r_x c) (r_z c)) (loadedChunks s)) ->
  loadNewChunks s cs = s.
Proof.
  unfold loadNewChunks.
  induction cs as [|c cs IH]; intros H; cbn [fold_left]; [reflexivity|].
  replace (KeySet.has (loadedChunks s) (getChunkKey (r_x c) (r_z c))) with true
    by (symmetry; apply has_In, H; left; reflexivity).
  apply IH. intros c' Hc'. apply H. right; exact Hc'.
Qed.

(** The visibility decided for a chunk does not depend on its flag. *)
Lemma chunkVisibility_flag (s s' : t) (cam : Vec3.t) (planes : option (list plane))
      (c : Chunk.t) (v : bool) :
  settings s' = settings s -> chunkWorldSize s' = chunkWorldSize s ->
  renderDistance s' = renderDistance s ->
  chunkVisibility s' cam planes (set_visible c v) = chunkVisibility s cam planes c.
Proof.
  intros E1 E2 E3. unfold chunkVisibility, set_visible.
  cbn [Chunk.bounds Chunk.worldX Chunk.worldZ]. rewrite E1, E2, E3. reflexivity.
Qed.

(** Running the visibility loop again over its own result, from the
    same anchor, decides the same. *)
Lemma visibility_settled (s s' : t) (cam : Vec3.t) (planes : option (list plane))
      (entries : list (Key.t * Chunk.t)) (keys0 : KeySet.t) (t0 : Z)
      (done : list (Key.t * Chunk.t)) (keys : KeySet.t) (total : Z) :
  settings s' = settings s -> chunkWorldSize s' = chunkWorldSize s ->
  renderDistance s' = renderDistance s ->
  visibilityLoop s cam planes entries keys0 t0 = Some (done, keys, total) ->
  visibilityLoop s' cam planes done keys0 t0 = Some (done, keys, total).
Proof.
  intros E1 E2 E3. revert keys0 t0 done.
  induction entries as [|[key chunk] entries IH]; intros keys0 t0 done H;
    cbn [visibilityLoop] in H.
  - injection H as <- <- <-. reflexivity.
  - destruct (chunkVisibility s cam planes chunk) as [v|] eqn:Ev; [|discriminate].
    destruct (visibilityLoop s cam planes entries _ _) as [[[d k] tt]|] eqn:El;
      [|discriminate].
    injection H as <- <- <-. cbn [visibilityLoop].
    rewrite (chunkVisibility_flag s s' cam planes chunk v E1 E2 E3), Ev.
    change (Chunk.triangleCount (set_visible chunk v)) with (Chunk.triangleCount chunk).
    rewrite (IH _ _ _ El). reflexivity.
Qed.

(** An update from the anchor of the update before finds nothing to
    unload, nothing to load and every flag as it would set it. *)
Lemma update_settles (s s' : t) (cam : Vec3.t) (planes : option (list plane)) :
  consistent s -> update s cam planes = Some s' -> update s' cam planes = Some s'.
Proof.
  intros Hs Hu.
  destruct (update_spec s cam planes Hs) as (s1 & E1 & _ & S1 & L1 & _).
  rewrite Hu in E1. injection E1 as <-.
  assert (Hu' := Hu). unfold update in Hu'. cbv zeta in Hu'.
  set (req := getRequiredChunks s cam) in *.
  set (s2 := loadNewChunks (unloadDistantChunks s cam req) req) in *.
  clearbody s2.
  unfold updateVisibility in Hu'.
  destruct (visibilityLoop s2 cam planes (chunks s2) [] 0)
    as [[[entries keys] triangles]|] eqn:Ev; [|discriminate].
  injection Hu' as Hu'.
  assert (Hreq : forall k, In k (loadedChunks s') <->
                           In k (map (fun c => getChunkKey (r_x c) (r_z c)) req)).
  { intros k. rewrite L1. unfold requiredKeys. fold req. tauto. }
  unfold update. cbv zeta. rewrite (required_of_setup s s' cam S1). fold req.
  unfold unloadDistantChunks.
  rewrite unload_noop
    by (intros k Hk; apply requiredKeys_In; right; apply Hreq; exact Hk).
  rewrite load_noop
    by (intros c Hc; apply Hreq;
        exact (in_map (fun c => getChunkKey (r_x c) (r_z c)) req c Hc)).
  unfold updateVisibility.
  assert (Hc : chunks s' = entries) by (rewrite <- Hu'; reflexivity).
  rewrite Hc.
  rewrite (visibility_settled s2 s' cam planes (chunks s2) [] 0 entries keys triangles);
    [| rewrite <- Hu'; reflexivity | rewrite <- Hu'; reflexivity
     | rewrite <- Hu'; reflexivity | exact Ev].
  f_equal. rewrite <- Hu'. apply state_ext; reflexivity.
Qed.

Lemma no_member_nil {A : Type} (l : list A) : (forall a, ~ In a l) -> l = [].
Proof.
  destruct l as [|a l]; intros H; [reflexivity|].
  exfalso. apply (H a). left; reflexivity.
Qed.

(** Unloading every loaded key leaves the registry empty. *)
Lemma unloadAll_empties (s : t) :
  consistent s ->
  loadedChunks (unloadAll s) = [] /\ chunks (unloadAll s) = [] /\
  consistent (unloadAll s) /\ sameSetup s (unloadAll s).
Proof.
  intros Hs. unfold unloadAll.
  destruct (unload_pass [] (loadedChunks s) s Hs) as (C & S & L & _).
  change (fold_left (fun s0 key => if KeySet.has [] key then s0 else unloadChunk s0 key)
                    (loadedChunks s) s)
    with (fold_left unloadChunk (loadedChunks s) s) in *.
  assert (El : loadedChunks (fold_left unloadChunk (loadedChunks s) s) = []).
  { apply no_member_nil. intros k Hk. apply L in Hk.
    destruct Hk as [H1 [[] | H2]]. contradiction. }
  split; [exact El|]. split; [|split; [exact C | exact S]].
  destruct C as [Hsync _]. rewrite El in Hsync.
  apply map_eq_nil in Hsync. exact Hsync.
Qed.

(** Regenerating from any registry leaves the five-by-five block of
    keys at the origin, all at level 0. *)
Lemma regenerate_block (s : t) :
  consistent s ->
  (forall k, In k (loadedChunks (regenerateAllChunks s)) <->
             exists x z, (-2 <= x <= 2)%Z /\ (-2 <= z <= 2)%Z /\ k = Key.ofZ x z) /\
  Forall (fun e => Chunk.lod (snd e) = 0%Z) (chunks (regenerateAllChunks s)) /\
  sameSetup s (regenerateAllChunks s).
Proof.
  intros Hs. unfold regenerateAllChunks.
  destruct (unloadAll_empties s Hs) as (El & Ec & C & S).
  unfold generateInitialChunks.
  destruct (initial_pass (JS.range (- 2) 2) (JS.range (- 2) 2) (unloadAll s) C)
    as (_ & S2 & L & _ & Z0).
  split; [|split].
  - intros k. rewrite L, El. split.
    + intros [[] | (x & z & Hx & Hz & ->)]. apply range_In in Hx, Hz. eauto.
    + intros (x & z & Hx & Hz & ->). right. exists x, z. rewrite !range_In. auto.
  - apply Z0. rewrite Ec. constructor.
  - eapply sameSetup_trans; eassumption.
Qed.

Lemma delete_one {A : Type} (m : KeyMap.t A) (key : Key.t) (v : A) :
  NoDup (map fst m) -> KeyMap.get m key = Some v ->
  S (length (KeyMap.delete m key)) = length m.
Proof.
  induction m as [|[k w] m IH]; intros Hnd Hget; [discriminate|].
  inversion Hnd as [|k' l Hk Hrest]; subst.
  unfold KeyMap.get in Hget. cbn [find fst] in Hget.
  unfold KeyMap.delete. cbn [filter fst].
  destruct (Key.eqb key k) eqn:E.
  - apply key_eqb_eq in E. subst k. cbn [negb].
    fold (KeyMap.delete m key). rewrite map_delete_absent by exact Hk. reflexivity.
  - cbn [negb length]. f_equal. apply IH; [exact Hrest|]. exact Hget.
Qed.

Lemma unloadChunk_pool (s : t) (key : Key.t) (c : Chunk.t) :
  KeyMap.get (chunks s) key = Some c ->
  length (chunkPool (unloadChunk s key)) = S (length (chunkPool s)) /\
  chunks (unloadChunk s key) = KeyMap.delete (chunks s) key.
Proof.
  intros E. unfold unloadChunk. rewrite E.
  destruct (Chunk.buffers c); split; reflexivity.
Qed.

Lemma generateChunk_pool (s : t) (x z : R) (lod : Z) :
  ~ In (getChunkKey x z) (loadedChunks s) ->
  chunkPool (generateChunk s x z lod) = tl (chunkPool s).
Proof.
  intros H. unfold generateChunk.
  replace (KeySet.has (loadedChunks s) (getChunkKey x z)) with false
    by (symmetry; apply has_not_In; exact H).
  unfold getChunkFromPool.
  destruct (chunkPool s) as [|c rest] eqn:E.
  - destruct (fillChunk s Chunk.blank x z lod) as [chunk g].
    cbn [chunkPool set_stats set_loadedChunks set_chunks set_gl]. exact E.
  - destruct (fillChunk (set_chunkPool s rest) c x z lod) as [chunk g].
    reflexivity.
Qed.

End Settled.

(** X24.  Streaming is idempotent: in every state a terrain object can
    reach, [update] returns, and calling [update] again from the same
    anchor with the same frustum planes changes nothing at all: no chunk
    is unloaded or generated, the registry, the pool, the visible set,
    the statistics and the GL context are the ones the first call
    left. *)
Theorem update_twice_is_update_once
        (s : TerrainSystem.t) (anchor : Vec3.t)
        (planes : option (list TerrainSystem.plane)) :
  TerrainSystem.reachable s ->
  exists s',
    TerrainSystem.update s anchor planes = Some s' /\
    TerrainSystem.update s' anchor planes = Some s'.
Proof.
  intros Hr. destruct (reachable_consistent s Hr) as [Hs _].
  destruct (update_spec s anchor planes Hs) as (s' & E & _).
  exists s'. split; [exact E|]. apply (update_settles s s' anchor planes Hs E).
Qed.

Lemma update_twice_is_update_once_witness :
  exists s',
    TerrainSystem.update (TerrainSystem.new GL.fresh) TerrainSpec.origin None = Some s' /\
    TerrainSystem.update s' TerrainSpec.origin None = Some s'.
Proof.
  apply (update_twice_is_update_once (TerrainSystem.new GL.fresh) TerrainSpec.origin None).
  apply TerrainSystem.reachable_new.
Defined.

(** X25.  [regenerateAllChunks], and so [updateSettings] with a new
    chunk size, does not rebuild the chunks that were loaded: in every
    reachable state, wherever the last anchor was, it leaves loaded
    exactly the five-by-five block of keys [-2..2 x -2..2] around the
    world origin that the constructor generates, every chunk at level 0;
    [updateSettings] also records the new size. *)
Theorem regenerateAllChunks_reloads_the_origin_block (s : TerrainSystem.t) :
  TerrainSystem.reachable s ->
  ((forall k, In k (TerrainSystem.loadedChunks (TerrainSystem.regenerateAllChunks s)) <->
              exists x z, (-2 <= x <= 2)%Z /\ (-2 <= z <= 2)%Z /\ k = Key.ofZ x z) /\
   Forall (fun e => TerrainSystem.Chunk.lod (snd e) = 0%Z)
          (TerrainSystem.chunks (TerrainSystem.regenerateAllChunks s))) /\
  (forall p size,
      TerrainSystem.Settings.p_chunkSize p = Some size ->
      size <> 0%Z -> size <> TerrainSystem.chunkSize s ->
      TerrainSystem.chunkSize (TerrainSystem.updateSettings s p) = size /\
      (forall k, In k (TerrainSystem.loadedChunks (TerrainSystem.updateSettings s p)) <->
                 exists x z, (-2 <= x <= 2)%Z /\ (-2 <= z <= 2)%Z /\ k = Key.ofZ x z) /\
      Forall (fun e => TerrainSystem.Chunk.lod (snd e) = 0%Z)
             (TerrainSystem.chunks (TerrainSystem.updateSettings s p))).
Proof.
  intros Hr. destruct (reachable_consistent s Hr) as [Hs _].
  split.
  - destruct (regenerate_block s Hs) as (L & Z0 & _). split; assumption.
  - intros p size Ep H0 Hne. unfold TerrainSystem.updateSettings. rewrite Ep.
    cbn [TerrainSystem.chunkSize TerrainSystem.set_settings].
    replace (negb (size =? 0)%Z) with true
      by (symmetry; apply negb_true_iff, Z.eqb_neq; exact H0).
    replace (negb (size =? TerrainSystem.chunkSize s)%Z) with true
      by (symmetry; apply negb_true_iff, Z.eqb_neq; exact Hne).
    cbn [andb].
    match goal with
    | |- context [TerrainSystem.regenerateAllChunks ?s0] =>
        assert (Hs0 : TerrainSpec.consistent s0) by exact Hs;
        destruct (regenerate_block s0 Hs0) as (L & Z0 & S0)
    end.
    split; [|split; assumption].
    destruct S0 as (A1 & _). rewrite A1. reflexivity.
Qed.

Lemma regenerateAllChunks_reloads_the_origin_block_witness :
  In (Key.ofZ 2 (-2))
     (TerrainSystem.loadedChunks
        (TerrainSystem.regenerateAllChunks (TerrainSystem.new GL.fresh))).
Proof.
  destruct (regenerateAllChunks_reloads_the_origin_block
              (TerrainSystem.new GL.fresh) (TerrainSystem.reachable_new GL.fresh))
    as [[L _] _].
  apply L. exists 2%Z, (-2)%Z. repeat split; lia.
Defined.

(** X26.  Chunk objects are recycled.  In every reachable state,
    unloading a loaded key moves its chunk object from the registry to
    the pool, so the number of objects (registry plus pool) stays the
    same; and generating a key that is not loaded adds one chunk to the
    registry and takes one object out of the pool, the number of objects
    growing, by one, only when the pool was empty. *)
Theorem chunk_objects_are_recycled (s : TerrainSystem.t) :
  TerrainSystem.reachable s ->
  (forall key,
      In key (TerrainSystem.loadedChunks s) ->
      length (TerrainSystem.chunks (TerrainSystem.unloadChunk s key))
      = Nat.pred (length (TerrainSystem.chunks s)) /\
      length (TerrainSystem.chunkPool (TerrainSystem.unloadChunk s key))
      = S (length (TerrainSystem.chunkPool s)) /\
      (length (TerrainSystem.chunks (TerrainSystem.unloadChunk s key)) +
       length (TerrainSystem.chunkPool (TerrainSystem.unloadChunk s key))
       = length (TerrainSystem.chunks s) + length (TerrainSystem.chunkPool s))%nat) /\
  (forall x z lod,
      ~ In (TerrainSystem.getChunkKey x z) (TerrainSystem.loadedChunks s) ->
      length (TerrainSystem.chunks (TerrainSystem.generateChunk s x z lod))
      = S (length (TerrainSystem.chunks s)) /\
      length (TerrainSystem.chunkPool (TerrainSystem.generateChunk s x z lod))
      = Nat.pred (length (TerrainSystem.chunkPool s))).
Proof.
  intros Hr. destruct (reachable_consistent s Hr) as [(Hsync & Hnd & Hb) _].
  split.
  - intros key Hkey.
    destruct (KeyMap.get (TerrainSystem.chunks s) key) as [c|] eqn:E.
    2:{ apply map_get_None in E. rewrite Hsync in E. contradiction. }
    destruct (unloadChunk_pool s key c E) as [Hp Hc].
    pose proof (delete_one (TerrainSystem.chunks s) key c
                           ltac:(rewrite Hsync; exact Hnd) E) as Hd.
    rewrite Hc, Hp. lia.
  - intros x z lod Hnew.
    destruct (generateChunk_fresh s x z lod Hsync Hnew) as (c & Ec & _).
    rewrite Ec, length_app, (generateChunk_pool s x z lod Hnew).
    split; [cbn; lia|]. destruct (TerrainSystem.chunkPool s); reflexivity.
Qed.

Lemma chunk_objects_are_recycled_witness :
  length (TerrainSystem.chunkPool
            (TerrainSystem.unloadChunk (TerrainSystem.new GL.fresh) (Key.ofZ 0 0)))
  = S (length (TerrainSystem.chunkPool (TerrainSystem.new GL.fresh))).
Proof.
  destruct (chunk_objects_are_recycled
              (TerrainSystem.new GL.fresh) (TerrainSystem.reachable_new GL.fresh))
    as [H _].
  apply H. apply new_spec; lia.
Defined.

(** * Invariants of the registry and of the GL buffers *)

Section Invariant.

Import TerrainSystem TerrainSpec.

(** A property of the terrain object that the three primitive
    operations and the plain assignments keep is kept by every step. *)
Variable P : t -> Prop.

Hypothesis P_generate : forall s x z lod,
    consistent s -> hygienic s -> P s -> P (generateChunk s x z lod).
Hypothesis P_unload : forall s key, consistent s -> P s -> P (unloadChunk s key).
Hypothesis P_visibility : forall s cam planes s',
    consistent s -> P s -> updateVisibility s cam planes = Some s' -> P s'.
Hypothesis P_stats : forall s st, P s -> P (set_stats s st).
Hypothesis P_settings : forall s v, P s -> P (set_settings s v).
Hypothesis P_chunkSize : forall s v, P s -> P (set_chunkSize s v).
Hypothesis P_renderDistance : forall s v, P s -> P (set_renderDistance s v).
Hypothesis P_clear : forall s,
    chunks s = [] -> P s ->
    P (set_chunkPool (set_visibleChunks (set_loadedChunks (set_chunks s []) []) []) []).

Lemma kept_by_generateChunk (s : t) (x z : R) (lod : Z) :
  consistent s /\ hygienic s /\ P s ->
  consistent (generateChunk s x z lod) /\ hygienic (generateChunk s x z lod) /\
  P (generateChunk s x z lod).
Proof.
  intros (C & H & Hp).
  split; [apply generateChunk_consistent; exact C|].
  split; [apply generateChunk_hygienic; exact H|].
  apply P_generate; assumption.
Qed.

Lemma kept_by_unloadChunk (s : t) (key : Key.t) :
  consistent s /\ hygienic s /\ P s ->
  consistent (unloadChunk s key) /\ hygienic (unloadChunk s key) /\
  P (unloadChunk s key).
Proof.
  intros (C & H & Hp).
  split; [apply unloadChunk_consistent; exact C|].
  split; [apply unloadChunk_hygienic; exact H|].
  apply P_unload; assumption.
Qed.

Lemma kept_by_unloadAll (s : t) :
  consistent s /\ hygienic s /\ P s ->
  consistent (unloadAll s) /\ hygienic (unloadAll s) /\ P (unloadAll s).
Proof.
  unfold unloadAll.
  apply (fold_left_invariant (fun s => consistent s /\ hygienic s /\ P s)).
  intros a k. apply kept_by_unloadChunk.
Qed.

Lemma kept_by_generateInitialChunks (s : t) :
  consistent s /\ hygienic s /\ P s ->
  consistent (generateInitialChunks s) /\ hygienic (generateInitialChunks s) /\
  P (generateInitialChunks s).
Proof.
  unfold generateInitialChunks.
  apply (fold_left_invariant (fun s => consistent s /\ hygienic s /\ P s)).
  intros a x.
  apply (fold_left_invariant (fun s => consistent s /\ hygienic s /\ P s)).
  intros b z. apply kept_by_generateChunk.
Qed.

Lemma kept_by_regenerateAllChunks (s : t) :
  consistent s /\ hygienic s /\ P s -> P (regenerateAllChunks s).
Proof.
  intros H. unfold regenerateAllChunks.
  apply kept_by_generateInitialChunks, kept_by_unloadAll, H.
Qed.

Lemma kept_by_update (s s' : t) (cam : Vec3.t) (planes : option (list plane)) :
  consistent s /\ hygienic s /\ P s -> update s cam planes = Some s' -> P s'.
Proof.
  intros H. unfold update. cbv zeta.
  set (req := getRequiredChunks s cam).
  assert (H1 : consistent (unloadDistantChunks s cam req) /\
               hygienic (unloadDistantChunks s cam req) /\
               P (unloadDistantChunks s cam req)).
  { unfold unloadDistantChunks.
    apply (fold_left_invariant (fun s => consistent s /\ hygienic s /\ P s));
      [|exact H].
    intros a k Ha. destruct (KeySet.has _ k); [exact Ha|].
    apply kept_by_unloadChunk, Ha. }
  assert (H2 : consistent (loadNewChunks (unloadDistantChunks s cam req) req) /\
               hygienic (loadNewChunks (unloadDistantChunks s cam req) req) /\
               P (loadNewChunks (unloadDistantChunks s cam req) req)).
  { unfold loadNewChunks.
    apply (fold_left_invariant (fun s => consistent s /\ hygienic s /\ P s));
      [|exact H1].
    intros a c Ha. destruct (KeySet.has _ _); [exact Ha|].
    apply kept_by_generateChunk, Ha. }
  destruct (updateVisibility _ cam planes) as [s3|] eqn:E; [|discriminate].
  intros [= <-]. apply P_stats.
  destruct H2 as (C2 & _ & P2). apply (P_visibility _ cam planes s3 C2 P2 E).
Qed.

Lemma step_invariant (s s' : t) :
  step s s' -> consistent s -> hygienic s -> P s -> P s'.
Proof.
  intros Hstep C H Hp. destruct Hstep.
  - exact Hp.
  - exact Hp.
  - eapply kept_by_update; [|eassumption]. auto.
  - apply P_generate; assumption.
  - apply P_unload; assumption.
  - unfold updateSettings.
    destruct (Settings.p_chunkSize p) as [size|]; [|apply P_settings; exact Hp].
    match goal with
    | |- context [if ?b then _ else _] => destruct b
    end; [|apply P_settings; exact Hp].
    apply kept_by_regenerateAllChunks.
    split; [exact C|]. split; [exact H|]. apply P_chunkSize, P_settings, Hp.
  - apply kept_by_regenerateAllChunks. auto.
  - unfold destroy.
    destruct (unloadAll_empties s C) as (_ & Ec & _).
    apply P_clear; [exact Ec|]. apply kept_by_unloadAll. auto.
  - apply P_renderDistance. exact Hp.
Qed.

End Invariant.

Section Shapes.

Import TerrainSystem TerrainSpec.

(** What [generateChunk] makes of a chunk object: everything but the
    visibility flag is set, and the two buffers are the next two
    handles of the context. *)
Lemma fillChunk_shape (s : t) (c : Chunk.t) (x z : R) (lod : Z) :
  Chunk.key (fst (fillChunk s c x z lod)) = Some (x, z) /\
  Chunk.x (fst (fillChunk s c x z lod)) = x /\
  Chunk.z (fst (fillChunk s c x z lod)) = z /\
  Chunk.worldX (fst (fillChunk s c x z lod)) = x * chunkWorldSize s /\
  Chunk.worldZ (fst (fillChunk s c x z lod)) = z * chunkWorldSize s /\
  Chunk.vertices (fst (fillChunk s c x z lod)) <> None /\
  Chunk.indices (fst (fillChunk s c x z lod)) <> None /\
  Chunk.transform (fst (fillChunk s c x z lod)) <> None /\
  Chunk.visible (fst (fillChunk s c x z lod)) = Chunk.visible c /\
  Chunk.buffers (fst (fillChunk s c x z lod))
  = Some (Buffers.mk (GL.next (gl s)) (S (GL.next (gl s)))) /\
  snd (fillChunk s c x z lod)
  = GL.mk (S (S (GL.next (gl s))))
          (S (GL.next (gl s)) :: GL.next (gl s) :: GL.live (gl s)).
Proof.
  unfold fillChunk, createChunkBuffers, GL.createBuffer, generateChunkGeometry,
    getChunkKey.
  cbn [fst snd Chunk.key Chunk.x Chunk.z Chunk.worldX Chunk.worldZ Chunk.vertices
       Chunk.indices Chunk.transform Chunk.visible Chunk.buffers Chunk.lod
       GL.next GL.live].
  repeat split; discriminate.
Qed.

Lemma generateChunk_shape (s : t) (x z : R) (lod : Z) :
  map fst (chunks s) = loadedChunks s ->
  ~ In (getChunkKey x z) (loadedChunks s) ->
  exists c,
    chunks (generateChunk s x z lod) = chunks s ++ [((x, z), c)] /\
    loadedChunks (generateChunk s x z lod) = loadedChunks s ++ [(x, z)] /\
    visibleChunks (generateChunk s x z lod) = visibleChunks s /\
    chunkWorldSize (generateChunk s x z lod) = chunkWorldSize s /\
    gl (generateChunk s x z lod)
    = GL.mk (S (S (GL.next (gl s))))
            (S (GL.next (gl s)) :: GL.next (gl s) :: GL.live (gl s)) /\
    Chunk.key c = Some (x, z) /\ Chunk.x c = x /\ Chunk.z c = z /\
    Chunk.worldX c = x * chunkWorldSize s /\
    Chunk.worldZ c = z * chunkWorldSize s /\
    Chunk.vertices c <> None /\ Chunk.indices c <> None /\
    Chunk.transform c <> None /\
    Chunk.visible c = Chunk.visible (hd Chunk.blank (chunkPool s)) /\
    Chunk.buffers c = Some (Buffers.mk (GL.next (gl s)) (S (GL.next (gl s)))).
Proof.
  intros Hsync Hnew. unfold generateChunk.
  replace (KeySet.has (loadedChunks s) (getChunkKey x z)) with false
    by (symmetry; apply has_not_In; exact Hnew).
  assert (Hset : forall v, KeyMap.set (chunks s) (getChunkKey x z) v
                           = chunks s ++ [((x, z), v)]).
  { intros v. apply map_set_fresh. rewrite Hsync. exact Hnew. }
  assert (Hadd : KeySet.add (loadedChunks s) (getChunkKey x z)
                 = loadedChunks s ++ [(x, z)]).
  { unfold KeySet.add.
    replace (KeySet.has (loadedChunks s) (getChunkKey x z)) with false
      by (symmetry; apply has_not_In; exact Hnew).
    reflexivity. }
  unfold getChunkFromPool.
  destruct (chunkPool s) as [|p rest].
  - pose proof (fillChunk_shape s Chunk.blank x z lod) as F.
    destruct (fillChunk s Chunk.blank x z lod) as [c g']. cbn [fst snd] in F.
    cbn [chunks loadedChunks visibleChunks chunkWorldSize gl
         set_gl set_chunks set_loadedChunks set_stats hd].
    rewrite Hset, Hadd. exists c. intuition.
  - pose proof (fillChunk_shape (set_chunkPool s rest) p x z lod) as F.
    destruct (fillChunk (set_chunkPool s rest) p x z lod) as [c g'].
    cbn [fst snd gl chunkWorldSize set_chunkPool] in F.
    cbn [chunks loadedChunks visibleChunks chunkWorldSize gl
         set_gl set_chunks set_loadedChunks set_stats set_chunkPool hd].
    rewrite Hset, Hadd. exists c. intuition.
Qed.

Lemma pooled_not_visible (s : t) :
  hygienic s -> Chunk.visible (hd Chunk.blank (chunkPool s)) = false.
Proof.
  unfold hygienic. destruct (chunkPool s) as [|p rest]; intros H; [reflexivity|].
  inversion H as [|? ? Hp _]; subst. apply Hp.
Qed.

Lemma unique_entry {A : Type} (m : KeyMap.t A) (k : Key.t) (a b : A) :
  NoDup (map fst m) -> In (k, a) m -> In (k, b) m -> a = b.
Proof.
  induction m as [|[k' v] m IH]; intros Hnd Ha Hb; [destruct Ha|].
  inversion Hnd as [|? ? Hk Hrest]; subst. cbn [map fst] in Hk.
  destruct Ha as [Ea | Ha], Hb as [Eb | Hb].
  - congruence.
  - injection Ea as -> ->. exfalso. apply Hk.
    apply (in_map fst) in Hb. exact Hb.
  - injection Eb as -> ->. exfalso. apply Hk.
    apply (in_map fst) in Ha. exact Ha.
  - apply IH; assumption.
Qed.

(** The entries the visibility loop returns are the entries it was
    given with their flag set as decided; a key is added to the
    visible set when the flag is true, and only then. *)
Lemma visibilityLoop_shape (s : t) (cam : Vec3.t) (planes : option (list plane))
      (entries : list (Key.t * Chunk.t)) (keys0 : KeySet.t) (t0 : Z)
      (done : list (Key.t * Chunk.t)) (keys : KeySet.t) (total : Z) :
  visibilityLoop s cam planes entries keys0 t0 = Some (done, keys, total) ->
  (forall e', In e' done ->
              exists c v, In (fst e', c) entries /\
                          chunkVisibility s cam planes c = Some v /\
                          snd e' = set_visible c v /\
                          (v = true -> In (fst e') keys)) /\
  (forall k, In k keys ->
             In k keys0 \/
             exists c, In (k, c) entries /\ chunkVisibility s cam planes c = Some true) /\
  (forall k, In k keys0 -> In k keys) /\
  map (fun e => ChunkSpec.handles (snd e)) done
  = map (fun e => ChunkSpec.handles (snd e)) entries.
Proof.
  revert keys0 t0 done.
  induction entries as [|[key chunk] entries IH]; intros keys0 t0 done H;
    cbn [visibilityLoop] in H.
  - injection H as <- <- <-. split; [intros e' []|]. split; [auto|]. split; [auto|].
    reflexivity.
  - destruct (chunkVisibility s cam planes chunk) as [v|] eqn:Ev; [|discriminate].
    destruct (visibilityLoop s cam planes entries _ _) as [[[d k] tt]|] eqn:El;
      [|discriminate].
    injection H as <- <- <-.
    destruct (IH _ _ _ El) as (Hd & Hk & Hk0 & Hh).
    split; [|split; [|split]].
    + intros e' [<- | He'].
      * exists chunk, v. cbn [fst snd]. split; [left; reflexivity|].
        split; [exact Ev|]. split; [reflexivity|].
        intros ->. apply Hk0. apply add_In. right; reflexivity.
      * destruct (Hd e' He') as (c & v' & Hin & Hv & Hs & Hkeys).
        exists c, v'. split; [right; exact Hin|]. auto.
    + intros k' Hk'. destruct (Hk k' Hk') as [H0 | [c [Hin Hv]]].
      * destruct v.
        -- apply add_In in H0. destruct H0 as [H0 | ->]; [left; exact H0|].
           right. exists chunk. split; [left; reflexivity | exact Ev].
        -- left; exact H0.
      * right. exists c. split; [right; exact Hin | exact Hv].
    + intros k' Hk'. apply Hk0. destruct v; [|exact Hk'].
      apply add_In. left; exact Hk'.
    + cbn [map snd]. rewrite Hh. reflexivity.
Qed.

Lemma updateVisibility_shape (s s' : t) (cam : Vec3.t) (planes : option (list plane)) :
  updateVisibility s cam planes = Some s' ->
  exists done keys total,
    visibilityLoop s cam planes (chunks s) [] 0 = Some (done, keys, total) /\
    chunks s' = done /\ visibleChunks s' = keys /\
    loadedChunks s' = loadedChunks s /\ chunkWorldSize s' = chunkWorldSize s /\
    gl s' = gl s.
Proof.
  unfold updateVisibility.
  destruct (visibilityLoop s cam planes (chunks s) [] 0) as [[[done keys] total]|];
    [|discriminate].
  intros [= <-]. exists done, keys, total. repeat split.
Qed.

End Shapes.

Section Sound.

Import TerrainSystem TerrainSpec ChunkSpec.

Lemma inOrder_static (s s' : t) (e : Key.t * Chunk.t) :
  chunkWorldSize s' = chunkWorldSize s ->
  (In (fst e) (visibleChunks s') <-> In (fst e) (visibleChunks s)) ->
  inOrder s e -> inOrder s' e.
Proof.
  intros Ew Ev (H1 & H2 & H3 & H4 & H5 & H6 & H7 & H8 & H9).
  unfold inOrder. rewrite Ew, Ev. auto 10.
Qed.

Lemma sound_generate (s : t) (x z : R) (lod : Z) :
  consistent s -> hygienic s -> sound s -> sound (generateChunk s x z lod).
Proof.
  intros (Hsync & Hnd & _) Hp [Hall Hincl].
  destruct (KeySet.has (loadedChunks s) (getChunkKey x z)) eqn:E.
  { apply has_In in E. rewrite generateChunk_loaded by exact E. split; assumption. }
  apply has_not_In in E.
  destruct (generateChunk_shape s x z lod Hsync E)
    as (c & Ec & El & Ev & Ew & _ & K1 & K2 & K3 & K4 & K5 & K6 & K7 & K8 & K9 & K10).
  unfold sound. rewrite Ec, El, Ev. split.
  - apply Forall_app. split.
    + eapply Forall_impl; [|exact Hall]. intros e He.
      apply (inOrder_static s); [exact Ew | rewrite Ev; tauto | exact He].
    + constructor; [|constructor].
      unfold inOrder. cbn [fst snd]. rewrite Ew, Ev, K2, K3.
      repeat split; try assumption.
      * rewrite K10. discriminate.
      * intros Hv. rewrite K9, (pooled_not_visible s Hp) in Hv. discriminate.
      * intros Hin. exfalso. apply E. apply Hincl. exact Hin.
  - intros k Hk. apply in_or_app. left. apply Hincl. exact Hk.
Qed.

Lemma sound_unload (s : t) (key : Key.t) :
  consistent s -> sound s -> sound (unloadChunk s key).
Proof.
  intros (Hsync & Hnd & _) [Hall Hincl]. unfold unloadChunk.
  destruct (KeyMap.get (chunks s) key) as [chunk|]; [|split; assumption].
  assert (Hgoal : forall g,
    sound (set_visibleChunks
             (set_loadedChunks
                (set_chunks (returnChunkToPool (set_gl s g) chunk)
                            (KeyMap.delete (chunks s) key))
                (KeySet.delete (loadedChunks s) key))
             (KeySet.delete (visibleChunks s) key))).
  { intros g. unfold sound.
    cbn [chunks loadedChunks visibleChunks set_visibleChunks set_loadedChunks
         set_chunks returnChunkToPool set_chunkPool set_gl].
    split.
    - unfold KeyMap.delete. apply Forall_forall. intros e He.
      apply filter_In in He. destruct He as [He Hne].
      apply negb_true_iff, key_eqb_neq in Hne.
      rewrite Forall_forall in Hall.
      apply (inOrder_static s); [reflexivity | | apply Hall; exact He].
      cbn [visibleChunks set_visibleChunks]. rewrite delete_In. split; [tauto|].
      intros H. split; [exact H | congruence].
    - intros k Hk. apply delete_In in Hk. apply delete_In.
      split; [apply Hincl; tauto | tauto]. }
  destruct (Chunk.buffers chunk) as [b|].
  - apply Hgoal.
  - replace s with (set_gl s (gl s)) at 1 by (destruct s; reflexivity).
    apply Hgoal.
Qed.

Lemma sound_visibility (s s' : t) (cam : Vec3.t) (planes : option (list plane)) :
  consistent s -> sound s -> updateVisibility s cam planes = Some s' -> sound s'.
Proof.
  intros (Hsync & Hnd & _) [Hall Hincl] Hu.
  destruct (updateVisibility_shape s s' cam planes Hu)
    as (done & keys & total & Ev & Ec & Ek & El & Ew & _).
  destruct (visibilityLoop_shape s cam planes _ _ _ _ _ _ Ev) as (Hd & Hk & _ & _).
  rewrite Forall_forall in Hall.
  unfold sound. rewrite Ec, Ek, El. split.
  - apply Forall_forall. intros e' He'.
    destruct (Hd e' He') as (c & v & Hin & Hv & Hs & Hkeys).
    destruct (Hall _ Hin) as (H1 & H2 & H3 & H4 & H5 & H6 & H7 & H8 & _).
    cbn [fst snd] in *.
    unfold inOrder. rewrite Hs, Ew, Ek.
    cbn [set_visible Chunk.key Chunk.x Chunk.z Chunk.worldX Chunk.worldZ
         Chunk.vertices Chunk.indices Chunk.buffers Chunk.transform Chunk.visible].
    repeat split; try assumption.
    intros Hin'. destruct (Hk _ Hin') as [[] | [c2 [Hin2 Hv2]]].
    assert (c2 = c).
    { apply (unique_entry (chunks s) (fst e')); [rewrite Hsync; exact Hnd | | ];
        assumption. }
    subst c2. congruence.
  - intros k Hin. destruct (Hk _ Hin) as [[] | [c [Hc _]]].
    rewrite <- Hsync. apply (in_map fst) in Hc. exact Hc.
Qed.

Lemma sound_setup (s s' : t) :
  chunks s' = chunks s -> loadedChunks s' = loadedChunks s ->
  visibleChunks s' = visibleChunks s -> chunkWorldSize s' = chunkWorldSize s ->
  sound s -> sound s'.
Proof.
  intros Ec El Ev Ew [Hall Hincl]. unfold sound. rewrite Ec, El, Ev. split.
  - eapply Forall_impl; [|exact Hall]. intros e.
    apply inOrder_static; [exact Ew | rewrite Ev; tauto].
  - exact Hincl.
Qed.

Lemma blank_hygienic (g : GL.t) (size : Z) (cws rd : R) (lods : Z) (hs : R)
      (ch : KeyMap.t Chunk.t) (lo vis : KeySet.t) (b : BiomeNoise.t)
      (st : Stats.t) (se : Settings.t) :
  hygienic (mk g size cws rd lods hs ch [] lo vis b st se).
Proof. unfold hygienic. cbn [chunkPool]. constructor. Qed.

Lemma blank_sound (g : GL.t) (size : Z) (cws rd : R) (lods : Z) (hs : R)
      (pool : list Chunk.t) (lo : KeySet.t) (b : BiomeNoise.t)
      (st : Stats.t) (se : Settings.t) :
  sound (mk g size cws rd lods hs [] pool lo [] b st se).
Proof.
  unfold sound. cbn [chunks visibleChunks loadedChunks].
  split; [constructor | intros k []].
Qed.

Lemma step_sound (s s' : t) :
  step s s' -> consistent s -> hygienic s -> sound s -> sound s'.
Proof.
  apply (step_invariant sound).
  - apply sound_generate.
  - apply sound_unload.
  - intros s0 cam planes s1. apply sound_visibility.
  - intros s0 st. apply sound_setup; reflexivity.
  - intros s0 v. apply sound_setup; reflexivity.
  - intros s0 v. apply sound_setup; reflexivity.
  - intros s0 v. apply sound_setup; reflexivity.
  - intros s0 _ _. apply blank_sound.
Qed.

Lemma reachable_sound (s : t) : reachable s -> sound s.
Proof.
  induction 1 as [g | s s' Hr IH Hstep].
  - unfold new.
    match goal with
    | |- sound (generateInitialChunks ?s0) =>
        destruct (kept_by_generateInitialChunks sound sound_generate s0) as (_ & _ & H)
    end; [|exact H].
    split; [apply blank_consistent|].
    split; [apply blank_hygienic | apply blank_sound].
  - apply (step_sound s s' Hstep); [apply reachable_consistent | apply reachable_hygienic |];
      assumption.
Qed.

End Sound.

(** X27.  In every state a terrain object can reach, the registry is in
    order: the chunk map and the loaded set hold the same keys, each
    once; the visible set is part of the loaded set; and the chunk stored
    under a key [(x, z)] carries that key and those coordinates, sits at
    the world position [(500 x, 500 z)], has its vertex and index arrays,
    its GPU buffers, its bounds and its transform, and has its visibility
    flag set exactly when its key is in the visible set. *)
Theorem registry_entries_are_in_order (s : TerrainSystem.t) :
  TerrainSystem.reachable s ->
  map fst (TerrainSystem.chunks s) = TerrainSystem.loadedChunks s /\
  NoDup (TerrainSystem.loadedChunks s) /\
  incl (TerrainSystem.visibleChunks s) (TerrainSystem.loadedChunks s) /\
  forall k c,
    KeyMap.get (TerrainSystem.chunks s) k = Some c ->
    TerrainSystem.Chunk.key c = Some k /\
    k = (TerrainSystem.Chunk.x c, TerrainSystem.Chunk.z c) /\
    TerrainSystem.Chunk.worldX c = TerrainSystem.Chunk.x c * 500 /\
    TerrainSystem.Chunk.worldZ c = TerrainSystem.Chunk.z c * 500 /\
    TerrainSystem.Chunk.vertices c <> None /\
    TerrainSystem.Chunk.indices c <> None /\
    TerrainSystem.Chunk.buffers c <> None /\
    TerrainSystem.Chunk.bounds c <> None /\
    TerrainSystem.Chunk.transform c <> None /\
    (TerrainSystem.Chunk.visible c = true <-> In k (TerrainSystem.visibleChunks s)).
Proof.
  intros Hr.
  destruct (reachable_consistent s Hr) as [(Hsync & Hnd & Hb) (Hw & _)].
  destruct (reachable_sound s Hr) as [Hall Hincl].
  split; [exact Hsync|]. split; [exact Hnd|]. split; [exact Hincl|].
  intros k c Hget. apply map_get_In in Hget.
  rewrite Forall_forall in Hall, Hb.
  destruct (Hall _ Hget) as (H1 & H2 & H3 & H4 & H5 & H6 & H7 & H8 & H9).
  specialize (Hb _ Hget). cbn [fst snd] in *. rewrite Hw in H3, H4.
  auto 12.
Qed.

Lemma registry_entries_are_in_order_witness :
  incl (TerrainSystem.visibleChunks (TerrainSystem.new GL.fresh))
       (TerrainSystem.loadedChunks (TerrainSystem.new GL.fresh)).
Proof.
  destruct (registry_entries_are_in_order
              (TerrainSystem.new GL.fresh) (TerrainSystem.reachable_new GL.fresh))
    as (_ & _ & H & _).
  exact H.
Defined.

Section Buffers.

Import TerrainSystem TerrainSpec ChunkSpec.

Variable g : GL.t.
Hypothesis Hg : wellFormed g.

Lemma reachableFrom_reachable (s : t) : reachableFrom g s -> reachable s.
Proof.
  induction 1 as [|s s' _ IH Hstep]; [apply reachable_new|].
  eapply reachable_step; eassumption.
Qed.

Lemma NoDup_drop_middle (A B C : list nat) :
  NoDup (A ++ B ++ C) ->
  NoDup (A ++ C) /\ forall x, In x B -> ~ In x (A ++ C).
Proof.
  induction B as [|b B IH]; intros H.
  - split; [exact H | intros x []].
  - cbn [app] in H. apply NoDup_remove in H. destruct H as [H Hb].
    destruct (IH H) as [Hn Hd]. split; [exact Hn|].
    intros x [<- | Hx]; [|apply Hd; exact Hx].
    intros Hin. apply Hb. apply in_app_or in Hin. apply in_or_app.
    destruct Hin as [Hin | Hin]; [left; exact Hin|].
    right. apply in_or_app. right; exact Hin.
Qed.

Lemma delete_split (m1 m2 : KeyMap.t Chunk.t) (key : Key.t) (c : Chunk.t) :
  ~ In key (map fst m1) -> ~ In key (map fst m2) ->
  KeyMap.delete (m1 ++ (key, c) :: m2) key = m1 ++ m2.
Proof.
  intros H1 H2. unfold KeyMap.delete. rewrite filter_app. cbn [filter fst].
  rewrite key_eqb_refl. cbn [negb].
  fold (KeyMap.delete m1 key). fold (KeyMap.delete m2 key).
  rewrite !map_delete_absent by assumption. reflexivity.
Qed.

Lemma accounted_same (s s' : t) :
  gl s' = gl s -> chunks s' = chunks s -> accounted g s -> accounted g s'.
Proof.
  intros Eg Ec H. unfold accounted, held in *. rewrite Eg, Ec. exact H.
Qed.

Lemma accounted_generate (s : t) (x z : R) (lod : Z) :
  consistent s -> hygienic s -> accounted g s -> accounted g (generateChunk s x z lod).
Proof.
  intros (Hsync & _) _ (N1 & N2 & N3 & N4).
  destruct (KeySet.has (loadedChunks s) (getChunkKey x z)) eqn:E.
  { apply has_In in E. rewrite generateChunk_loaded by exact E.
    repeat split; try assumption; apply N4. }
  apply has_not_In in E.
  destruct (generateChunk_shape s x z lod Hsync E)
    as (c & Ec & _ & _ & _ & Egl & _ & _ & _ & _ & _ & _ & _ & _ & _ & Eb).
  unfold accounted, held in *. rewrite Ec, Egl, flat_map_app.
  cbn [flat_map snd GL.next GL.live].
  assert (Hc : handles c = [GL.next (gl s); S (GL.next (gl s))])
    by (unfold handles; rewrite Eb; reflexivity).
  rewrite Hc. cbn [app].
  rewrite Forall_forall in N3.
  split; [lia|]. split; [|split].
  - apply NoDup_app; [exact N2 | |].
    + constructor; [intros [H | []]; lia|]. constructor; [intros []|constructor].
    + intros a Ha [<- | [<- | []]]; apply N3 in Ha; lia.
  - apply Forall_app. split.
    + apply Forall_forall. intros h Hh. apply N3 in Hh. lia.
    + constructor; [lia|]. constructor; [lia | constructor].
  - intros h. cbn [In]. rewrite N4, in_app_iff. cbn [In]. tauto.
Qed.

Lemma accounted_unload (s : t) (key : Key.t) :
  consistent s -> accounted g s -> accounted g (unloadChunk s key).
Proof.
  intros (Hsync & Hnd & _) Ha. unfold unloadChunk.
  destruct (KeyMap.get (chunks s) key) as [c|] eqn:E; [|exact Ha].
  apply map_get_In in E. apply in_split in E. destruct E as (m1 & m2 & Em).
  assert (Hk : ~ In key (map fst m1) /\ ~ In key (map fst m2)).
  { rewrite <- Hsync, Em, map_app in Hnd. cbn [map fst] in Hnd.
    apply NoDup_remove_2 in Hnd. rewrite in_app_iff in Hnd. tauto. }
  destruct Hk as [Hk1 Hk2].
  destruct Ha as (N1 & N2 & N3 & N4). unfold held in N2, N3, N4.
  rewrite Em, flat_map_app in N2, N3, N4. cbn [flat_map snd] in N2, N3, N4.
  destruct (NoDup_drop_middle _ _ _ N2) as [Hn Hd].
  rewrite Forall_forall in N3.
  assert (Hheld : forall g', accounted g
    (set_visibleChunks
       (set_loadedChunks
          (set_chunks (returnChunkToPool (set_gl s g') c)
                      (KeyMap.delete (chunks s) key))
          (KeySet.delete (loadedChunks s) key))
       (KeySet.delete (visibleChunks s) key)) <->
    (GL.next g <= GL.next g')%nat /\
    NoDup (flat_map (fun e => handles (snd e)) m1 ++
           flat_map (fun e => handles (snd e)) m2) /\
    Forall (fun h => (GL.next g <= h < GL.next g')%nat)
           (flat_map (fun e => handles (snd e)) m1 ++
            flat_map (fun e => handles (snd e)) m2) /\
    (forall h, In h (GL.live g') <->
               In h (GL.live g) \/
               In h (flat_map (fun e => handles (snd e)) m1 ++
                     flat_map (fun e => handles (snd e)) m2))).
  { intros g'. unfold accounted, held.
    cbn [gl chunks set_visibleChunks set_loadedChunks set_chunks returnChunkToPool
         set_chunkPool set_gl].
    rewrite Em, (delete_split m1 m2 key c Hk1 Hk2), flat_map_app. tauto. }
  assert (Hrange : Forall (fun h => (GL.next g <= h < GL.next (gl s))%nat)
                          (flat_map (fun e => handles (snd e)) m1 ++
                           flat_map (fun e => handles (snd e)) m2)).
  { apply Forall_forall. intros h Hh. apply N3. rewrite !in_app_iff in *. tauto. }
  destruct (Chunk.buffers c) as [b|] eqn:Eb.
  - assert (Hc : handles c = [Buffers.vertices b; Buffers.indices b])
      by (unfold handles; rewrite Eb; reflexivity).
    rewrite Hc in N3, N4, Hd.
    apply Hheld. unfold GL.deleteBuffer. cbn [GL.next GL.live].
    split; [exact N1|]. split; [exact Hn|]. split; [exact Hrange|].
    intros h. split.
    + intros Hin. apply in_remove in Hin. destruct Hin as [Hin Hi].
      apply in_remove in Hin. destruct Hin as [Hin Hv].
      apply N4 in Hin. rewrite !in_app_iff in *. cbn [In] in Hin.
      destruct Hin as [Hb | [H1 | [[Hx | [Hx | []]] | H2]]]; auto; congruence.
    + intros Hin.
      assert (Hlive : In h (GL.live (gl s))).
      { apply N4. rewrite !in_app_iff in *. tauto. }
      assert (Hne : forall v, In v [Buffers.vertices b; Buffers.indices b] -> h <> v).
      { intros v Hv ->. destruct Hin as [Hb | Hh].
        - destruct Hg as [_ Hlt]. rewrite Forall_forall in Hlt. apply Hlt in Hb.
          assert (In v (flat_map (fun e => handles (snd e)) m1 ++
                        [Buffers.vertices b; Buffers.indices b] ++
                        flat_map (fun e => handles (snd e)) m2)) as Hv'.
          { rewrite !in_app_iff. right. left. exact Hv. }
          apply N3 in Hv'. lia.
        - apply (Hd v Hv Hh). }
      apply in_in_remove; [apply Hne; right; left; reflexivity|].
      apply in_in_remove; [apply Hne; left; reflexivity|]. exact Hlive.
  - assert (Hc : handles c = []) by (unfold handles; rewrite Eb; reflexivity).
    rewrite Hc in N4.
    replace s with (set_gl s (gl s)) at 1 by (destruct s; reflexivity).
    apply Hheld. split; [exact N1|]. split; [exact Hn|]. split; [exact Hrange|].
    intros h. rewrite N4. cbn [app]. rewrite !in_app_iff. tauto.
Qed.

Lemma accounted_visibility (s s' : t) (cam : Vec3.t) (planes : option (list plane)) :
  consistent s -> accounted g s -> updateVisibility s cam planes = Some s' ->
  accounted g s'.
Proof.
  intros _ Ha Hu.
  destruct (updateVisibility_shape s s' cam planes Hu)
    as (done & keys & total & Ev & Ec & _ & _ & _ & Egl).
  destruct (visibilityLoop_shape s cam planes _ _ _ _ _ _ Ev) as (_ & _ & _ & Hh).
  unfold accounted, held in *. rewrite Egl, Ec.
  rewrite (flat_map_concat_map _ done), Hh, <- flat_map_concat_map. exact Ha.
Qed.

Lemma blank_accounted (size : Z) (cws rd : R) (lods : Z) (hs : R)
      (pool : list Chunk.t) (lo vis : KeySet.t) (b : BiomeNoise.t)
      (st : Stats.t) (se : Settings.t) :
  accounted g (mk g size cws rd lods hs [] pool lo vis b st se).
Proof.
  unfold accounted, held. cbn [gl chunks flat_map].
  split; [lia|]. split; [constructor|]. split; [constructor|].
  intros h. cbn [In]. tauto.
Qed.

Lemma step_accounted (s s' : t) :
  step s s' -> consistent s -> hygienic s -> accounted g s -> accounted g s'.
Proof.
  apply (step_invariant (accounted g)).
  - apply accounted_generate.
  - apply accounted_unload.
  - intros s0 cam planes s1. apply accounted_visibility.
  - intros s0 st. apply accounted_same; reflexivity.
  - intros s0 v. apply accounted_same; reflexivity.
  - intros s0 v. apply accounted_same; reflexivity.
  - intros s0 v. apply accounted_same; reflexivity.
  - intros s0 Ec. apply accounted_same; [reflexivity|].
    cbn [chunks set_chunkPool set_visibleChunks set_loadedChunks set_chunks].
    symmetry. exact Ec.
Qed.

Lemma reachableFrom_accounted (s : t) : reachableFrom g s -> accounted g s.
Proof.
  induction 1 as [|s s' Hr IH Hstep].
  - unfold new.
    match goal with
    | |- accounted g (generateInitialChunks ?s0) =>
        destruct (kept_by_generateInitialChunks (accounted g) accounted_generate s0)
          as (_ & _ & H)
    end; [|exact H].
    split; [apply blank_consistent|].
    split; [apply blank_hygienic | apply blank_accounted].
  - apply reachableFrom_reachable in Hr.
    apply (step_accounted s s' Hstep);
      [apply reachable_consistent | apply reachable_hygienic |]; assumption.
Qed.

End Buffers.

(** X28.  The terrain leaks no GPU buffer and deletes none that is not
    its own.  On a GL context whose live handles are distinct and behind
    its counter, in every state a terrain object built on it passes
    through: each loaded chunk holds two buffer handles, no handle is
    held twice, none of them was live before the terrain was built, and
    the handles live in the context are exactly those that were live
    before together with those the loaded chunks hold.  After [destroy]
    the live handles are exactly those that were live before the terrain
    was built. *)
Theorem terrain_buffers_are_accounted_for (g : GL.t) (s : TerrainSystem.t) :
  ChunkSpec.wellFormed g -> ChunkSpec.reachableFrom g s ->
  NoDup (ChunkSpec.held s) /\
  length (ChunkSpec.held s) = (2 * length (TerrainSystem.loadedChunks s))%nat /\
  (forall h, In h (ChunkSpec.held s) -> ~ In h (GL.live g)) /\
  (forall h, In h (GL.live (TerrainSystem.gl s)) <->
             In h (GL.live g) \/ In h (ChunkSpec.held s)) /\
  (forall h, In h (GL.live (TerrainSystem.gl (TerrainSystem.destroy s))) <->
             In h (GL.live g)).
Proof.
  intros Hg Hr.
  destruct (reachableFrom_accounted g Hg s Hr) as (N1 & N2 & N3 & N4).
  pose proof (reachableFrom_reachable g s Hr) as Hreach.
  destruct (reachable_consistent s Hreach) as [(Hsync & _) _].
  destruct (reachable_sound s Hreach) as [Hall _].
  split; [exact N2|]. split; [|split; [|split; [exact N4|]]].
  - unfold ChunkSpec.held.
    rewrite (flat_map_uniform_length _ _ 2).
    + rewrite <- Hsync, length_map. lia.
    + intros e He. rewrite Forall_forall in Hall.
      destruct (Hall e He) as (_ & _ & _ & _ & _ & _ & Hb & _).
      unfold ChunkSpec.handles.
      destruct (TerrainSystem.Chunk.buffers (snd e)); [reflexivity | congruence].
  - intros h Hh Hb. rewrite Forall_forall in N3. apply N3 in Hh.
    destruct Hg as [_ Hlt]. rewrite Forall_forall in Hlt. apply Hlt in Hb. lia.
  - assert (Hd : ChunkSpec.reachableFrom g (TerrainSystem.destroy s)).
    { eapply ChunkSpec.from_step; [exact Hr | apply TerrainSystem.step_destroy]. }
    destruct (reachableFrom_accounted g Hg _ Hd) as (_ & _ & _ & D4).
    intros h. rewrite D4. unfold ChunkSpec.held, TerrainSystem.destroy.
    cbn [TerrainSystem.chunks TerrainSystem.set_chunkPool
         TerrainSystem.set_visibleChunks TerrainSystem.set_loadedChunks
         TerrainSystem.set_chunks flat_map In].
    tauto.
Qed.

Lemma terrain_buffers_are_accounted_for_witness :
  ChunkSpec.wellFormed GL.fresh /\
  length (ChunkSpec.held (TerrainSystem.new GL.fresh))
  = (2 * length (TerrainSystem.loadedChunks (TerrainSystem.new GL.fresh)))%nat /\
  (forall h,
      In h (GL.live (TerrainSystem.gl (TerrainSystem.destroy (TerrainSystem.new GL.fresh))))
      <-> In h (GL.live GL.fresh)).
Proof.
  assert (Hg : ChunkSpec.wellFormed GL.fresh) by (split; constructor).
  destruct (terrain_buffers_are_accounted_for
              GL.fresh (TerrainSystem.new GL.fresh) Hg (ChunkSpec.from_new GL.fresh))
    as (_ & Hlen & _ & _ & H).
  split; [exact Hg | split; [exact Hlen | exact H]].
Defined.

(** * Properties of the Voronoi cells and of the range helpers *)

Section Cells.

Import VoronoiNoise.

Lemma seededRandom_unit (state : Z) : 0 <= seededRandom state < 1.
Proof.
  unfold seededRandom. pose proof (floor_spec (sin (IZR state) * 10000)). lra.
Qed.

(** The feature point of a cell lies in the cell. *)
Lemma cellPoint_in_cell (v : t) (cellSize : R) (cx cy : Z) :
  0 < cellSize ->
  IZR cx * cellSize <= px (cellPoint v cellSize cx cy) < (IZR cx + 1) * cellSize /\
  IZR cy * cellSize <= py (cellPoint v cellSize cx cy) < (IZR cy + 1) * cellSize.
Proof.
  intros Hc. unfold cellPoint. cbn [px py].
  pose proof (seededRandom_unit (seed v + cx * 73856093 + cy * 19349663)) as Hx.
  pose proof (seededRandom_unit (seed v + cx * 73856093 + cy * 19349663 + 1)) as Hy.
  split; split; nra.
Qed.

Lemma own_cell_listed (v : t) (x y cellSize : R) :
  In (cellPoint v cellSize (JS.floor (x / cellSize)) (JS.floor (y / cellSize)))
     (getPoints v x y cellSize).
Proof.
  unfold getPoints. apply in_flat_map. exists 0%Z. split; [apply range_In; lia|].
  apply in_map_iff. exists 0%Z. split; [|apply range_In; lia].
  rewrite !Z.add_0_r. reflexivity.
Qed.

Lemma in_own_cell (x cellSize : R) :
  0 < cellSize ->
  IZR (JS.floor (x / cellSize)) * cellSize <= x
  < (IZR (JS.floor (x / cellSize)) + 1) * cellSize.
Proof.
  intros Hc. pose proof (floor_spec (x / cellSize)) as [H1 H2].
  assert (E : x = x / cellSize * cellSize) by (field; lra).
  split.
  - rewrite E at 2. apply Rmult_le_compat_r; lra.
  - rewrite E at 1. apply Rmult_lt_compat_r; lra.
Qed.

(** The loop keeps the nearest point seen so far. *)
Lemma closestLoop_from (x y : R) (points : list point) (p0 : point) (d0 : R) :
  exists p d,
    closestLoop x y points (Some p0) (Some d0) = (Some p, Some d) /\
    d <= d0 /\
    (forall q, In q points -> d <= sqrt ((x - px q) ^ 2 + (y - py q) ^ 2)) /\
    ((p = p0 /\ d = d0) \/
     (In p points /\ d = sqrt ((x - px p) ^ 2 + (y - py p) ^ 2))).
Proof.
  revert p0 d0. induction points as [|q points IH]; intros p0 d0.
  - exists p0, d0. cbn. split; [reflexivity|]. split; [lra|].
    split; [intros q [] | left; auto].
  - cbn [closestLoop JS.lt_ext].
    destruct (JS.ltb (sqrt ((x - px q) ^ 2 + (y - py q) ^ 2)) d0) eqn:E.
    + apply ltb_true in E.
      destruct (IH q (sqrt ((x - px q) ^ 2 + (y - py q) ^ 2)))
        as (p & d & Ec & Hd & Hall & Hor).
      exists p, d. split; [exact Ec|]. split; [lra|]. split.
      * intros q' [<- | Hq']; [exact Hd | apply Hall; exact Hq'].
      * right. destruct Hor as [[-> ->] | [Hin Ed]].
        -- split; [left; reflexivity | reflexivity].
        -- split; [right; exact Hin | exact Ed].
    + apply ltb_false in E.
      destruct (IH p0 d0) as (p & d & Ec & Hd & Hall & Hor).
      exists p, d. split; [exact Ec|]. split; [exact Hd|]. split.
      * intros q' [<- | Hq']; [lra | apply Hall; exact Hq'].
      * destruct Hor as [H | [Hin Ed]]; [left; exact H|].
        right. split; [right; exact Hin | exact Ed].
Qed.

Lemma closestLoop_nearest (x y : R) (points : list point) :
  points <> [] ->
  exists p d,
    closestLoop x y points None None = (Some p, Some d) /\
    In p points /\ d = sqrt ((x - px p) ^ 2 + (y - py p) ^ 2) /\
    forall q, In q points -> d <= sqrt ((x - px q) ^ 2 + (y - py q) ^ 2).
Proof.
  destruct points as [|q points]; [congruence|]. intros _.
  cbn [closestLoop JS.lt_ext].
  destruct (closestLoop_from x y points q (sqrt ((x - px q) ^ 2 + (y - py q) ^ 2)))
    as (p & d & Ec & Hd & Hall & Hor).
  exists p, d. split; [exact Ec|]. split; [|split].
  - destruct Hor as [[-> _] | [Hin _]]; [left; reflexivity | right; exact Hin].
  - destruct Hor as [[-> ->] | [_ Ed]]; [reflexivity | exact Ed].
  - intros q' [<- | Hq']; [exact Hd | apply Hall; exact Hq'].
Qed.

Lemma within_a_cell (a b lo cellSize : R) :
  lo <= a < lo + cellSize -> lo <= b < lo + cellSize ->
  (a - b) ^ 2 < cellSize * cellSize.
Proof.
  intros Ha Hb.
  assert (H1 : 0 < cellSize - (a - b)) by lra.
  assert (H2 : 0 < cellSize + (a - b)) by lra.
  pose proof (Rmult_lt_0_compat _ _ H1 H2). nra.
Qed.

End Cells.

(** X29.  For a positive cell size, [getClosestPoint] returns one of the
    nine feature points that [getPoints] lists (one for each cell of the
    three-by-three block around the query) together with its distance,
    and no listed point is nearer; the feature point of the query's own
    cell lies in that cell, so the distance is less than the cell's
    diagonal, and the value of [getCellValue], the distance over the cell
    size, lies in [0, sqrt 2). *)
Theorem voronoi_cell_value_is_below_the_diagonal
        (v : VoronoiNoise.t) (x y cellSize : R) :
  0 < cellSize ->
  length (VoronoiNoise.getPoints v x y cellSize) = 9%nat /\
  exists p d,
    VoronoiNoise.getClosestPoint v x y cellSize = (Some p, Some d) /\
    In p (VoronoiNoise.getPoints v x y cellSize) /\
    d = sqrt ((x - VoronoiNoise.px p) ^ 2 + (y - VoronoiNoise.py p) ^ 2) /\
    (forall q, In q (VoronoiNoise.getPoints v x y cellSize) ->
               d <= sqrt ((x - VoronoiNoise.px q) ^ 2 + (y - VoronoiNoise.py q) ^ 2)) /\
    VoronoiNoise.getCellValue v x y cellSize = Some (d / cellSize) /\
    0 <= d / cellSize < sqrt 2.
Proof.
  intros Hc. split; [reflexivity|].
  unfold VoronoiNoise.getCellValue, VoronoiNoise.getClosestPoint.
  pose proof (own_cell_listed v x y cellSize) as Hown.
  destruct (closestLoop_nearest x y (VoronoiNoise.getPoints v x y cellSize))
    as (p & d & Ec & Hin & Ed & Hall).
  { intros E. rewrite E in Hown. destruct Hown. }
  exists p, d. rewrite Ec. cbn [snd].
  split; [reflexivity|]. split; [exact Hin|]. split; [exact Ed|].
  split; [exact Hall|]. split; [reflexivity|].
  assert (H0 : 0 <= d) by (rewrite Ed; apply sqrt_pos).
  specialize (Hall _ Hown).
  destruct (cellPoint_in_cell v cellSize (JS.floor (x / cellSize))
                              (JS.floor (y / cellSize)) Hc) as [Hpx Hpy].
  pose proof (in_own_cell x cellSize Hc) as Hx.
  pose proof (in_own_cell y cellSize Hc) as Hy.
  set (own := VoronoiNoise.cellPoint v cellSize (JS.floor (x / cellSize))
                                     (JS.floor (y / cellSize))) in *.
  assert (Hdx : (x - VoronoiNoise.px own) ^ 2 < cellSize * cellSize).
  { apply (within_a_cell _ _ (IZR (JS.floor (x / cellSize)) * cellSize)); lra. }
  assert (Hdy : (y - VoronoiNoise.py own) ^ 2 < cellSize * cellSize).
  { apply (within_a_cell _ _ (IZR (JS.floor (y / cellSize)) * cellSize)); lra. }
  assert (Hdiag : sqrt ((x - VoronoiNoise.px own) ^ 2 + (y - VoronoiNoise.py own) ^ 2)
                  < sqrt 2 * cellSize).
  { replace (sqrt 2 * cellSize) with (sqrt (2 * (cellSize * cellSize))).
    - apply sqrt_lt_1_alt. split; [|lra].
      pose proof (pow2_ge_0 (x - VoronoiNoise.px own)).
      pose proof (pow2_ge_0 (y - VoronoiNoise.py own)). lra.
    - rewrite sqrt_mult by nra. rewrite sqrt_square by lra. reflexivity. }
  split.
  - apply Rmult_le_pos; [exact H0 | apply Rlt_le, Rinv_0_lt_compat, Hc].
  - apply Rmult_lt_reg_r with cellSize; [exact Hc|].
    replace (d / cellSize * cellSize) with d by (field; lra). lra.
Qed.

Lemma voronoi_cell_value_is_below_the_diagonal_witness :
  length (VoronoiNoise.getPoints (VoronoiNoise.mk 0) 250 (-30) 100) = 9%nat.
Proof.
  apply (voronoi_cell_value_is_below_the_diagonal (VoronoiNoise.mk 0) 250 (-30) 100).
  lra.
Defined.

Section Helpers.

Import MathUtils.

Lemma clamp_range (value lo hi : R) : lo <= hi -> lo <= clamp value lo hi <= hi.
Proof.
  intros H. unfold clamp. split.
  - apply Rmin_glb; [apply Rmax_r | exact H].
  - apply Rmin_r.
Qed.

Lemma clamp_inside (value lo hi : R) : lo <= value <= hi -> clamp value lo hi = value.
Proof.
  intros [H1 H2]. unfold clamp. rewrite Rmax_left by exact H1.
  apply Rmin_left. exact H2.
Qed.

Lemma clamp_below (value lo hi : R) : lo <= hi -> value <= lo -> clamp value lo hi = lo.
Proof.
  intros H H1. unfold clamp. rewrite Rmax_right by exact H1.
  apply Rmin_left. exact H.
Qed.

Lemma clamp_above (value lo hi : R) : lo <= hi -> hi <= value -> clamp value lo hi = hi.
Proof.
  intros H H1. unfold clamp. apply Rmin_right.
  eapply Rle_trans; [exact H1 | apply Rmax_l].
Qed.

End Helpers.

(** X30.  The range helpers of [MathUtils] stay in their range.  With
    [lo <= hi], [clamp] returns a value of [lo, hi] and returns its
    argument unchanged when that is already there.  With
    [edge0 < edge1], [smoothstep] returns 0 up to [edge0], 1 from [edge1]
    on, and a value of [0, 1] in between.  [wrap] returns [lo] when the
    range [hi - lo] is not positive, and otherwise the one value of
    [lo, hi) that differs from its argument by a whole number of ranges.
    And [mix] is [lerp]. *)
Theorem range_helpers_stay_in_range (value lo hi : R) :
  (lo <= hi ->
   lo <= MathUtils.clamp value lo hi <= hi /\
   (lo <= value <= hi -> MathUtils.clamp value lo hi = value)) /\
  (lo < hi ->
   0 <= MathUtils.smoothstep lo hi value <= 1 /\
   (value <= lo -> MathUtils.smoothstep lo hi value = 0) /\
   (hi <= value -> MathUtils.smoothstep lo hi value = 1)) /\
  (hi <= lo -> MathUtils.wrap value lo hi = lo) /\
  (lo < hi ->
   lo <= MathUtils.wrap value lo hi < hi /\
   exists k : Z, MathUtils.wrap value lo hi = value - IZR k * (hi - lo)) /\
  (forall t, MathUtils.mix lo hi t = MathUtils.lerp lo hi t).
Proof.
  split; [|split; [|split; [|split]]].
  - intros H. split; [apply clamp_range; exact H | apply clamp_inside].
  - intros H. unfold MathUtils.smoothstep.
    assert (Hd : 0 < / (hi - lo)) by (apply Rinv_0_lt_compat; lra).
    split; [|split].
    + pose proof (clamp_range ((value - lo) / (hi - lo)) 0 1 ltac:(lra)) as [H0 H1].
      set (t := MathUtils.clamp ((value - lo) / (hi - lo)) 0 1) in *.
      split.
      * apply Rmult_le_pos; [apply Rmult_le_pos; exact H0 | lra].
      * assert (0 <= (1 - t) * (1 - t) * (1 + 2 * t)).
        { apply Rmult_le_pos; [apply Rmult_le_pos; lra | lra]. }
        lra.
    + intros Hv. rewrite clamp_below; [ring | lra |].
      unfold Rdiv. assert (0 <= (lo - value) * / (hi - lo)) by (apply Rmult_le_pos; lra).
      lra.
    + intros Hv. rewrite clamp_above; [ring | lra |].
      apply Rmult_le_reg_r with (hi - lo); [lra|].
      replace ((value - lo) / (hi - lo) * (hi - lo)) with (value - lo) by (field; lra).
      lra.
  - intros H. unfold MathUtils.wrap.
    replace (JS.leb (hi - lo) 0) with true by (symmetry; apply leb_true; lra).
    reflexivity.
  - intros H. unfold MathUtils.wrap.
    replace (JS.leb (hi - lo) 0) with false by (symmetry; apply leb_false; lra).
    pose proof (floor_spec ((value - lo) / (hi - lo))) as [H1 H2].
    set (k := JS.floor ((value - lo) / (hi - lo))) in *.
    assert (E : value - lo = (value - lo) / (hi - lo) * (hi - lo)) by (field; lra).
    assert (L1 : IZR k * (hi - lo) <= value - lo).
    { rewrite E at 1. apply Rmult_le_compat_r; lra. }
    assert (L2 : value - lo < (IZR k + 1) * (hi - lo)).
    { rewrite E at 1. apply Rmult_lt_compat_r; lra. }
    split; [lra|]. exists k. ring.
  - intros t. unfold MathUtils.mix, MathUtils.lerp. ring.
Qed.

Lemma range_helpers_stay_in_range_witness :
  0 <= MathUtils.wrap 370 0 360 < 360 /\
  exists k : Z, MathUtils.wrap 370 0 360 = 370 - IZR k * (360 - 0).
Proof.
  destruct (range_helpers_stay_in_range 370 0 360) as (_ & _ & _ & H & _).
  apply H. lra.
Defined.
